(** * Mina wallet extension: session state machine and page/relay protocol

    A shallow embedding of the TypeScript sources of the extension
    ([background.ts], [lib/storage.ts], [lib/accounts.ts], [content.ts],
    [inpage.ts]) together with the properties of the specification that
    concern them.

    Conventions of the embedding:
    - an [async] function that reads and writes [chrome.storage.local] is a
      computation in the monad [M]: it takes the store, returns a value or
      a thrown exception, and the store it leaves behind.  A write that
      happened before a [throw] stays written, as in the source;
    - whatever the code obtains from its host ([Date.now()],
      [crypto.randomUUID()], the WASM key generator, the reply of
      [chrome.runtime.sendMessage]) is an explicit argument;
    - [chrome.storage.local] itself is taken to be reliable: [get] and
      [set] do not reject;
    - a computation in [M] is a handler run from its first statement to
      its last without another handler in between.  The assignments to the
      session variables are synchronous statements of one handler, so this
      costs nothing for the session.  The service worker does start a
      handler for each message without waiting for the previous one, and
      the read and the write of the wallet in [createAccount] are
      separated by an [await]: its two halves are given separately, and
      [Accounts.interleave] runs several calls in any order of their
      halves. *)

From Stdlib Require Import ZArith NArith String List Bool Lia Sorted.
From stdpp Require Import base option list gmap strings pretty.

#[local] Open Scope Z_scope.
#[local] Open Scope string_scope.
#[local] Set Warnings "-register-all".

(* ===================================================================== *)
(** * JavaScript values                                                   *)
(* ===================================================================== *)

Module Js.

(** The part of the JavaScript value universe that crosses the message
    channels, which is plain data (what the structured clone and JSON
    carry): objects are ordered lists of own properties, arrays hold their
    elements and nothing else, and numbers are integers.  [Number n]
    stands for the integer [n] that JavaScript holds exactly and prints
    digit by digit, that is for [n] of magnitude up to
    [Number.MAX_SAFE_INTEGER] (see [safe]); what the code does with a
    number beyond it is not modelled, and the statements that depend on
    the digits of a number say so. *)
Inductive value : Type :=
| Undefined
| Null
| Boolean (b : bool)
| Number (n : Z)
| Str (s : string)
| Object (fields : list (string * value))
| Array (items : list value).

(** What a [throw] carries: [new Error(message)] or any other value. *)
Inductive exn : Type :=
| Error (message : string)
| NotAnError (v : value).

(** [err instanceof Error ? err.message : 'Unknown error'] *)
Definition message_of (err : exn) : string :=
  match err with
  | Error m => m
  | NotAnError _ => "Unknown error"
  end.

(** ToBoolean. *)
Definition truthy (v : value) : bool :=
  match v with
  | Undefined | Null => false
  | Boolean b => b
  | Number n => negb (Z.eqb n 0)
  | Str s => negb (String.eqb s "")
  | Object _ | Array _ => true
  end.

Fixpoint assoc (k : string) (fields : list (string * value)) : option value :=
  match fields with
  | [] => None
  | (k', v) :: rest => if String.eqb k k' then Some v else assoc k rest
  end.

(** [v?.k]: the own property [k] of an object, [undefined] for everything
    else that the envelopes can be (the property names used by the code,
    [type], [id], [method], [params], [result], [error], are not
    properties of primitives or arrays). *)
Definition get (v : value) (k : string) : value :=
  match v with
  | Object fields => default Undefined (assoc k fields)
  | _ => Undefined
  end.

(** [v === 'lit'] *)
Definition is_str (v : value) (lit : string) : bool :=
  match v with
  | Str s => String.eqb s lit
  | _ => false
  end.

(** [v ?? d] *)
Definition nullish (v : value) : bool :=
  match v with
  | Undefined | Null => true
  | _ => false
  end.

Definition coalesce (v d : value) : value := if nullish v then d else v.

(** Assignment of an own property: an existing key keeps its place. *)
Fixpoint set (k : string) (v : value) (fields : list (string * value))
  : list (string * value) :=
  match fields with
  | [] => [(k, v)]
  | (k', v') :: rest =>
      if String.eqb k k' then (k, v) :: rest else (k', v') :: set k v rest
  end.

Fixpoint indexed (i : nat) (items : list value) : list (string * value) :=
  match items with
  | [] => []
  | v :: rest => (pretty i, v) :: indexed (S i) rest
  end.

Definition chars (s : string) : list value :=
  map (fun c => Str (String c EmptyString)) (list_ascii_of_string s).

(** The own enumerable properties that [{...v}] copies. *)
Definition own_properties (v : value) : list (string * value) :=
  match v with
  | Object fields => fields
  | Array items => indexed 0 items
  | Str s => indexed 0 (chars s)
  | _ => []
  end.

(** [{...base, ...v}] *)
Definition spread (base : list (string * value)) (v : value)
  : list (string * value) :=
  fold_left (fun acc kv => set kv.1 kv.2 acc) (own_properties v) base.

(** ToString, as [new Error(v)] applies it to its argument; [None] when
    it throws a [TypeError].  An object prints as [[object Object]] through
    the inherited [toString].  An own property [toString] hides that one,
    and as the values are plain data it is not callable: ToPrimitive then
    turns to [valueOf], which is an own property that is not callable
    either, or the inherited one, which returns the object itself, and
    throws.  An array is joined with commas, [undefined] and [null]
    printing as nothing, and throws when an element does. *)
Fixpoint to_string (v : value) : option string :=
  match v with
  | Undefined => Some "undefined"
  | Null => Some "null"
  | Boolean true => Some "true"
  | Boolean false => Some "false"
  | Number n => Some (pretty n)
  | Str s => Some s
  | Object fields =>
      match assoc "toString" fields with
      | Some _ => None
      | None => Some "[object Object]"
      end
  | Array items =>
      let fix join (l : list value) : option string :=
        match l with
        | [] => Some ""
        | [x] => if nullish x then Some "" else to_string x
        | x :: rest =>
            match (if nullish x then Some "" else to_string x) with
            | Some first =>
                match join rest with
                | Some others => Some (first +:+ "," +:+ others)
                | None => None
                end
            | None => None
            end
        end
      in join items
  end.

(** [Number.MAX_SAFE_INTEGER], 2^53 - 1. *)
Definition MAX_SAFE_INTEGER : Z := 9007199254740991.

(** An integer JavaScript holds exactly and prints digit by digit. *)
Definition safe_integer (n : Z) : bool := Z.leb (Z.abs n) MAX_SAFE_INTEGER.

(** Every number in the value is a safe integer. *)
Fixpoint safe (v : value) : bool :=
  match v with
  | Number n => safe_integer n
  | Object fields =>
      (fix all (l : list (string * value)) : bool :=
         match l with
         | [] => true
         | (_, x) :: rest => safe x && all rest
         end) fields
  | Array items =>
      (fix all (l : list value) : bool :=
         match l with
         | [] => true
         | x :: rest => safe x && all rest
         end) items
  | _ => true
  end.

End Js.

(* ===================================================================== *)
(** * Data model ([types.ts])                                             *)
(* ===================================================================== *)

Module Account.
Record t : Type := Build {
  index : Z;
  name : string;
  address : string;
  publicKeyHex : string
}.

Definition with_name (a : t) (n : string) : t :=
  Build (index a) n (address a) (publicKeyHex a).
End Account.

Module EncryptedWallet.
Record t : Type := Build {
  encryptedMnemonic : string;
  salt : string;
  iv : string;
  accounts : list Account.t;
  activeAccountIndex : Z
}.

Definition with_accounts (w : t) (l : list Account.t) : t :=
  Build (encryptedMnemonic w) (salt w) (iv w) l (activeAccountIndex w).

Definition with_activeAccountIndex (w : t) (i : Z) : t :=
  Build (encryptedMnemonic w) (salt w) (iv w) (accounts w) i.
End EncryptedWallet.

Module ConnectedSite.
Record t : Type := Build {
  origin : string;
  name : string;
  connectedAt : Z
}.
End ConnectedSite.

Module Network.
Record t : Type := Build {
  id : string;
  name : string;
  graphqlUrl : string;
  explorerUrl : string
}.
End Network.

Module Keypair.
Record t : Type := Build {
  address : string;
  publicKeyHex : string;
  secretKeyHex : string
}.
End Keypair.

Definition mainnet : Network.t :=
  Network.Build "mainnet" "Mainnet"
    "https://api.minascan.io/node/mainnet/v1/graphql"
    "https://minascan.io/mainnet".

Definition devnet : Network.t :=
  Network.Build "devnet" "Devnet"
    "https://api.minascan.io/node/devnet/v1/graphql"
    "https://minascan.io/devnet".

(** [NETWORKS[id]], for the keys the table itself defines. *)
Definition NETWORKS (id : string) : option Network.t :=
  if String.eqb id "mainnet" then Some mainnet
  else if String.eqb id "devnet" then Some devnet
  else None.

(** [NETWORKS] is an object literal, so it has the members of
    [Object.prototype] as well: for these names [id in NETWORKS] holds,
    and [NETWORKS[id]] is a function or the prototype object, which is
    not a network. *)
Definition inherited : list string :=
  ["constructor"; "hasOwnProperty"; "isPrototypeOf"; "propertyIsEnumerable";
   "toLocaleString"; "toString"; "valueOf"; "__proto__";
   "__defineGetter__"; "__defineSetter__"; "__lookupGetter__";
   "__lookupSetter__"].

(** [id in NETWORKS] *)
Definition in_NETWORKS (id : string) : bool :=
  bool_decide (is_Some (NETWORKS id)) || bool_decide (id ∈ inherited).

(* ===================================================================== *)
(** * [chrome.storage.local] and the monad of the async functions         *)
(* ===================================================================== *)

(** One field per entry of [STORAGE_KEYS] that the background worker
    touches; [None] is a key that was never set. *)
Record Store : Type := mkStore {
  mina_wallet_encrypted : option EncryptedWallet.t;
  mina_active_network : option string;
  mina_connected_sites : option (list ConnectedSite.t);
  mina_last_activity : option Z
}.

Definition empty_store : Store := mkStore None None None None.

Inductive Result (A : Type) : Type :=
| Ok (a : A)
| Throw (err : Js.exn).
Arguments Ok {A} a.
Arguments Throw {A} err.

Module M.
Section Monad.
Context {S : Type}.

(** A computation over a state [S] that may throw; the state survives
    the throw. *)
Definition t (A : Type) : Type := S -> Result A * S.

Definition ret {A} (a : A) : t A := fun s => (Ok a, s).

Definition bind {A B} (m : t A) (k : A -> t B) : t B :=
  fun s =>
    match m s with
    | (Ok a, s') => k a s'
    | (Throw e, s') => (Throw e, s')
    end.

Definition throw {A} (e : Js.exn) : t A := fun s => (Throw e, s).

(** [try { body } catch (err) { handler }] *)
Definition try_catch {A} (body : t A) (handler : Js.exn -> t A) : t A :=
  fun s =>
    match body s with
    | (Ok a, s') => (Ok a, s')
    | (Throw e, s') => handler e s'
    end.

Definition gets {A} (f : S -> A) : t A := fun s => (Ok (f s), s).
Definition modify (f : S -> S) : t unit := fun s => (Ok tt, f s).

(** [await] on something the host computes: its outcome is given. *)
Definition await {A} (r : Result A) : t A := fun s => (r, s).
End Monad.
#[global] Arguments t : clear implicits.
End M.

Declare Scope js_scope.
Delimit Scope js_scope with js.
Notation "'let!' x ':=' m 'in' k" := (M.bind m (fun x => k))
  (at level 10, x binder, m at level 100, k at level 200) : js_scope.
Notation "'run!' m 'in' k" := (M.bind m (fun _ => k))
  (at level 10, m at level 100, k at level 200) : js_scope.
#[local] Open Scope js_scope.

Module Storage.

Definition getEncryptedWallet : M.t Store (option EncryptedWallet.t) :=
  M.gets mina_wallet_encrypted.

Definition setEncryptedWallet (wallet : EncryptedWallet.t) : M.t Store unit :=
  M.modify (fun s =>
    mkStore (Some wallet) (mina_active_network s) (mina_connected_sites s)
            (mina_last_activity s)).

Definition hasWallet : M.t Store bool :=
  let! wallet := getEncryptedWallet in
  M.ret (bool_decide (wallet <> None)).

Definition clearWallet : M.t Store unit :=
  M.modify (fun s =>
    mkStore None (mina_active_network s) (mina_connected_sites s)
            (mina_last_activity s)).

(** The stored network id, if there is one, is not a name of
    [inherited]. *)
Definition plain_network (st : Store) : bool :=
  match mina_active_network st with
  | Some networkId => negb (bool_decide (networkId ∈ inherited))
  | None => true
  end.

(** [NETWORKS[networkId ?? 'mainnet'] ?? NETWORKS.mainnet].  When the
    stored id is a name of [inherited], the code returns the member of
    [Object.prototype] of that name, which is not of type [Network] and
    has no [id]; the value given here is then not what the code
    returns.  What is proved of the active network is proved for the
    stores where [plain_network] holds. *)
Definition getActiveNetwork : M.t Store Network.t :=
  let! networkId := M.gets mina_active_network in
  M.ret (default mainnet (NETWORKS (default "mainnet" networkId))).

Definition setActiveNetwork (networkId : string) : M.t Store unit :=
  if negb (in_NETWORKS networkId) then
    M.throw (Js.Error ("Unknown network: " +:+ networkId))
  else
    M.modify (fun s =>
      mkStore (mina_wallet_encrypted s) (Some networkId)
              (mina_connected_sites s) (mina_last_activity s)).

Definition getConnectedSites : M.t Store (list ConnectedSite.t) :=
  let! sites := M.gets mina_connected_sites in
  M.ret (default [] sites).

Definition setConnectedSites (sites : list ConnectedSite.t) : M.t Store unit :=
  M.modify (fun s =>
    mkStore (mina_wallet_encrypted s) (mina_active_network s) (Some sites)
            (mina_last_activity s)).

(** [existing.name = name; existing.connectedAt = Date.now()] on the first
    entry of that origin. *)
Fixpoint update_site (origin name : string) (now : Z)
    (sites : list ConnectedSite.t) : list ConnectedSite.t :=
  match sites with
  | [] => []
  | s :: rest =>
      if String.eqb (ConnectedSite.origin s) origin
      then ConnectedSite.Build (ConnectedSite.origin s) name now :: rest
      else s :: update_site origin name now rest
  end.

Definition addConnectedSite (now : Z) (origin name : string) : M.t Store unit :=
  let! sites := getConnectedSites in
  let existing :=
    find (fun s => String.eqb (ConnectedSite.origin s) origin) sites in
  let sites' :=
    match existing with
    | Some _ => update_site origin name now sites
    | None => (sites ++ [ConnectedSite.Build origin name now])%list
    end in
  setConnectedSites sites'.

Definition removeConnectedSite (origin : string) : M.t Store unit :=
  let! sites := getConnectedSites in
  let filtered :=
    filter (fun s => negb (String.eqb (ConnectedSite.origin s) origin)) sites in
  setConnectedSites filtered.

Definition isSiteConnected (origin : string) : M.t Store bool :=
  let! sites := getConnectedSites in
  M.ret (existsb (fun s => String.eqb (ConnectedSite.origin s) origin) sites).

Definition updateLastActivity (now : Z) : M.t Store unit :=
  M.modify (fun s =>
    mkStore (mina_wallet_encrypted s) (mina_active_network s)
            (mina_connected_sites s) (Some now)).

End Storage.

(* ===================================================================== *)
(** * Account management ([lib/accounts.ts])                              *)
(* ===================================================================== *)

Module Accounts.
Import Storage.

(** [array[i]] for a JavaScript number [i]. *)
Definition at_index {A} (l : list A) (i : Z) : option A :=
  if Z.ltb i 0 then None else l !! Z.to_nat i.

(** [accounts.reduce((max, a) => Math.max(max, a.index), -1)].  Indices
    are integers here: the numbers of the code are doubles, whose
    arithmetic is that of the integers as long as the values stay safe
    integers ([Js.safe_integer]), and the template literals that print an
    index ([`Account ${i} not found`]) give its decimal numeral on that
    range. *)
Definition maxIndex (accounts : list Account.t) : Z :=
  fold_left (fun max a => Z.max max (Account.index a)) accounts (-1).

Definition getAccounts : M.t Store (list Account.t) :=
  let! wallet := getEncryptedWallet in
  M.ret (default [] (EncryptedWallet.accounts <$> wallet)).

Definition getActiveAccount : M.t Store (option Account.t) :=
  let! wallet := getEncryptedWallet in
  match wallet with
  | None => M.ret None
  | Some wallet =>
      if Nat.eqb (length (EncryptedWallet.accounts wallet)) 0 then M.ret None
      else
        M.ret
          (match at_index (EncryptedWallet.accounts wallet)
                          (EncryptedWallet.activeAccountIndex wallet) with
           | Some a => Some a
           | None => head (EncryptedWallet.accounts wallet)
           end)
  end.

Definition getAccountByIndex (index : Z) : M.t Store (option Account.t) :=
  let! accounts := getAccounts in
  M.ret (find (fun a => Z.eqb (Account.index a) index) accounts).

Definition setActiveAccount (accountIndex : Z) : M.t Store unit :=
  let! wallet := getEncryptedWallet in
  match wallet with
  | None => M.throw (Js.Error "No wallet found")
  | Some wallet =>
      match find (fun a => Z.eqb (Account.index a) accountIndex)
                 (EncryptedWallet.accounts wallet) with
      | None =>
          M.throw (Js.Error ("Account " +:+ pretty accountIndex +:+ " not found"))
      | Some _ =>
          setEncryptedWallet
            (EncryptedWallet.with_activeAccountIndex wallet accountIndex)
      end
  end.

(** [createAccount] has three suspension points: [await
    getEncryptedWallet()], [await generateKeypair()] and [await
    setEncryptedWallet(wallet)].  Its statements up to the second one read
    the wallet and compute the next index from the object read. *)
Definition createAccount_read : M.t Store (EncryptedWallet.t * Z) :=
  let! wallet := getEncryptedWallet in
  match wallet with
  | None => M.throw (Js.Error "No wallet found")
  | Some wallet =>
      let newIndex := maxIndex (EncryptedWallet.accounts wallet) + 1 in
      M.ret (wallet, newIndex)
  end.

(** Its statements after the second one amend that object and write it. *)
Definition createAccount_write (wallet : EncryptedWallet.t) (newIndex : Z)
    (keypair : Keypair.t) (name : option string) : M.t Store Account.t :=
  let account :=
    Account.Build newIndex
      (default ("Account " +:+ pretty (newIndex + 1)) name)
      (Keypair.address keypair) (Keypair.publicKeyHex keypair) in
  let wallet :=
    EncryptedWallet.with_activeAccountIndex
      (EncryptedWallet.with_accounts wallet
         (EncryptedWallet.accounts wallet ++ [account])%list)
      newIndex in
  run! setEncryptedWallet wallet in
  M.ret account.

(** [generateKeypair] draws a random key pair inside the WASM module, or
    throws when that module cannot be initialised: its outcome is the
    argument [generated].  This is the function run without another
    handler in between; [interleave] below runs calls that overlap. *)
Definition createAccount (generated : Result Keypair.t) (name : option string)
  : M.t Store Account.t :=
  let! read := createAccount_read in
  let! keypair := M.await generated in
  createAccount_write read.1 read.2 keypair name.

(** [account.name = newName] on the first account with that index. *)
Fixpoint rename_first (accountIndex : Z) (newName : string)
    (accounts : list Account.t) : list Account.t :=
  match accounts with
  | [] => []
  | a :: rest =>
      if Z.eqb (Account.index a) accountIndex
      then Account.with_name a newName :: rest
      else a :: rename_first accountIndex newName rest
  end.

Definition renameAccount (accountIndex : Z) (newName : string)
  : M.t Store unit :=
  let! wallet := getEncryptedWallet in
  match wallet with
  | None => M.throw (Js.Error "No wallet found")
  | Some wallet =>
      match find (fun a => Z.eqb (Account.index a) accountIndex)
                 (EncryptedWallet.accounts wallet) with
      | None =>
          M.throw (Js.Error ("Account " +:+ pretty accountIndex +:+ " not found"))
      | Some _ =>
          setEncryptedWallet
            (EncryptedWallet.with_accounts wallet
               (rename_first accountIndex newName
                  (EncryptedWallet.accounts wallet)))
      end
  end.

(** [accounts.findIndex(a => a.index === accountIndex)], [None] for -1. *)
Definition findIndex (accountIndex : Z) (accounts : list Account.t)
  : option nat :=
  fst <$> list_find (fun a => Account.index a = accountIndex) accounts.

Definition deleteAccount (accountIndex : Z) : M.t Store unit :=
  let! wallet := getEncryptedWallet in
  match wallet with
  | None => M.throw (Js.Error "No wallet found")
  | Some wallet =>
      if Nat.leb (length (EncryptedWallet.accounts wallet)) 1 then
        M.throw (Js.Error "Cannot delete the last account")
      else
        match findIndex accountIndex (EncryptedWallet.accounts wallet) with
        | None =>
            M.throw
              (Js.Error ("Account " +:+ pretty accountIndex +:+ " not found"))
        | Some accountIdx =>
            (* wallet.accounts.splice(accountIdx, 1) *)
            let remaining := delete accountIdx (EncryptedWallet.accounts wallet) in
            let wallet := EncryptedWallet.with_accounts wallet remaining in
            let! wallet :=
              if Z.eqb (EncryptedWallet.activeAccountIndex wallet) accountIndex
              then
                match head remaining with
                | Some first =>
                    M.ret (EncryptedWallet.with_activeAccountIndex wallet
                             (Account.index first))
                | None =>
                    (* reading [.index] of [undefined] *)
                    M.throw
                      (Js.Error
                         "Cannot read properties of undefined (reading 'index')")
                end
              else M.ret wallet in
            setEncryptedWallet wallet
        end
  end.

Definition createWalletFromMnemonic (generated : Result Keypair.t)
    (mnemonic _password : string) : M.t Store Account.t :=
  let! keypair := M.await generated in
  let account :=
    Account.Build 0 "Account 1"
      (Keypair.address keypair) (Keypair.publicKeyHex keypair) in
  let wallet :=
    EncryptedWallet.Build mnemonic "placeholder-salt" "placeholder-iv"
      [account] 0 in
  run! setEncryptedWallet wallet in
  M.ret account.

Definition importWalletFromMnemonic (generated : Result Keypair.t)
    (mnemonic password : string) : M.t Store Account.t :=
  createWalletFromMnemonic generated mnemonic password.

Section PrivateKeyImport.
(** The two deterministic WASM entry points, which throw on a key they
    cannot parse. *)
Variable keypairFromSecretKeyHex : string -> Result Keypair.t.
Variable keypairFromBase58 : string -> Result Keypair.t.

Definition importAccountFromPrivateKey (privateKey : string)
    (name : option string) : M.t Store Account.t :=
  let! wallet := getEncryptedWallet in
  match wallet with
  | None => M.throw (Js.Error "No wallet found")
  | Some wallet =>
      let! keypair :=
        if Nat.eqb (String.length privateKey) 64
        then M.await (keypairFromSecretKeyHex privateKey)
        else M.await (keypairFromBase58 privateKey) in
      match find (fun a => String.eqb (Account.address a)
                                      (Keypair.address keypair))
                 (EncryptedWallet.accounts wallet) with
      | Some _ => M.throw (Js.Error "Account already exists")
      | None =>
          let newIndex := maxIndex (EncryptedWallet.accounts wallet) + 1 in
          let account :=
            Account.Build newIndex
              (default ("Imported " +:+ pretty (newIndex + 1)) name)
              (Keypair.address keypair) (Keypair.publicKeyHex keypair) in
          let wallet :=
            EncryptedWallet.with_activeAccountIndex
              (EncryptedWallet.with_accounts wallet
                 (EncryptedWallet.accounts wallet ++ [account])%list)
              newIndex in
          run! setEncryptedWallet wallet in
          M.ret account
      end
  end.
End PrivateKeyImport.

(** ** Sequences of wallet operations *)

(** The functions of this module and of [storage.ts] that write the
    wallet record, with their arguments. *)
Inductive Op : Type :=
| OpCreateWallet (generated : Result Keypair.t) (mnemonic password : string)
| OpImportWallet (generated : Result Keypair.t) (mnemonic password : string)
| OpCreateAccount (generated : Result Keypair.t) (name : option string)
| OpImportAccount (privateKey : string) (name : option string)
| OpSetActive (accountIndex : Z)
| OpRename (accountIndex : Z) (newName : string)
| OpDelete (accountIndex : Z)
| OpClear.

(** The operations that add an account to an existing wallet. *)
Definition adds_account (op : Op) : bool :=
  match op with
  | OpCreateAccount _ _ | OpImportAccount _ _ => true
  | _ => false
  end.

Section Operations.
Variable keypairFromSecretKeyHex : string -> Result Keypair.t.
Variable keypairFromBase58 : string -> Result Keypair.t.

(** One operation, run to completion: the account it returns, if it
    returns one, and the store it leaves. *)
Definition perform (op : Op) : M.t Store (option Account.t) :=
  match op with
  | OpCreateWallet g m p =>
      let! a := createWalletFromMnemonic g m p in M.ret (Some a)
  | OpImportWallet g m p =>
      let! a := importWalletFromMnemonic g m p in M.ret (Some a)
  | OpCreateAccount g name =>
      let! a := createAccount g name in M.ret (Some a)
  | OpImportAccount key name =>
      let! a :=
        importAccountFromPrivateKey keypairFromSecretKeyHex
          keypairFromBase58 key name in
      M.ret (Some a)
  | OpSetActive i => run! setActiveAccount i in M.ret None
  | OpRename i n => run! renameAccount i n in M.ret None
  | OpDelete i => run! deleteAccount i in M.ret None
  | OpClear => run! clearWallet in M.ret None
  end.

(** The operations of a list, one after the other. *)
Definition perform_all (st : Store) (ops : list Op) : Store :=
  fold_left (fun st op => (perform op st).2) ops st.

(** The indices of the accounts the successful operations of the list
    returned, in order. *)
Fixpoint assigned (st : Store) (ops : list Op) : list Z :=
  match ops with
  | [] => []
  | op :: rest =>
      match perform op st with
      | (Ok (Some a), st') => Account.index a :: assigned st' rest
      | (_, st') => assigned st' rest
      end
  end.
End Operations.

(** The store with the wallet record replaced. *)
Definition store_wallet (st : Store) (w : EncryptedWallet.t) : Store :=
  mkStore (Some w) (mina_active_network st) (mina_connected_sites st)
          (mina_last_activity st).

(** The wallet record after an account with the next index was pushed. *)
Definition pushed (wallet : EncryptedWallet.t) (a : Account.t)
  : EncryptedWallet.t :=
  EncryptedWallet.Build
    (EncryptedWallet.encryptedMnemonic wallet) (EncryptedWallet.salt wallet)
    (EncryptedWallet.iv wallet)
    (EncryptedWallet.accounts wallet ++ [a])%list (Account.index a).

(** The wallet record [deleteAccount] writes when it removes position [k]. *)
Definition deleted (accountIndex : Z) (k : nat) (wallet : EncryptedWallet.t)
  : EncryptedWallet.t :=
  let remaining := delete k (EncryptedWallet.accounts wallet) in
  EncryptedWallet.Build
    (EncryptedWallet.encryptedMnemonic wallet) (EncryptedWallet.salt wallet)
    (EncryptedWallet.iv wallet) remaining
    (if Z.eqb (EncryptedWallet.activeAccountIndex wallet) accountIndex
     then default 0 (Account.index <$> head remaining)
     else EncryptedWallet.activeAccountIndex wallet).

(** The derivation indices present in a wallet, in list order. *)
Definition indices (wallet : EncryptedWallet.t) : list Z :=
  Account.index <$> EncryptedWallet.accounts wallet.

Definition stored_indices (st : Store) : list Z :=
  default [] (indices <$> mina_wallet_encrypted st).

(** ** Calls of [createAccount] in flight together

    The [chrome.runtime.onMessage] listener calls [handleMessage] and
    returns; a second message is handled while the first call is still
    suspended at an [await].  A call of [createAccount] is then either not
    yet past [await getEncryptedWallet()], or suspended at [await
    generateKeypair()] holding its own copy of the wallet it read and the
    index it computed from it, or has returned.  ([chrome.storage.local]
    hands a fresh copy of the record to every [get], so what one call
    pushes is not seen by the copy of another.) *)
Inductive Call : Type :=
| Started (generated : Result Keypair.t) (name : option string)
| Suspended (wallet : EncryptedWallet.t) (newIndex : Z)
            (generated : Result Keypair.t) (name : option string)
| Returned (result : Result Account.t).

(** The call runs up to its next suspension point. *)
Definition resume (c : Call) (st : Store) : Call * Store :=
  match c with
  | Started generated name =>
      match createAccount_read st with
      | (Ok (wallet, newIndex), st') =>
          (Suspended wallet newIndex generated name, st')
      | (Throw err, st') => (Returned (Throw err), st')
      end
  | Suspended wallet newIndex generated name =>
      match generated with
      | Ok keypair =>
          (Returned (createAccount_write wallet newIndex keypair name st).1,
           (createAccount_write wallet newIndex keypair name st).2)
      | Throw err => (Returned (Throw err), st)
      end
  | Returned result => (Returned result, st)
  end.

(** The call at position [k] takes its turn. *)
Definition turn (k : nat) (cs : list Call * Store) : list Call * Store :=
  match cs.1 !! k with
  | Some c => (<[k := (resume c cs.2).1]> cs.1, (resume c cs.2).2)
  | None => cs
  end.

(** The calls in flight take their turns in the order of [schedule]. *)
Definition interleave (calls : list Call) (st : Store) (schedule : list nat)
  : list Call * Store :=
  fold_left (fun cs k => turn k cs) schedule (calls, st).

(** The active-account pointer names an account of the list, the way
    [setActiveAccount] and [deleteAccount] read it: by the [index] field. *)
Definition active_present (wallet : EncryptedWallet.t) : Prop :=
  EncryptedWallet.activeAccountIndex wallet ∈ indices wallet.

(** The shape of every wallet record the operations produce. *)
Definition wallet_ok (wallet : EncryptedWallet.t) : Prop :=
  EncryptedWallet.accounts wallet <> []
  /\ active_present wallet
  /\ NoDup (indices wallet).

Definition store_ok (st : Store) : Prop :=
  forall wallet, mina_wallet_encrypted st = Some wallet -> wallet_ok wallet.

End Accounts.

(* ===================================================================== *)
(** * The background service worker ([background.ts])                     *)
(* ===================================================================== *)

(** [BackgroundAction]: the messages of the popup, one constructor per
    [action] tag, and [unknown] for a tag outside the union (the
    [default:] branch of the dispatcher). *)
Module Action.
Inductive t : Type :=
| createWallet (mnemonic password : string)
| importWallet (mnemonic password : string)
| unlockWallet (password : string)
| lockWallet
| isLocked
| hasWallet
| getAccounts
| createAccount (name : option string)
| renameAccount (index : Z) (name : string)
| setActiveAccount (index : Z)
| getActiveAccount
| exportPrivateKey (index : Z) (password : string)
| getBalance (address : string)
| getTransactions (address : string)
| sendPayment (payload : Js.value) (password : string)
| sendDelegation (payload : Js.value) (password : string)
| signMessage (message password : string)
| signFields (fields : list string) (password : string)
| getNetwork
| switchNetwork (networkId : string)
| getConnectedSites
| connectSite (origin name : string)
| disconnectSite (origin : string)
| isConnected (origin : string)
| unknown (action : string).
End Action.

(** The objects the trusted dispatcher answers with. *)
Module Response.
Inductive t : Type :=
| hasWallet (hasWallet : bool)                (* { hasWallet } *)
| isLocked (isLocked : bool)                  (* { isLocked } *)
| success_account (account : Account.t)       (* { success: true, account } *)
| success                                     (* { success: true } *)
| failure (error : string)                    (* { success: false, error } *)
| accounts (accounts : list Account.t)        (* { accounts } *)
| account (account : option Account.t)        (* { account } *)
| network (network : Network.t)               (* { network } *)
| sites (sites : list ConnectedSite.t)        (* { sites } *)
| connected (connected : bool)                (* { connected } *)
| balance (balance : string)                  (* { balance } *)
| transactions (transactions : list Js.value) (* { transactions } *).
End Response.

(** The objects the external (page-facing) dispatcher answers with. *)
Module External.
Inductive t : Type :=
| error (error : string)                      (* { error } *)
| accounts (accounts : list string)           (* { accounts } *)
| balance (balance : string)                  (* { balance } *)
| chainId (chainId : string)                  (* { chainId } *)
| failure (error : string)                    (* { success: false, error } *).
End External.

Module Background.

(** The module-level session variables and the persistent store. *)
Record State : Type := mkState {
  isUnlocked : bool;
  _decryptedMnemonic : option string;
  storage : Store
}.

(** What one run of the handler takes from its host. *)
Record Host : Type := mkHost {
  now : Z;                           (* [Date.now()] in [updateLastActivity] *)
  now_connect : Z;                   (* [Date.now()] in [addConnectedSite] *)
  generateKeypair : Result Keypair.t (* outcome of the WASM key generator *)
}.

(** [let isUnlocked = false; let _decryptedMnemonic = null;] when the
    worker script is evaluated over whatever the store holds. *)
Definition start (st : Store) : State := mkState false None st.

(** A storage computation run from inside the worker. *)
Definition lift {A} (m : M.t Store A) : M.t State A :=
  fun s =>
    let (r, st) := m (storage s) in
    (r, mkState (isUnlocked s) (_decryptedMnemonic s) st).

Definition set_isUnlocked (b : bool) : M.t State unit :=
  M.modify (fun s => mkState b (_decryptedMnemonic s) (storage s)).

Definition set_decryptedMnemonic (m : option string) : M.t State unit :=
  M.modify (fun s => mkState (isUnlocked s) m (storage s)).

Definition getMnemonic : M.t State (option string) :=
  M.gets _decryptedMnemonic.

Definition handleMessage (host : Host) (message : Action.t)
  : M.t State Response.t :=
  run! lift (Storage.updateLastActivity (now host)) in
  M.try_catch
    match message with
    | Action.hasWallet =>
        let! b := lift Storage.hasWallet in
        M.ret (Response.hasWallet b)
    | Action.isLocked =>
        let! unlocked := M.gets isUnlocked in
        M.ret (Response.isLocked (negb unlocked))
    | Action.createWallet mnemonic password =>
        let! account :=
          lift (Accounts.createWalletFromMnemonic (generateKeypair host)
                  mnemonic password) in
        run! set_decryptedMnemonic (Some mnemonic) in
        run! set_isUnlocked true in
        M.ret (Response.success_account account)
    | Action.importWallet mnemonic password =>
        let! account :=
          lift (Accounts.importWalletFromMnemonic (generateKeypair host)
                  mnemonic password) in
        run! set_decryptedMnemonic (Some mnemonic) in
        run! set_isUnlocked true in
        M.ret (Response.success_account account)
    | Action.unlockWallet _ =>
        let! walletExists := lift Storage.hasWallet in
        if negb walletExists then M.ret (Response.failure "No wallet found")
        else
          run! set_isUnlocked true in
          M.ret Response.success
    | Action.lockWallet =>
        run! set_isUnlocked false in
        run! set_decryptedMnemonic None in
        M.ret Response.success
    | Action.getAccounts =>
        let! accounts := lift Accounts.getAccounts in
        M.ret (Response.accounts accounts)
    | Action.getActiveAccount =>
        let! account := lift Accounts.getActiveAccount in
        M.ret (Response.account account)
    | Action.setActiveAccount index =>
        run! lift (Accounts.setActiveAccount index) in
        M.ret Response.success
    | Action.createAccount name =>
        let! unlocked := M.gets isUnlocked in
        if negb unlocked then M.ret (Response.failure "Wallet is locked")
        else
          let! account :=
            lift (Accounts.createAccount (generateKeypair host) name) in
          M.ret (Response.success_account account)
    | Action.renameAccount index name =>
        run! lift (Accounts.renameAccount index name) in
        M.ret Response.success
    | Action.exportPrivateKey _ _ =>
        let! unlocked := M.gets isUnlocked in
        if negb unlocked then M.ret (Response.failure "Wallet is locked")
        else M.ret (Response.failure "Not implemented")
    | Action.getNetwork =>
        let! network := lift Storage.getActiveNetwork in
        M.ret (Response.network network)
    | Action.switchNetwork networkId =>
        run! lift (Storage.setActiveNetwork networkId) in
        M.ret Response.success
    | Action.getConnectedSites =>
        let! sites := lift Storage.getConnectedSites in
        M.ret (Response.sites sites)
    | Action.connectSite origin name =>
        let! unlocked := M.gets isUnlocked in
        if negb unlocked then M.ret (Response.failure "Wallet is locked")
        else
          run! lift (Storage.addConnectedSite (now_connect host) origin name) in
          M.ret Response.success
    | Action.disconnectSite origin =>
        run! lift (Storage.removeConnectedSite origin) in
        M.ret Response.success
    | Action.isConnected origin =>
        let! connected := lift (Storage.isSiteConnected origin) in
        M.ret (Response.connected connected)
    | Action.getBalance _ => M.ret (Response.balance "0")
    | Action.getTransactions _ => M.ret (Response.transactions [])
    | Action.sendPayment _ _ => M.ret (Response.failure "Not implemented")
    | Action.sendDelegation _ _ => M.ret (Response.failure "Not implemented")
    | Action.signMessage _ _ => M.ret (Response.failure "Not implemented")
    | Action.signFields _ _ => M.ret (Response.failure "Not implemented")
    | Action.unknown _ => M.ret (Response.failure "Unknown action")
    end
    (fun err => M.ret (Response.failure (Js.message_of err))).

(** The [chrome.runtime.onMessage] listener: what [sendResponse] is called
    with, and the state the handler leaves. *)
Definition onMessage (host : Host) (message : Action.t) (s : State)
  : Response.t * State :=
  match handleMessage host message s with
  | (Ok response, s') => (response, s')
  | (Throw err, s') => (Response.failure (Js.message_of err), s')
  end.

Definition handleExternalMessage (action origin : string)
  : M.t State External.t :=
  if String.eqb action "mina_requestAccounts" then
    let! connected := lift (Storage.isSiteConnected origin) in
    if negb connected then M.ret (External.error "User rejected connection")
    else
      let! unlocked := M.gets isUnlocked in
      if negb unlocked then M.ret (External.error "Wallet is locked")
      else
        let! account := lift Accounts.getActiveAccount in
        M.ret (External.accounts
                 match account with
                 | Some account => [Account.address account]
                 | None => []
                 end)
  else if String.eqb action "mina_accounts" then
    let! connected := lift (Storage.isSiteConnected origin) in
    let! unlocked := M.gets isUnlocked in
    if negb connected || negb unlocked then M.ret (External.accounts [])
    else
      let! account := lift Accounts.getActiveAccount in
      M.ret (External.accounts
               match account with
               | Some account => [Account.address account]
               | None => []
               end)
  else if String.eqb action "mina_getBalance" then
    M.ret (External.balance "0")
  else if String.eqb action "mina_chainId" then
    let! network := lift Storage.getActiveNetwork in
    M.ret (External.chainId (Network.id network))
  else
    M.ret (External.error ("Unknown method: " +:+ action)).

(** The part of [chrome.runtime.MessageSender] the listener reads. *)
Record MessageSender : Type := mkSender {
  origin : option string;
  url : option string
}.

(** [sender.origin ?? sender.url ?? 'unknown'] *)
Definition sender_origin (sender : MessageSender) : string :=
  default (default "unknown" (url sender)) (origin sender).

(** The [chrome.runtime.onMessageExternal] listener. *)
Definition onMessageExternal (action : string) (sender : MessageSender)
    (s : State) : External.t * State :=
  match handleExternalMessage action (sender_origin sender) s with
  | (Ok response, s') => (response, s')
  | (Throw err, s') => (External.failure (Js.message_of err), s')
  end.

(** The [chrome.runtime.onStartup] listener. *)
Definition onStartup (s : State) : State :=
  mkState false None (storage s).

(** What can happen to the worker. *)
Inductive Event : Type :=
| Message (host : Host) (message : Action.t)
| MessageExternal (action : string) (sender : MessageSender)
| Startup
| Restart.  (* the worker is torn down and its script evaluated again *)

Definition step (s : State) (e : Event) : State :=
  match e with
  | Message host message => (onMessage host message s).2
  | MessageExternal action sender => (onMessageExternal action sender s).2
  | Startup => onStartup s
  | Restart => start (storage s)
  end.

Definition run (s : State) (events : list Event) : State :=
  fold_left step events s.

(** The states the worker can be in: any run from a fresh start. *)
Definition reachable (s : State) : Prop :=
  exists st events, s = run (start st) events.

(** The origins that hold a [ConnectedSite] entry. *)
Definition connected_origins (s : State) : list string :=
  ConnectedSite.origin <$> default [] (mina_connected_sites (storage s)).

(** The store after [updateLastActivity] at time [t]. *)
Definition touched (t : Z) (s : State) : State :=
  mkState (isUnlocked s) (_decryptedMnemonic s)
    (mkStore (mina_wallet_encrypted (storage s))
             (mina_active_network (storage s))
             (mina_connected_sites (storage s)) (Some t)).

(** The session invariant: locked means no decrypted mnemonic in memory. *)
Definition locked_holds_no_key (s : State) : Prop :=
  isUnlocked s = false -> _decryptedMnemonic s = None.

End Background.

(* ===================================================================== *)
(** * The relay ([content.ts])                                            *)
(* ===================================================================== *)

Module Content.

(** [{ action: message.method, ...message.params }] *)
Definition forwarded (message : Js.value) : Js.value :=
  Js.Object
    (Js.spread [("action", Js.get message "method")] (Js.get message "params")).

Definition response_result (message response : Js.value) : Js.value :=
  Js.Object [("type", Js.Str "MINA_PROVIDER_RESPONSE");
             ("id", Js.get message "id");
             ("result", response)].

Definition response_error (message : Js.value) (err : Js.exn) : Js.value :=
  Js.Object [("type", Js.Str "MINA_PROVIDER_RESPONSE");
             ("id", Js.get message "id");
             ("error", Js.Str (Js.message_of err))].


(** The [message] listener of the content script.  [sendMessage] stands
    for [chrome.runtime.sendMessage] once awaited: the reply of the
    background worker, or the rejection of the call.  The result is the
    list of envelopes handed to [window.postMessage]. *)
Definition onWindowMessage (sendMessage : Js.value -> Result Js.value)
    (fromWindow : bool) (message : Js.value) : list Js.value :=
  if negb fromWindow then []
  else if negb (Js.truthy message)
          || negb (Js.is_str (Js.get message "type") "MINA_PROVIDER_REQUEST")
  then []
  else
    match sendMessage (forwarded message) with
    | Ok response => [response_result message response]
    | Throw err => [response_error message err]
    end.

End Content.

(* ===================================================================== *)
(** * The page provider ([inpage.ts])                                     *)
(* ===================================================================== *)

Module Inpage.

(** A promise is known by the number of its creation; the [resolve] and
    [reject] of a [PendingRequest] are the two settling functions of one
    promise. *)
Record PendingRequest : Type := mkPending { promise : nat }.

Inductive Settlement : Type :=
| Resolved (result : Js.value)
| Rejected (err : Js.exn).

(** A timer armed by [setTimeout]: when it is due, and what its closure
    captured (the correlation id and the [reject] of its own promise). *)
Record Timer : Type := mkTimer {
  deadline : N;
  timer_id : string;
  timer_promise : nat
}.

#[global] Instance Timer_eq_dec : EqDecision Timer.
Proof. solve_decision. Defined.

(** The provider object and the part of its host it acts upon. *)
Record Page : Type := mkPage {
  (* EventEmitter *)
  events : gmap string (list nat);    (* Map<string, Set<EventCallback>> *)
  (* MinaProvider *)
  pendingRequests : gmap string PendingRequest;
  _isConnected : bool;
  (* host *)
  clock : N;                          (* milliseconds since the page loaded *)
  timers : list Timer;                (* armed, not yet fired *)
  nextPromise : nat;
  posted : list Js.value;             (* calls of window.postMessage *)
  settled : list (nat * Settlement);  (* calls of resolve and reject, and
                                         rejections by a throwing executor;
                                         the first of a promise decides *)
  called : list nat                   (* event callbacks invoked *)
}.

(** [new MinaProvider()] in a page that has just loaded. *)
Definition initial : Page := mkPage ∅ ∅ false 0 [] 0 [] [] [].

Definition with_events (pg : Page) (e : gmap string (list nat)) : Page :=
  mkPage e (pendingRequests pg) (_isConnected pg) (clock pg) (timers pg)
         (nextPromise pg) (posted pg) (settled pg) (called pg).

Definition with_pendingRequests (pg : Page) (m : gmap string PendingRequest)
  : Page :=
  mkPage (events pg) m (_isConnected pg) (clock pg) (timers pg)
         (nextPromise pg) (posted pg) (settled pg) (called pg).

Definition with_clock (pg : Page) (t : N) : Page :=
  mkPage (events pg) (pendingRequests pg) (_isConnected pg) t (timers pg)
         (nextPromise pg) (posted pg) (settled pg) (called pg).

Definition with_timers (pg : Page) (l : list Timer) : Page :=
  mkPage (events pg) (pendingRequests pg) (_isConnected pg) (clock pg) l
         (nextPromise pg) (posted pg) (settled pg) (called pg).

Definition with_nextPromise (pg : Page) (n : nat) : Page :=
  mkPage (events pg) (pendingRequests pg) (_isConnected pg) (clock pg)
         (timers pg) n (posted pg) (settled pg) (called pg).

Definition postMessage (v : Js.value) (pg : Page) : Page :=
  mkPage (events pg) (pendingRequests pg) (_isConnected pg) (clock pg)
         (timers pg) (nextPromise pg) (posted pg ++ [v])%list (settled pg)
         (called pg).

(** A call of [resolve] or [reject] of promise [p]. *)
Definition settle (p : nat) (o : Settlement) (pg : Page) : Page :=
  mkPage (events pg) (pendingRequests pg) (_isConnected pg) (clock pg)
         (timers pg) (nextPromise pg) (posted pg)
         (settled pg ++ [(p, o)])%list (called pg).

Definition call_all (callbacks : list nat) (pg : Page) : Page :=
  mkPage (events pg) (pendingRequests pg) (_isConnected pg) (clock pg)
         (timers pg) (nextPromise pg) (posted pg) (settled pg)
         (called pg ++ callbacks)%list.

(** [Set.prototype.add] and [Set.prototype.delete], in insertion order. *)
Definition set_add (x : nat) (l : list nat) : list nat :=
  if bool_decide (x ∈ l) then l else (l ++ [x])%list.

Definition set_delete (x : nat) (l : list nat) : list nat :=
  filter (fun y => negb (Nat.eqb y x)) l.

Definition on (event : string) (callback : nat) (pg : Page) : Page :=
  let pg :=
    if bool_decide (is_Some (events pg !! event)) then pg
    else with_events pg (<[event := []]> (events pg)) in
  with_events pg (alter (set_add callback) event (events pg)).

Definition off (event : string) (callback : nat) (pg : Page) : Page :=
  with_events pg (alter (set_delete callback) event (events pg)).

(** Each registered callback is called inside its own [try]/[catch]. *)
Definition emit (event : string) (pg : Page) : Page :=
  match events pg !! event with
  | Some callbacks => call_all callbacks pg
  | None => pg
  end.

(** [pendingRequests.get(key)] for an arbitrary key: the keys of the map
    are strings, another value finds nothing. *)
Definition pending_get (key : Js.value) (pg : Page) : option PendingRequest :=
  match key with
  | Js.Str id => pendingRequests pg !! id
  | _ => None
  end.

Definition pending_delete (key : Js.value) (pg : Page) : Page :=
  match key with
  | Js.Str id => with_pendingRequests pg (delete id (pendingRequests pg))
  | _ => pg
  end.

Definition REQUEST_TIMEOUT : N := 60000.

(** [request({ method, params })], where [id] is what
    [crypto.randomUUID()] returned.  The promise handed to the caller is
    the first component.  The [params] are a value of the universe, all of
    which the structured clone of [window.postMessage] accepts; the call
    with [params] it refuses is [request_refused]. *)
Definition request (id method : string) (params : Js.value) (pg : Page)
  : nat * Page :=
  let p := nextPromise pg in
  let pg := with_nextPromise pg (S p) in
  let pg := with_pendingRequests pg (<[id := mkPending p]> (pendingRequests pg)) in
  let pg :=
    postMessage
      (Js.Object [("type", Js.Str "MINA_PROVIDER_REQUEST");
                  ("id", Js.Str id);
                  ("method", Js.Str method);
                  ("params", Js.coalesce params (Js.Object []))]) pg in
  let pg :=
    with_timers pg
      (timers pg ++ [mkTimer (clock pg + REQUEST_TIMEOUT) id p])%list in
  (p, pg).

(** [request] with [params] the structured clone refuses (an array
    holding a function, say): the id is registered, [window.postMessage]
    throws [err], and the executor of the promise ends there.  Nothing is
    posted and no timer is armed; the promise is rejected with what was
    thrown. *)
Definition request_refused (id : string) (err : Js.exn) (pg : Page)
  : nat * Page :=
  let p := nextPromise pg in
  let pg := with_nextPromise pg (S p) in
  let pg := with_pendingRequests pg (<[id := mkPending p]> (pendingRequests pg)) in
  (p, settle p (Rejected err) pg).

(** The closure given to [setTimeout]. *)
Definition onTimeout (tm : Timer) (pg : Page) : Page :=
  if bool_decide (is_Some (pendingRequests pg !! timer_id tm)) then
    let pg :=
      with_pendingRequests pg (delete (timer_id tm) (pendingRequests pg)) in
    settle (timer_promise tm) (Rejected (Js.Error "Request timeout")) pg
  else pg.

(** The [message] listener installed by [setupMessageListener]. *)
Definition onWindowMessage (fromWindow : bool) (message : Js.value)
    (pg : Page) : Page :=
  if negb fromWindow then pg
  else if Js.is_str (Js.get message "type") "MINA_PROVIDER_RESPONSE" then
    match pending_get (Js.get message "id") pg with
    | Some pending =>
        let pg := pending_delete (Js.get message "id") pg in
        if Js.truthy (Js.get message "error")
        then
          match Js.to_string (Js.get message "error") with
          | Some text => settle (promise pending) (Rejected (Js.Error text)) pg
          | None => pg  (* [new Error(message.error)] throws: the listener
                           ends here, the entry deleted, nothing settled *)
          end
        else settle (promise pending) (Resolved (Js.get message "result")) pg
    | None => pg
    end
  else if Js.is_str (Js.get message "type") "MINA_PROVIDER_READY" then
    emit "ready" pg
  else pg.

Definition is_due (t : N) (tm : Timer) : bool := N.leb (deadline tm) t.

(** The callbacks of the given timers, run in order. *)
Definition fire_all (fire : list Timer) (pg : Page) : Page :=
  fold_left (fun pg tm => onTimeout tm pg) fire pg.

(** Time passes: the clock moves on and every timer that has become due
    fires, in the order in which the timers were armed (all delays are the
    same, so this is the order of their deadlines). *)
Definition elapse (dt : N) (pg : Page) : Page :=
  let t := (clock pg + dt)%N in
  let fire := filter (fun tm => is_due t tm) (timers pg) in
  let keep := filter (fun tm => negb (is_due t tm)) (timers pg) in
  fire_all fire (with_timers (with_clock pg t) keep).

(** What can happen in the page. *)
Inductive Event : Type :=
| Request (uuid method : string) (params : Js.value)
| WindowMessage (fromWindow : bool) (message : Js.value)
| Elapse (dt : N)
| On (event : string) (callback : nat)
| Off (event : string) (callback : nat)
| RequestRefused (uuid : string) (err : Js.exn).

Definition step (pg : Page) (e : Event) : Page :=
  match e with
  | Request uuid method params => (request uuid method params pg).2
  | WindowMessage fromWindow message => onWindowMessage fromWindow message pg
  | Elapse dt => elapse dt pg
  | On event callback => on event callback pg
  | Off event callback => off event callback pg
  | RequestRefused uuid err => (request_refused uuid err pg).2
  end.

Definition run (pg : Page) (es : list Event) : Page := fold_left step es pg.

(** ** Vocabulary of the statements *)

(** The ids that [crypto.randomUUID()] handed out along a trace. *)
Fixpoint uuids (es : list Event) : list string :=
  match es with
  | [] => []
  | Request uuid _ _ :: rest => uuid :: uuids rest
  | RequestRefused uuid _ :: rest => uuid :: uuids rest
  | _ :: rest => uuids rest
  end.

(** Those of them whose request was not posted. *)
Fixpoint refused (es : list Event) : list string :=
  match es with
  | [] => []
  | RequestRefused uuid _ :: rest => uuid :: refused rest
  | _ :: rest => refused rest
  end.

(** The time that passes along a trace. *)
Fixpoint elapsed (es : list Event) : N :=
  match es with
  | [] => 0
  | Elapse dt :: rest => (dt + elapsed rest)%N
  | _ :: rest => elapsed rest
  end.

(** An event that delivers a response envelope for [id] to the listener. *)
Definition answers (id : string) (e : Event) : bool :=
  match e with
  | WindowMessage true message =>
      Js.is_str (Js.get message "type") "MINA_PROVIDER_RESPONSE"
      && Js.is_str (Js.get message "id") id
  | _ => false
  end.

(** How the listener settles the request a response envelope answers;
    [None] when [new Error(message.error)] throws and it does not. *)
Definition settlement_of (message : Js.value) : option Settlement :=
  if Js.truthy (Js.get message "error")
  then
    match Js.to_string (Js.get message "error") with
    | Some text => Some (Rejected (Js.Error text))
    | None => None
    end
  else Some (Resolved (Js.get message "result")).

(** A call of [resolve] or [reject] that may not take place. *)
Definition settle_if (p : nat) (o : option Settlement) (pg : Page) : Page :=
  match o with
  | Some o => settle p o pg
  | None => pg
  end.

(** The calls of [resolve]/[reject] that promise [p] received. *)
Definition settlements (p : nat) (pg : Page) : list Settlement :=
  snd <$> filter (fun ps => ps.1 = p) (settled pg).

Definition timeout_error : Settlement := Rejected (Js.Error "Request timeout").

(** ** The life of one request

    The request made with correlation id [id], whose promise is [p] and
    whose timer is due at [d]. *)
Section OneRequest.
Variable id : string.
Variable p : nat.
Variable d : N.

(** A timer that mentions the id or the promise is the timer of this
    request. *)
Definition own_timer (tm : Timer) : Prop :=
  timer_id tm = id \/ timer_promise tm = p -> tm = mkTimer d id p.

(** Nothing else in the page refers to the promise. *)
Definition owned (pg : Page) : Prop :=
  (forall id' pr,
      pendingRequests pg !! id' = Some pr -> promise pr = p -> id' = id)
  /\ Forall own_timer (timers pg)
  /\ (p < nextPromise pg)%nat.

Definition unsettled (pg : Page) : Prop :=
  pendingRequests pg !! id = Some (mkPending p) /\ settlements p pg = [].

Definition waiting (pg : Page) : Prop :=
  unsettled pg /\ mkTimer d id p ∈ timers pg /\ (clock pg < d)%N.

(** The id is gone from the map, and [l] is what the promise received. *)
Definition done (l : list Settlement) (pg : Page) : Prop :=
  pendingRequests pg !! id = None /\ settlements p pg = l.
End OneRequest.

(** Every promise and id the page refers to has been handed out: the
    promises are below the counter, the ids are among [used]. *)
Definition bounded (used : list string) (pg : Page) : Prop :=
  (forall id pr,
      pendingRequests pg !! id = Some pr ->
      id ∈ used /\ (promise pr < nextPromise pg)%nat)
  /\ Forall (fun tm => timer_id tm ∈ used
                       /\ (timer_promise tm < nextPromise pg)%nat)
            (timers pg)
  /\ Forall (fun ps => (ps.1 < nextPromise pg)%nat) (settled pg).

End Inpage.

(* ===================================================================== *)
(** * Sample inputs                                                       *)
(* ===================================================================== *)

Module Sample.

Definition keypair : Keypair.t :=
  Keypair.Build "B62qsample" "02aa" "11bb".

Definition host : Background.Host :=
  Background.mkHost 1700000000000 1700000000000 (Ok keypair).

Definition mnemonic : string := "abandon ability able about".

(** A worker that created a wallet under one password and was locked. *)
Definition locked_with_wallet : Background.State :=
  Background.run (Background.start empty_store)
    [Background.Message host (Action.createWallet mnemonic "correct horse");
     Background.Message host Action.lockWallet].

Definition site : ConnectedSite.t :=
  ConnectedSite.Build "https://app.example" "Example" 1700000000000.

(** A page of an origin that was never connected. *)
Definition stranger : Background.MessageSender :=
  Background.mkSender (Some "https://evil.example")
    (Some "https://evil.example/index.html").

(** An unlocked worker with one connected site. *)
Definition unlocked_with_site : Background.State :=
  Background.run (Background.start empty_store)
    [Background.Message host (Action.createWallet mnemonic "correct horse");
     Background.Message host
       (Action.connectSite "https://app.example" "Example")].

Definition second_keypair : Keypair.t :=
  Keypair.Build "B62qimported" "03cc" "22dd".

Definition keypairFromSecretKeyHex (key : string) : Result Keypair.t :=
  Ok second_keypair.

Definition keypairFromBase58 (key : string) : Result Keypair.t :=
  Throw (Js.Error "invalid base58 key").

(** The store of a freshly created wallet. *)
Definition fresh_wallet_store : Store :=
  (Accounts.createWalletFromMnemonic (Ok keypair) mnemonic "correct horse"
     empty_store).2.

(** The wallet record in it: one account, of index 0. *)
Definition fresh_wallet : EncryptedWallet.t :=
  Eval cbv in
    default (EncryptedWallet.Build "" "" "" [] 0)
            (mina_wallet_encrypted fresh_wallet_store).

(** A creation, an import of a 64-character hex key, a second import of
    the same key (refused), and another creation. *)
Definition creations : list Accounts.Op :=
  [Accounts.OpCreateAccount (Ok keypair) None;
   Accounts.OpImportAccount
     "0000000000000000000000000000000000000000000000000000000000000000"
     (Some "Cold");
   Accounts.OpImportAccount
     "0000000000000000000000000000000000000000000000000000000000000000"
     None;
   Accounts.OpCreateAccount (Ok keypair) (Some "Savings")].

(** A store whose wallet holds accounts 0 and 1, account 1 active. *)
Definition two_account_store : Store :=
  Accounts.perform_all keypairFromSecretKeyHex keypairFromBase58
    fresh_wallet_store [Accounts.OpCreateAccount (Ok keypair) None].

(** A store whose wallet holds accounts 0, 1 and 2, account 2 active. *)
Definition three_account_store : Store :=
  Accounts.perform_all keypairFromSecretKeyHex keypairFromBase58
    fresh_wallet_store
    [Accounts.OpCreateAccount (Ok keypair) None;
     Accounts.OpCreateAccount (Ok keypair) None].

(** Envelopes and a page trace. *)
Definition response (id : string) (result : Js.value) : Js.value :=
  Js.Object [("type", Js.Str "MINA_PROVIDER_RESPONSE");
             ("id", Js.Str id);
             ("result", result)].


Definition sendMessage (message : Js.value) : Result Js.value :=
  Ok (Js.Object [("accounts", Js.Array [])]).

Definition prelude : list Inpage.Event :=
  [Inpage.On "ready" 7%nat;
   Inpage.WindowMessage true
     (Js.Object [("type", Js.Str "MINA_PROVIDER_READY")]);
   Inpage.Request "uuid-1" "mina_chainId" Js.Undefined].

Definition aftermath : list Inpage.Event :=
  [Inpage.Elapse 1500;
   Inpage.WindowMessage true
     (response "uuid-2" (Js.Object [("accounts", Js.Array [])]));
   Inpage.WindowMessage true
     (response "uuid-2" (Js.Object [("accounts", Js.Array [])]));
   Inpage.Elapse 60000].

End Sample.

(* ===================================================================== *)
(** * Vocabulary of the further properties                              *)
(* ===================================================================== *)

(** ** Connected sites ([lib/storage.ts]) *)

Module Sites.

(** The origins that hold an entry, in the order of the stored list. *)
Definition origins (st : Store) : list string :=
  ConnectedSite.origin <$> default [] (mina_connected_sites st).

(** [sites.find(s => s.origin === origin)] on the stored list. *)
Definition entry (origin : string) (st : Store) : option ConnectedSite.t :=
  find (fun s => String.eqb (ConnectedSite.origin s) origin)
       (default [] (mina_connected_sites st)).

End Sites.

(** ** Accounts ([lib/accounts.ts]) *)

Module Wallets.
Import Accounts.

(** The accounts the store holds, none when there is no wallet. *)
Definition stored_accounts (st : Store) : list Account.t :=
  default [] (EncryptedWallet.accounts <$> mina_wallet_encrypted st).

(** Every account sits at the position its index names. *)
Definition positional (accounts : list Account.t) : Prop :=
  forall k a, accounts !! k = Some a -> Account.index a = Z.of_nat k.

Definition store_positional (st : Store) : Prop :=
  positional (stored_accounts st).

(** The operations that remove an account. *)
Definition removes_account (op : Op) : bool :=
  match op with
  | OpDelete _ => true
  | _ => false
  end.

(** The parser [importAccountFromPrivateKey] hands the key to. *)
Definition parse_key (hex b58 : string -> Result Keypair.t)
    (privateKey : string) : Result Keypair.t :=
  if Nat.eqb (String.length privateKey) 64 then hex privateKey
  else b58 privateKey.

End Wallets.

(** ** The dispatchers ([background.ts]) *)

Module Dispatch.

(** The actions whose case only reads, or only answers a constant. *)
Definition reads_only (message : Action.t) : bool :=
  match message with
  | Action.hasWallet | Action.isLocked | Action.getAccounts
  | Action.getActiveAccount | Action.getNetwork | Action.getConnectedSites
  | Action.isConnected _ | Action.getBalance _ | Action.getTransactions _
  | Action.exportPrivateKey _ _ | Action.sendPayment _ _
  | Action.sendDelegation _ _ | Action.signMessage _ _
  | Action.signFields _ _ | Action.unknown _ => true
  | _ => false
  end.

(** The actions whose case never reads [isUnlocked]. *)
Definition ungated (message : Action.t) : bool :=
  match message with
  | Action.isLocked | Action.createAccount _ | Action.exportPrivateKey _ _
  | Action.connectSite _ _ => false
  | _ => true
  end.

(** The address list both account methods build from [getActiveAccount]. *)
Definition active_addresses (st : Store) : list string :=
  match (Accounts.getActiveAccount st).1 with
  | Ok (Some account) => [Account.address account]
  | _ => []
  end.

End Dispatch.

(** ** The provider ([inpage.ts]) *)

Module Emitter.
Import Inpage.

(** [this.events.get(event)], the empty set when there is none. *)
Definition listeners (event : string) (pg : Page) : list nat :=
  default [] (events pg !! event).

(** Every pending id is one of [unposted], or has a timer that is due
    within the timeout. *)
Definition armed (unposted : list string) (pg : Page) : Prop :=
  forall id, is_Some (pendingRequests pg !! id) ->
    id ∈ unposted
    \/ exists tm, tm ∈ timers pg /\ timer_id tm = id
                  /\ (deadline tm <= clock pg + REQUEST_TIMEOUT)%N.

(** The request of id [id] and promise [p] was registered and not posted:
    it is pending, [l] is what its promise received, and no timer is its
    own. *)
Definition leaked (id : string) (p : nat) (l : list Settlement) (pg : Page)
  : Prop :=
  pendingRequests pg !! id = Some (mkPending p)
  /\ settlements p pg = l
  /\ Forall (fun tm => timer_id tm <> id /\ timer_promise tm <> p) (timers pg)
  /\ (forall id' pr,
        pendingRequests pg !! id' = Some pr -> promise pr = p -> id' = id)
  /\ (p < nextPromise pg)%nat.

End Emitter.

(** ** Page, relay and back ([inpage.ts], [content.ts]) *)

Module Relay.

(** The value an object built by assigning [fields] in order holds under
    [k]: the last assignment wins. *)
Definition last_binding (k : string) (fields : list (string * Js.value))
  : option Js.value :=
  Js.assoc k (rev fields).

(** How a page request ends when the relay got [reply] from
    [chrome.runtime.sendMessage]. *)
Definition outcome (reply : Result Js.value) : Inpage.Settlement :=
  match reply with
  | Ok response => Inpage.Resolved response
  | Throw err =>
      if String.eqb (Js.message_of err) ""
      then Inpage.Resolved Js.Undefined
      else Inpage.Rejected (Js.Error (Js.message_of err))
  end.

End Relay.

(* ===================================================================== *)
(** * Messages on the wire ([types.ts], [background.ts])                *)
(* ===================================================================== *)

Module Wire.

(** ** What [sendResponse] is called with *)

Definition account (a : Account.t) : Js.value :=
  Js.Object [("index", Js.Number (Account.index a));
             ("name", Js.Str (Account.name a));
             ("address", Js.Str (Account.address a));
             ("publicKeyHex", Js.Str (Account.publicKeyHex a))].

Definition network (n : Network.t) : Js.value :=
  Js.Object [("id", Js.Str (Network.id n));
             ("name", Js.Str (Network.name n));
             ("graphqlUrl", Js.Str (Network.graphqlUrl n));
             ("explorerUrl", Js.Str (Network.explorerUrl n))].

Definition site (s : ConnectedSite.t) : Js.value :=
  Js.Object [("origin", Js.Str (ConnectedSite.origin s));
             ("name", Js.Str (ConnectedSite.name s));
             ("connectedAt", Js.Number (ConnectedSite.connectedAt s))].

Definition response (r : Response.t) : Js.value :=
  match r with
  | Response.hasWallet b => Js.Object [("hasWallet", Js.Boolean b)]
  | Response.isLocked b => Js.Object [("isLocked", Js.Boolean b)]
  | Response.success_account a =>
      Js.Object [("success", Js.Boolean true); ("account", account a)]
  | Response.success => Js.Object [("success", Js.Boolean true)]
  | Response.failure e =>
      Js.Object [("success", Js.Boolean false); ("error", Js.Str e)]
  | Response.accounts l => Js.Object [("accounts", Js.Array (account <$> l))]
  | Response.account o =>
      Js.Object [("account", from_option account Js.Null o)]
  | Response.network n => Js.Object [("network", network n)]
  | Response.sites l => Js.Object [("sites", Js.Array (site <$> l))]
  | Response.connected b => Js.Object [("connected", Js.Boolean b)]
  | Response.balance b => Js.Object [("balance", Js.Str b)]
  | Response.transactions l => Js.Object [("transactions", Js.Array l)]
  end.

(** ** What the dispatcher reads from a message *)

Definition str (v : Js.value) : option string :=
  match v with
  | Js.Str s => Some s
  | _ => None
  end.

Definition num (v : Js.value) : option Z :=
  match v with
  | Js.Number n => Some n
  | _ => None
  end.

Definition strs (v : Js.value) : option (list string) :=
  match v with
  | Js.Array items => mapM str items
  | _ => None
  end.

(** A field declared [name?: string]. *)
Definition optional_str (v : Js.value) : option (option string) :=
  match v with
  | Js.Undefined | Js.Null => Some None
  | Js.Str s => Some (Some s)
  | _ => None
  end.

(** The [case] labels of the [switch] in [handleMessage]. *)
Definition labels : list string :=
  ["hasWallet"; "isLocked"; "createWallet"; "importWallet"; "unlockWallet";
   "lockWallet"; "getAccounts"; "getActiveAccount"; "setActiveAccount";
   "createAccount"; "renameAccount"; "exportPrivateKey"; "getNetwork";
   "switchNetwork"; "getConnectedSites"; "connectSite"; "disconnectSite";
   "isConnected"; "getBalance"; "getTransactions"; "sendPayment";
   "sendDelegation"; "signMessage"; "signFields"].

(** The message object as a [BackgroundAction]: the [switch] compares
    [message.action] with its labels, and each case reads the fields the
    union declares for it.  A message whose fields are not of the declared
    types is outside the union, and nothing is said about it. *)
Definition action (message : Js.value) : option Action.t :=
  match message with
  | Js.Object _ =>
      let field := Js.get message in
      match field "action" with
      | Js.Str tag =>
          if String.eqb tag "hasWallet" then Some Action.hasWallet
          else if String.eqb tag "isLocked" then Some Action.isLocked
          else if String.eqb tag "createWallet" then
            mnemonic ← str (field "mnemonic");
            password ← str (field "password");
            Some (Action.createWallet mnemonic password)
          else if String.eqb tag "importWallet" then
            mnemonic ← str (field "mnemonic");
            password ← str (field "password");
            Some (Action.importWallet mnemonic password)
          else if String.eqb tag "unlockWallet" then
            password ← str (field "password");
            Some (Action.unlockWallet password)
          else if String.eqb tag "lockWallet" then Some Action.lockWallet
          else if String.eqb tag "getAccounts" then Some Action.getAccounts
          else if String.eqb tag "getActiveAccount" then
            Some Action.getActiveAccount
          else if String.eqb tag "setActiveAccount" then
            index ← num (field "index");
            Some (Action.setActiveAccount index)
          else if String.eqb tag "createAccount" then
            name ← optional_str (field "name");
            Some (Action.createAccount name)
          else if String.eqb tag "renameAccount" then
            index ← num (field "index");
            name ← str (field "name");
            Some (Action.renameAccount index name)
          else if String.eqb tag "exportPrivateKey" then
            index ← num (field "index");
            password ← str (field "password");
            Some (Action.exportPrivateKey index password)
          else if String.eqb tag "getNetwork" then Some Action.getNetwork
          else if String.eqb tag "switchNetwork" then
            networkId ← str (field "networkId");
            Some (Action.switchNetwork networkId)
          else if String.eqb tag "getConnectedSites" then
            Some Action.getConnectedSites
          else if String.eqb tag "connectSite" then
            origin ← str (field "origin");
            name ← str (field "name");
            Some (Action.connectSite origin name)
          else if String.eqb tag "disconnectSite" then
            origin ← str (field "origin");
            Some (Action.disconnectSite origin)
          else if String.eqb tag "isConnected" then
            origin ← str (field "origin");
            Some (Action.isConnected origin)
          else if String.eqb tag "getBalance" then
            address ← str (field "address");
            Some (Action.getBalance address)
          else if String.eqb tag "getTransactions" then
            address ← str (field "address");
            Some (Action.getTransactions address)
          else if String.eqb tag "sendPayment" then
            password ← str (field "password");
            Some (Action.sendPayment (field "payload") password)
          else if String.eqb tag "sendDelegation" then
            password ← str (field "password");
            Some (Action.sendDelegation (field "payload") password)
          else if String.eqb tag "signMessage" then
            text ← str (field "message");
            password ← str (field "password");
            Some (Action.signMessage text password)
          else if String.eqb tag "signFields" then
            fields ← strs (field "fields");
            password ← str (field "password");
            Some (Action.signFields fields password)
          else Some (Action.unknown tag)
      | other => Some (Action.unknown (default "" (Js.to_string other)))
      end
  | _ => None
  end.

(** The [chrome.runtime.onMessage] listener on the wire: the object given
    to [sendResponse] and the state the worker is left in.  This is the
    listener that receives what the popup and the content script send
    with [chrome.runtime.sendMessage]. *)
Definition onMessage (host : Background.Host) (message : Js.value)
    (s : Background.State) : option (Js.value * Background.State) :=
  a ← action message;
  Some (response (Background.onMessage host a s).1,
        (Background.onMessage host a s).2).

(** The envelope [request] posts. *)
Definition envelope (id method : string) (params : Js.value) : Js.value :=
  Js.Object [("type", Js.Str "MINA_PROVIDER_REQUEST");
             ("id", Js.Str id);
             ("method", Js.Str method);
             ("params", Js.coalesce params (Js.Object []))].

Definition unknown_action : Js.value :=
  Js.Object [("success", Js.Boolean false); ("error", Js.Str "Unknown action")].

End Wire.

(* ===================================================================== *)
(** * The convenience methods of the provider ([inpage.ts])             *)
(* ===================================================================== *)

Module Provider.
Import Inpage.

Definition with_isConnected (pg : Page) (b : bool) : Page :=
  mkPage (events pg) (pendingRequests pg) b (clock pg) (timers pg)
         (nextPromise pg) (posted pg) (settled pg) (called pg).

(** The convenience methods of [MinaProvider], with their arguments. *)
Inductive Call : Type :=
| requestAccounts
| getAccounts
| getBalance (address : Js.value)
| getChainId
| sendPayment (params : Js.value)
| sendStakeDelegation (params : Js.value)
| signMessage (params : Js.value)
| signFields (params : Js.value).

Definition method (c : Call) : string :=
  match c with
  | requestAccounts => "mina_requestAccounts"
  | getAccounts => "mina_accounts"
  | getBalance _ => "mina_getBalance"
  | getChainId => "mina_chainId"
  | sendPayment _ => "mina_sendPayment"
  | sendStakeDelegation _ => "mina_sendStakeDelegation"
  | signMessage _ => "mina_signMessage"
  | signFields _ => "mina_signFields"
  end.

(** The [params] each method passes to [request]. *)
Definition params (c : Call) : Js.value :=
  match c with
  | requestAccounts | getAccounts | getChainId => Js.Undefined
  | getBalance address =>
      if Js.truthy address then Js.Array [address] else Js.Array []
  | sendPayment p | sendStakeDelegation p | signMessage p | signFields p =>
      Js.Array [p]
  end.

Section Continuations.
(** The message of a [TypeError] of the engine: [typeError k] for reading
    the property [k] of [undefined] or [null], and [typeError ""] for an
    object that cannot be converted to a string. *)
Variable typeError : string -> string.

(** [result.k] *)
Definition member (result : Js.value) (k : string) : Result Js.value :=
  if Js.nullish result then Throw (Js.Error (typeError k))
  else Ok (Js.get result k).

(** [if (result.error) { throw new Error(result.error); }] and then
    [rest]. *)
Definition unless_error (result : Js.value) (rest : Result Js.value)
  : Result Js.value :=
  match member result "error" with
  | Throw e => Throw e
  | Ok err =>
      if Js.truthy err then
        match Js.to_string err with
        | Some text => Throw (Js.Error text)
        | None => Throw (Js.Error (typeError ""))
        end
      else rest
  end.

Definition signed (result : Js.value) : Js.value :=
  Js.Object [("signature", Js.coalesce (Js.get result "signature") (Js.Str ""));
             ("publicKey", Js.coalesce (Js.get result "publicKey") (Js.Str ""))].

(** What a method does with the value its request resolved with: what it
    returns or throws, and the provider afterwards. *)
Definition continue (c : Call) (result : Js.value) (pg : Page)
  : Result Js.value * Page :=
  match c with
  | requestAccounts =>
      match
        unless_error result
          (Ok (Js.coalesce (Js.get result "accounts") (Js.Array [])))
      with
      | Ok accounts => (Ok accounts, with_isConnected pg true)
      | Throw e => (Throw e, pg)
      end
  | getAccounts =>
      (match member result "accounts" with
       | Ok accounts => Ok (Js.coalesce accounts (Js.Array []))
       | Throw e => Throw e
       end, pg)
  | getBalance _ =>
      (unless_error result
         (Ok (Js.coalesce (Js.get result "balance") (Js.Str "0"))), pg)
  | getChainId =>
      (match member result "chainId" with
       | Ok chainId => Ok (Js.coalesce chainId (Js.Str "unknown"))
       | Throw e => Throw e
       end, pg)
  | sendPayment _ | sendStakeDelegation _ =>
      (unless_error result
         (Ok (Js.Object
                [("hash", Js.coalesce (Js.get result "hash") (Js.Str ""))])),
       pg)
  | signMessage _ | signFields _ =>
      (unless_error result (Ok (signed result)), pg)
  end.

(** The method once the promise of its request is settled: a rejection
    passes through the [await]. *)
Definition settled_with (c : Call) (o : Settlement) (pg : Page)
  : Result Js.value * Page :=
  match o with
  | Resolved result => continue c result pg
  | Rejected e => (Throw e, pg)
  end.

End Continuations.

End Provider.

(* ===================================================================== *)
(** * The WASM loader ([lib/wasm.ts])                                   *)
(* ===================================================================== *)

Module Wasm.

(** The module-level variables of [lib/wasm.ts] and what the loader has
    done so far. *)
Record State : Type := mkState {
  wasmInitialized : bool;
  initPromise : option nat;     (* the promise of the load, by its number *)
  promises : nat;               (* promises of a load made so far *)
  fetches : nat;                (* calls of [fetch] that returned *)
  loading : option nat;         (* the load that has not finished yet *)
  rejected : list nat           (* the promises that were rejected *)
}.

Definition initial : State := mkState false None 0 0 None [].

(** What a call of [initWasm] awaits. *)
Inductive Awaited : Type :=
| Nothing               (* [if (wasmInitialized) return;] *)
| Load (promise : nat)  (* [await initPromise] *).

(** [initWasm()] up to its [await].  The body of the inner [async]
    function runs as far as [await fetch(wasmUrl)] before [initPromise]
    is assigned; [reached] tells whether it gets there, or a statement on
    the way ([chrome.runtime.getURL], the call of [fetch]) throws.  In
    the second case the [catch] runs at once, its [initPromise = null]
    comes before the assignment of the promise the function returns, and
    [initPromise] is left holding that rejected promise. *)
Definition initWasm (reached : bool) (s : State) : Awaited * State :=
  if wasmInitialized s then (Nothing, s)
  else
    match initPromise s with
    | Some p => (Load p, s)
    | None =>
        let p := promises s in
        if reached
        then (Load p,
              mkState (wasmInitialized s) (Some p) (S p) (S (fetches s))
                      (Some p) (rejected s))
        else (Load p,
              mkState (wasmInitialized s) (Some p) (S p) (fetches s)
                      (loading s) (p :: rejected s))
    end.

(** The load in flight comes to its end: [ok] when the fetch answered
    with [response.ok] and [init] resolved, otherwise the [catch], which
    runs after [initPromise] was assigned and clears it. *)
Definition finish (ok : bool) (s : State) : State :=
  match loading s with
  | None => s
  | Some p =>
      if ok
      then mkState true (initPromise s) (promises s) (fetches s) None
                   (rejected s)
      else mkState (wasmInitialized s) None (promises s) (fetches s) None
                   (p :: rejected s)
  end.

Inductive Event : Type :=
| InitWasm (reached : bool)
| Finish (ok : bool).

Definition step (s : State) (e : Event) : State :=
  match e with
  | InitWasm reached => (initWasm reached s).2
  | Finish ok => finish ok s
  end.

Definition run (s : State) (es : list Event) : State := fold_left step es s.

(** The loads that failed after their fetch, along a trace from [s]. *)
Fixpoint failures (s : State) (es : list Event) : nat :=
  match es with
  | [] => 0
  | e :: rest =>
      (match e, loading s with
       | Finish false, Some _ => 1
       | _, _ => 0
       end + failures (step s e) rest)%nat
  end.

(** [initPromise] holds a rejected promise and no load is in flight. *)
Definition stuck (s : State) : Prop :=
  wasmInitialized s = false /\ loading s = None
  /\ exists p, initPromise s = Some p /\ p ∈ rejected s.

(** The loader's variables agree with what is going on. *)
Definition coherent (s : State) : Prop :=
  (wasmInitialized s = true -> loading s = None)
  /\ (wasmInitialized s = false -> initPromise s = loading s \/ stuck s)
  /\ (forall p, loading s = Some p -> (p < promises s)%nat).

(** The loads that are in flight or have succeeded. *)
Definition live (s : State) : nat :=
  (match loading s with Some _ => 1 | None => 0 end
   + (if wasmInitialized s then 1 else 0))%nat.

End Wasm.

(* ===================================================================== *)
(** * The popup ([popup.ts])                                            *)
(* ===================================================================== *)

Module Popup.

(** The popup script over the part of its document that it writes.  As
    for the worker, a handler runs from its first statement to its last
    without another handler in between. *)

Inductive ViewName : Type := loading | locked | setup | main.

(** For each of the four view elements, whether its class list holds
    [hidden]. *)
Record Views : Type := mkViews {
  loadingView : bool;
  lockedView : bool;
  setupView : bool;
  mainView : bool
}.

(** The module variables of the script and the parts of the document it
    writes. *)
Record State : Type := mkState {
  views : Views;
  passwordInput_value : string;
  unlockButton_disabled : bool;
  unlockError_textContent : string;
  unlockError_hidden : bool;
  accountName_textContent : string;
  accountAddress_textContent : string;
  accountAddress_title : string;
  networkBadge_textContent : string;
  networkBadge_className : string;
  versionText_textContent : string;
  currentAccount : option Account.t;
  currentNetwork : option Network.t
}.

Definition with_views (p : State) (v : Views) : State :=
  mkState v (passwordInput_value p) (unlockButton_disabled p)
    (unlockError_textContent p) (unlockError_hidden p)
    (accountName_textContent p) (accountAddress_textContent p)
    (accountAddress_title p) (networkBadge_textContent p)
    (networkBadge_className p) (versionText_textContent p)
    (currentAccount p) (currentNetwork p).

Definition with_passwordInput_value (p : State) (s : string) : State :=
  mkState (views p) s (unlockButton_disabled p)
    (unlockError_textContent p) (unlockError_hidden p)
    (accountName_textContent p) (accountAddress_textContent p)
    (accountAddress_title p) (networkBadge_textContent p)
    (networkBadge_className p) (versionText_textContent p)
    (currentAccount p) (currentNetwork p).

Definition with_unlockButton_disabled (p : State) (b : bool) : State :=
  mkState (views p) (passwordInput_value p) b
    (unlockError_textContent p) (unlockError_hidden p)
    (accountName_textContent p) (accountAddress_textContent p)
    (accountAddress_title p) (networkBadge_textContent p)
    (networkBadge_className p) (versionText_textContent p)
    (currentAccount p) (currentNetwork p).

Definition with_unlockError (p : State) (text : string) (hidden : bool)
  : State :=
  mkState (views p) (passwordInput_value p) (unlockButton_disabled p)
    text hidden
    (accountName_textContent p) (accountAddress_textContent p)
    (accountAddress_title p) (networkBadge_textContent p)
    (networkBadge_className p) (versionText_textContent p)
    (currentAccount p) (currentNetwork p).

Definition with_account (p : State) (name address title : string) : State :=
  mkState (views p) (passwordInput_value p) (unlockButton_disabled p)
    (unlockError_textContent p) (unlockError_hidden p)
    name address title (networkBadge_textContent p)
    (networkBadge_className p) (versionText_textContent p)
    (currentAccount p) (currentNetwork p).

Definition with_networkBadge (p : State) (text className : string) : State :=
  mkState (views p) (passwordInput_value p) (unlockButton_disabled p)
    (unlockError_textContent p) (unlockError_hidden p)
    (accountName_textContent p) (accountAddress_textContent p)
    (accountAddress_title p) text className (versionText_textContent p)
    (currentAccount p) (currentNetwork p).

Definition with_versionText (p : State) (text : string) : State :=
  mkState (views p) (passwordInput_value p) (unlockButton_disabled p)
    (unlockError_textContent p) (unlockError_hidden p)
    (accountName_textContent p) (accountAddress_textContent p)
    (accountAddress_title p) (networkBadge_textContent p)
    (networkBadge_className p) text
    (currentAccount p) (currentNetwork p).

Definition with_currentAccount (p : State) (a : option Account.t) : State :=
  mkState (views p) (passwordInput_value p) (unlockButton_disabled p)
    (unlockError_textContent p) (unlockError_hidden p)
    (accountName_textContent p) (accountAddress_textContent p)
    (accountAddress_title p) (networkBadge_textContent p)
    (networkBadge_className p) (versionText_textContent p)
    a (currentNetwork p).

Definition with_currentNetwork (p : State) (n : option Network.t) : State :=
  mkState (views p) (passwordInput_value p) (unlockButton_disabled p)
    (unlockError_textContent p) (unlockError_hidden p)
    (accountName_textContent p) (accountAddress_textContent p)
    (accountAddress_title p) (networkBadge_textContent p)
    (networkBadge_className p) (versionText_textContent p)
    (currentAccount p) n.

(** [classList.add('hidden')] on all four, then [classList.remove] on the
    one to show.  (The focus given to the password field is not part of
    the state.) *)
Definition showView (view : ViewName) (p : State) : State :=
  with_views p
    match view with
    | loading => mkViews false true true true
    | locked => mkViews true false true true
    | setup => mkViews true true false true
    | main => mkViews true true true false
    end.

(** [s.slice(0, n)] and [s.slice(-n)] for a positive [n]. *)
Definition slice_to (n : nat) (s : string) : string := substring 0 n s.

Definition slice_last (n : nat) (s : string) : string :=
  substring (String.length s - n) n s.

Definition updateAccountDisplay (p : State) : State :=
  match currentAccount p with
  | None => p
  | Some account =>
      let addr := Account.address account in
      with_account p (Account.name account)
        (slice_to 8 addr +:+ "..." +:+ slice_last 6 addr) addr
  end.

Definition updateNetworkDisplay (p : State) : State :=
  match currentNetwork p with
  | None => p
  | Some network =>
      with_networkBadge p (Network.name network)
        ("network-badge " +:+ Network.id network)
  end.

Definition showError (message : string) (p : State) : State :=
  with_unlockError p message false.

Definition clearError (p : State) : State := with_unlockError p "" true.

(** ** The fields the script takes from a response

    [const { k } = response]: the field when the response object has it,
    [undefined] otherwise. *)
Definition field_hasWallet (r : Response.t) : bool :=
  match r with
  | Response.hasWallet b => b
  | _ => false
  end.

Definition field_isLocked (r : Response.t) : bool :=
  match r with
  | Response.isLocked b => b
  | _ => false
  end.

Definition field_success (r : Response.t) : bool :=
  match r with
  | Response.success | Response.success_account _ => true
  | _ => false
  end.

Definition field_error (r : Response.t) : option string :=
  match r with
  | Response.failure e => Some e
  | _ => None
  end.

Definition field_account (r : Response.t) : option Account.t :=
  match r with
  | Response.account o => o
  | Response.success_account a => Some a
  | _ => None
  end.

Definition field_network (r : Response.t) : option Network.t :=
  match r with
  | Response.network n => Some n
  | _ => None
  end.

Section Handlers.
(** Whatever answers the messages of the popup, and [sendMessage]: the
    answer to the message with the given number, or the error made from
    [chrome.runtime.lastError]. *)
Variable World : Type.
Variable sendMessage : nat -> Action.t -> World -> Result Response.t * World.

(** [loadWalletData], whose messages are numbers [n] and [n + 1]. *)
Definition loadWalletData (n : nat) (p : State) (w : World)
  : Result unit * State * World :=
  match sendMessage n Action.getActiveAccount w with
  | (Throw e, w) => (Throw e, p, w)
  | (Ok r, w) =>
      let p :=
        match field_account r with
        | Some account =>
            updateAccountDisplay (with_currentAccount p (Some account))
        | None => p
        end in
      match sendMessage (S n) Action.getNetwork w with
      | (Throw e, w) => (Throw e, p, w)
      | (Ok r, w) =>
          let p :=
            match field_network r with
            | Some network =>
                updateNetworkDisplay (with_currentNetwork p (Some network))
            | None => p
            end in
          (Ok tt, p, w)
      end
  end.

Definition initialize (version : string) (p : State) (w : World)
  : State * World :=
  let p := showView loading p in
  let p := with_versionText p ("v" +:+ version) in
  match sendMessage 0 Action.hasWallet w with
  | (Throw _, w) => (showView setup p, w)
  | (Ok r, w) =>
      if negb (field_hasWallet r) then (showView setup p, w)
      else
        match sendMessage 1 Action.isLocked w with
        | (Throw _, w) => (showView setup p, w)
        | (Ok r, w) =>
            if field_isLocked r then (showView locked p, w)
            else
              match loadWalletData 2 p w with
              | (Throw _, p, w) => (showView setup p, w)
              | (Ok _, p, w) => (showView main p, w)
              end
        end
  end.

Definition handleUnlock (p : State) (w : World) : State * World :=
  let password := passwordInput_value p in
  if String.eqb password "" then
    (showError "Please enter your password" p, w)
  else
    let p := clearError p in
    let p := with_unlockButton_disabled p true in
    let (p, w) :=
      match sendMessage 0 (Action.unlockWallet password) w with
      | (Throw err, w) => (showError (Js.message_of err) p, w)
      | (Ok r, w) =>
          if field_success r then
            let p := with_passwordInput_value p "" in
            match loadWalletData 1 p w with
            | (Throw err, p, w) => (showError (Js.message_of err) p, w)
            | (Ok _, p, w) => (showView main p, w)
            end
          else
            (showError (default "Failed to unlock wallet" (field_error r)) p,
             w)
      end in
    (with_unlockButton_disabled p false, w).

Definition handleLock (p : State) (w : World) : State * World :=
  match sendMessage 0 Action.lockWallet w with
  | (Throw _, w) => (p, w)
  | (Ok _, w) => (showView locked p, w)
  end.

End Handlers.

(** The messages of the popup answered by the background worker, message
    [n] of a handler at the time [hosts n]. *)
Definition worker (hosts : nat -> Background.Host) (n : nat)
    (message : Action.t) (s : Background.State)
  : Result Response.t * Background.State :=
  (Ok (Background.onMessage (hosts n) message s).1,
   (Background.onMessage (hosts n) message s).2).

(** The views that are shown. *)
Definition visible (p : State) : list ViewName :=
  (if loadingView (views p) then [] else [loading])
  ++ (if lockedView (views p) then [] else [locked])
  ++ (if setupView (views p) then [] else [setup])
  ++ (if mainView (views p) then [] else [main]).

(** The session and what the store holds besides the activity stamp. *)
Definition same_session (s s' : Background.State) : Prop :=
  Background.isUnlocked s' = Background.isUnlocked s
  /\ Background._decryptedMnemonic s' = Background._decryptedMnemonic s
  /\ mina_wallet_encrypted (Background.storage s')
     = mina_wallet_encrypted (Background.storage s)
  /\ mina_active_network (Background.storage s')
     = mina_active_network (Background.storage s)
  /\ mina_connected_sites (Background.storage s')
     = mina_connected_sites (Background.storage s).

(** What [getActiveAccount] and [getActiveNetwork] return over a store
    (for the network: over a store where [Storage.plain_network]
    holds). *)
Definition active_account (st : Store) : option Account.t :=
  match (Accounts.getActiveAccount st).1 with
  | Ok account => account
  | Throw _ => None
  end.

Definition active_network (st : Store) : Network.t :=
  match (Storage.getActiveNetwork st).1 with
  | Ok network => network
  | Throw _ => mainnet
  end.

(** The address as the main view shows it. *)
Definition shortened (addr : string) : string :=
  slice_to 8 addr +:+ "..." +:+ slice_last 6 addr.

End Popup.

(* ===================================================================== *)
(** * Further sample inputs                                             *)
(* ===================================================================== *)

Module Scenario.

(** The store of an unlocked worker with one connected site. *)
Definition store_with_site : Store :=
  Background.storage Sample.unlocked_with_site.

(** A page of the connected origin. *)
Definition app_page : Background.MessageSender :=
  Background.mkSender (Some "https://app.example") None.

Definition no_wallet : EncryptedWallet.t :=
  EncryptedWallet.Build "" "" "" [] 0.

Definition two_account_wallet : EncryptedWallet.t :=
  default no_wallet (mina_wallet_encrypted Sample.two_account_store).

Definition hex_key : string :=
  "0000000000000000000000000000000000000000000000000000000000000000".

(** A fresh wallet into which the hex key was imported. *)
Definition imported_store : Store :=
  Accounts.perform_all Sample.keypairFromSecretKeyHex Sample.keypairFromBase58
    Sample.fresh_wallet_store [Accounts.OpImportAccount hex_key (Some "Cold")].

Definition imported_wallet : EncryptedWallet.t :=
  default no_wallet (mina_wallet_encrypted imported_store).

(** A wallet, a second account, a renaming, and the first account
    selected again. *)
Definition selections : list Accounts.Op :=
  [Accounts.OpCreateWallet (Ok Sample.keypair) Sample.mnemonic "correct horse";
   Accounts.OpCreateAccount (Ok Sample.second_keypair) None;
   Accounts.OpRename 1 "Savings";
   Accounts.OpSetActive 0].

Definition selected_wallet : EncryptedWallet.t :=
  default no_wallet
    (mina_wallet_encrypted
       (Accounts.perform_all Sample.keypairFromSecretKeyHex
          Sample.keypairFromBase58 empty_store selections)).

Definition ready : Js.value :=
  Js.Object [("type", Js.Str "MINA_PROVIDER_READY")].

(** A response envelope whose [error] is an object with an own property
    [toString]. *)
Definition unprintable_error (id : string) : Js.value :=
  Js.Object [("type", Js.Str "MINA_PROVIDER_RESPONSE");
             ("id", Js.Str id);
             ("error", Js.Object [("toString", Js.Number 1)])].

(** The prelude, then a request whose [params] cannot be posted. *)
Definition unposted : list Inpage.Event :=
  (Sample.prelude
   ++ [Inpage.RequestRefused "uuid-5" (Js.Error "DataCloneError")])%list.

(** It answers the request [uuid-2] after a second and a half; then the
    timeout passes. *)
Definition unprintable : list Inpage.Event :=
  [Inpage.Elapse 1500;
   Inpage.WindowMessage true (unprintable_error "uuid-2");
   Inpage.Elapse 60000].

(** Two callbacks registered for ['ready'], one of them twice, and one
    removed that was never registered. *)
Definition listening : list Inpage.Event :=
  [Inpage.On "ready" 7%nat;
   Inpage.On "ready" 9%nat;
   Inpage.On "ready" 7%nat;
   Inpage.Off "ready" 3%nat;
   Inpage.Request "uuid-1" "mina_chainId" Js.Undefined].

(** Two calls, a failed load, a retry that succeeds. *)
Definition loads : list Wasm.Event :=
  [Wasm.InitWasm true; Wasm.InitWasm true; Wasm.Finish false;
   Wasm.InitWasm true; Wasm.Finish true].

(** A first call whose body throws before the fetch, then calls that
    would reach it. *)
Definition thrown : list Wasm.Event :=
  [Wasm.InitWasm false; Wasm.InitWasm true; Wasm.Finish true;
   Wasm.InitWasm true].

(** A popup showing the loading view, a password typed in. *)
Definition popup : Popup.State :=
  Popup.mkState (Popup.mkViews false true true true) "hunter2" false
    "" true "" "" "" "" "" "" None None.

Definition hosts (n : nat) : Background.Host := Sample.host.

End Scenario.


(* ===================================================================== *)
(** * Proof automation                                                    *)
(* ===================================================================== *)

Ltac unfold_M :=
  unfold M.bind, M.try_catch, M.ret, M.gets, M.modify, M.throw, M.await in *.

Ltac unfold_storage :=
  unfold Storage.hasWallet, Storage.getActiveNetwork, Storage.setActiveNetwork,
    Storage.addConnectedSite, Storage.removeConnectedSite,
    Storage.isSiteConnected, Storage.getConnectedSites,
    Storage.setConnectedSites, Storage.updateLastActivity,
    Storage.getEncryptedWallet, Storage.setEncryptedWallet in *.

Ltac unfold_accounts :=
  unfold Accounts.createAccount, Accounts.createAccount_read,
    Accounts.createAccount_write, Accounts.getAccounts,
    Accounts.getActiveAccount, Accounts.setActiveAccount,
    Accounts.renameAccount, Accounts.deleteAccount,
    Accounts.importWalletFromMnemonic, Accounts.createWalletFromMnemonic,
    Accounts.importAccountFromPrivateKey in *.

Ltac unfold_worker :=
  unfold Background.onMessage, Background.handleMessage,
    Background.onMessageExternal, Background.handleExternalMessage,
    Background.sender_origin,
    Background.onStartup, Background.start, Background.touched,
    Background.lift, Background.set_isUnlocked,
    Background.set_decryptedMnemonic in *.

(** Case analysis on the innermost scrutinee of the goal. *)
Ltac case_inner :=
  match goal with
  | |- context [match ?x with _ => _ end] =>
      lazymatch x with
      | context [match _ with _ => _ end] => fail
      | _ => destruct x eqn:?; cbn in *
      end
  end.

Ltac run_worker :=
  unfold_worker; unfold_accounts; unfold_storage; unfold_M; cbn in *.

(* ===================================================================== *)
(** * Properties of the session state machine                             *)
(* ===================================================================== *)

Module BackgroundFacts.
Import Background.

(** ** Unlocking *)

(** Without a wallet, [unlockWallet] fails and leaves the session as it
    was. *)
Lemma unlockWallet_without_wallet host password s :
  mina_wallet_encrypted (storage s) = None ->
  onMessage host (Action.unlockWallet password) s
  = (Response.failure "No wallet found", touched (now host) s).
Proof.
  intros Hw. destruct s as [u m [w n c a]]. cbn in Hw. subst w.
  reflexivity.
Qed.

(** With a wallet, [unlockWallet] succeeds whatever the password is, and
    only sets the flag. *)
Lemma unlockWallet_with_wallet host password s wallet :
  mina_wallet_encrypted (storage s) = Some wallet ->
  onMessage host (Action.unlockWallet password) s
  = (Response.success,
     mkState true (_decryptedMnemonic s) (storage (touched (now host) s))).
Proof.
  intros Hw. destruct s as [u m [w n c a]]. cbn in Hw. subst w.
  reflexivity.
Qed.

(** C1 (the code departs from it). [unlockWallet] never looks at the
    password: two unlock requests that differ only in the password have
    the same outcome, and on a wallet created under one password and then
    locked, an unlock request carrying another password answers
    [{ success: true }], sets [isUnlocked], and loads no mnemonic. *)
Theorem unlockWallet_ignores_password :
  (forall host p q s,
      onMessage host (Action.unlockWallet p) s
      = onMessage host (Action.unlockWallet q) s)
  /\ isUnlocked Sample.locked_with_wallet = false
  /\ (exists wallet,
         mina_wallet_encrypted (storage Sample.locked_with_wallet)
         = Some wallet)
  /\ (onMessage Sample.host (Action.unlockWallet "wrong password")
        Sample.locked_with_wallet).1 = Response.success
  /\ isUnlocked
       (onMessage Sample.host (Action.unlockWallet "wrong password")
          Sample.locked_with_wallet).2 = true
  /\ _decryptedMnemonic
       (onMessage Sample.host (Action.unlockWallet "wrong password")
          Sample.locked_with_wallet).2 = None.
Proof.
  split; [reflexivity|].
  split; [reflexivity|].
  split; [eexists; reflexivity|].
  repeat split.
Qed.

(** ** The session invariant *)

Lemma start_locked_holds_no_key st : locked_holds_no_key (start st).
Proof. intros _. reflexivity. Qed.

Lemma step_locked_holds_no_key s e :
  locked_holds_no_key s -> locked_holds_no_key (step s e).
Proof.
  unfold locked_holds_no_key. intros Hs.
  destruct s as [u m st].
  destruct e as [host message | action origin | | ]; cbn [step].
  - destruct message; run_worker; repeat case_inner; cbn;
      auto; discriminate.
  - run_worker; repeat case_inner; cbn; auto.
  - cbn. auto.
  - cbn. auto.
Qed.

Lemma run_locked_holds_no_key events : forall s,
  locked_holds_no_key s -> locked_holds_no_key (run s events).
Proof.
  induction events as [|e events IH]; intros s Hs; cbn.
  - exact Hs.
  - apply IH, step_locked_holds_no_key, Hs.
Qed.

(** C2. In every reachable state of the worker a locked session holds no
    decrypted mnemonic; every event preserves this; and [lockWallet], the
    [onStartup] listener and a restart of the worker each leave the flag
    false and the mnemonic cleared in one step. *)
Theorem locked_session_holds_no_key :
  (forall s, reachable s -> isUnlocked s = false -> _decryptedMnemonic s = None)
  /\ (forall s e, locked_holds_no_key s -> locked_holds_no_key (step s e))
  /\ (forall host s,
        isUnlocked (onMessage host Action.lockWallet s).2 = false
        /\ _decryptedMnemonic (onMessage host Action.lockWallet s).2 = None)
  /\ (forall s,
        isUnlocked (step s Startup) = false
        /\ _decryptedMnemonic (step s Startup) = None)
  /\ (forall s,
        isUnlocked (step s Restart) = false
        /\ _decryptedMnemonic (step s Restart) = None).
Proof.
  split; [|split; [|split; [|split]]].
  - intros s (st & events & ->).
    apply run_locked_holds_no_key, start_locked_holds_no_key.
  - exact step_locked_holds_no_key.
  - intros host [u m st]. split; reflexivity.
  - intros s. split; reflexivity.
  - intros s. split; reflexivity.
Qed.

Lemma locked_session_holds_no_key_witness :
  reachable Sample.locked_with_wallet
  /\ isUnlocked Sample.locked_with_wallet = false
  /\ _decryptedMnemonic Sample.locked_with_wallet = None.
Proof.
  assert (Hr : reachable Sample.locked_with_wallet)
    by (eexists _, _; reflexivity).
  split; [exact Hr|]. split; [reflexivity|].
  exact (proj1 locked_session_holds_no_key _ Hr eq_refl).
Defined.

(** ** Operations gated on the unlocked session *)

(** C3, as the claim is stated, fails: asked to sign while locked, the
    worker answers "Not implemented", which is not the lock error. *)
Lemma signMessage_when_locked_is_not_a_lock_error :
  isUnlocked Sample.locked_with_wallet = false
  /\ (onMessage Sample.host (Action.signMessage "hello" "pw")
        Sample.locked_with_wallet).1 = Response.failure "Not implemented"
  /\ (onMessage Sample.host (Action.signMessage "hello" "pw")
        Sample.locked_with_wallet).1 <> Response.failure "Wallet is locked".
Proof. split; [reflexivity|]. split; [reflexivity|]. discriminate. Qed.

(** C3 (amended). While the session is locked, account creation,
    site-connection approval and private-key export each answer
    [{ success: false, error: 'Wallet is locked' }] and change nothing but
    the activity timestamp; the transaction and message/field signing
    actions are placeholders that answer
    [{ success: false, error: 'Not implemented' }] in every session state,
    again changing nothing but the activity timestamp. *)
Theorem gated_actions_when_locked :
  forall host mnemonic st,
    let s := mkState false mnemonic st in
    (forall name,
        onMessage host (Action.createAccount name) s
        = (Response.failure "Wallet is locked", touched (now host) s))
    /\ (forall origin name,
          onMessage host (Action.connectSite origin name) s
          = (Response.failure "Wallet is locked", touched (now host) s))
    /\ (forall index password,
          onMessage host (Action.exportPrivateKey index password) s
          = (Response.failure "Wallet is locked", touched (now host) s))
    /\ (forall s' payload password,
          onMessage host (Action.sendPayment payload password) s'
          = (Response.failure "Not implemented", touched (now host) s')
          /\ onMessage host (Action.sendDelegation payload password) s'
             = (Response.failure "Not implemented", touched (now host) s'))
    /\ (forall s' message fields password,
          onMessage host (Action.signMessage message password) s'
          = (Response.failure "Not implemented", touched (now host) s')
          /\ onMessage host (Action.signFields fields password) s'
             = (Response.failure "Not implemented", touched (now host) s')).
Proof.
  intros host mnemonic st s. subst s.
  repeat split; intros; reflexivity.
Qed.

(** ** The external dispatcher *)

Lemma existsb_origin_false origin (sites : list ConnectedSite.t) :
  origin ∉ ConnectedSite.origin <$> sites ->
  existsb (fun s => String.eqb (ConnectedSite.origin s) origin) sites = false.
Proof.
  induction sites as [|site sites IH]; intros Hnot; cbn; [reflexivity|].
  rewrite fmap_cons, not_elem_of_cons in Hnot. destruct Hnot as [Hne Hrest].
  rewrite IH by exact Hrest.
  destruct (String.eqb_spec (ConnectedSite.origin site) origin); [|reflexivity].
  congruence.
Qed.

(** The dispatcher itself, for any origin string. *)
Lemma requestAccounts_unconnected origin s :
  origin ∉ connected_origins s ->
  handleExternalMessage "mina_requestAccounts" origin s
  = (Ok (External.error "User rejected connection"), s).
Proof.
  intros Hnot. destruct s as [u m [w n c a]].
  unfold connected_origins in Hnot. cbn in Hnot.
  run_worker. rewrite existsb_origin_false by exact Hnot. reflexivity.
Qed.

Lemma accounts_unconnected origin s :
  origin ∉ connected_origins s ->
  handleExternalMessage "mina_accounts" origin s
  = (Ok (External.accounts []), s).
Proof.
  intros Hnot. destruct s as [u m [w n c a]].
  unfold connected_origins in Hnot. cbn in Hnot.
  run_worker. rewrite existsb_origin_false by exact Hnot. reflexivity.
Qed.

(** C4. For an origin without a [ConnectedSite] entry,
    [mina_requestAccounts] answers [{ error: 'User rejected connection' }]
    in every session state: no account list is returned and nothing is
    stored, so the origin is not connected by the request. *)
Theorem requestAccounts_unconnected_is_rejected sender s :
  sender_origin sender ∉ connected_origins s ->
  onMessageExternal "mina_requestAccounts" sender s
  = (External.error "User rejected connection", s).
Proof.
  intros Hnot. unfold onMessageExternal.
  rewrite requestAccounts_unconnected by exact Hnot. reflexivity.
Qed.

Lemma requestAccounts_unconnected_is_rejected_witness :
  (sender_origin Sample.stranger ∉ connected_origins Sample.unlocked_with_site)
  /\ onMessageExternal "mina_requestAccounts" Sample.stranger
       Sample.unlocked_with_site
     = (External.error "User rejected connection", Sample.unlocked_with_site).
Proof.
  assert (H : sender_origin Sample.stranger
              ∉ connected_origins Sample.unlocked_with_site).
  { unfold connected_origins. cbn. rewrite list_elem_of_singleton. discriminate. }
  split; [exact H|].
  exact (requestAccounts_unconnected_is_rejected _ _ H).
Defined.

(** C5. For an origin without a [ConnectedSite] entry, [mina_accounts]
    answers [{ accounts: [] }] in every session state, never an error
    object, and changes nothing. *)
Theorem accounts_unconnected_is_empty sender s :
  sender_origin sender ∉ connected_origins s ->
  onMessageExternal "mina_accounts" sender s = (External.accounts [], s).
Proof.
  intros Hnot. unfold onMessageExternal.
  rewrite accounts_unconnected by exact Hnot. reflexivity.
Qed.

Lemma accounts_unconnected_is_empty_witness :
  (sender_origin Sample.stranger ∉ connected_origins Sample.unlocked_with_site)
  /\ onMessageExternal "mina_accounts" Sample.stranger
       Sample.unlocked_with_site
     = (External.accounts [], Sample.unlocked_with_site).
Proof.
  assert (H : sender_origin Sample.stranger
              ∉ connected_origins Sample.unlocked_with_site).
  { unfold connected_origins. cbn. rewrite list_elem_of_singleton. discriminate. }
  split; [exact H|].
  exact (accounts_unconnected_is_empty _ _ H).
Defined.

End BackgroundFacts.

(* ===================================================================== *)
(** * Properties of account management                                    *)
(* ===================================================================== *)

Module AccountsFacts.
Import Accounts.

(** ** The next index *)

Lemma fold_max_bounds (l : list Account.t) : forall m,
  m <= fold_left (fun max a => Z.max max (Account.index a)) l m
  /\ Forall (fun a => Account.index a
                      <= fold_left (fun max a => Z.max max (Account.index a)) l m) l.
Proof.
  induction l as [|a l IH]; intros m; cbn.
  - split; [lia | constructor].
  - destruct (IH (Z.max m (Account.index a))) as [Hm Hl].
    split; [lia|]. constructor; [lia | exact Hl].
Qed.

Lemma maxIndex_upper accounts j :
  j ∈ Account.index <$> accounts -> j <= maxIndex accounts.
Proof.
  intros Hin. apply list_elem_of_fmap in Hin as (a & -> & Ha).
  destruct (fold_max_bounds accounts (-1)) as [_ Hall].
  rewrite Forall_forall in Hall. apply Hall, Ha.
Qed.

Lemma next_index_above wallet j :
  j ∈ indices wallet -> j < maxIndex (EncryptedWallet.accounts wallet) + 1.
Proof. intros Hin. apply maxIndex_upper in Hin. lia. Qed.

Lemma next_index_fresh wallet :
  maxIndex (EncryptedWallet.accounts wallet) + 1 ∉ indices wallet.
Proof. intros Hin. apply next_index_above in Hin. lia. Qed.



(** What an account-adding operation does when it succeeds. *)
Lemma adds_account_success hex b58 op st a st' :
  adds_account op = true ->
  perform hex b58 op st = (Ok (Some a), st') ->
  exists wallet,
    mina_wallet_encrypted st = Some wallet
    /\ Account.index a = maxIndex (EncryptedWallet.accounts wallet) + 1
    /\ st' = store_wallet st (pushed wallet a).
Proof.
  intros Hadd Hrun.
  destruct st as [w n c t].
  destruct op; try discriminate Hadd; clear Hadd.
  - unfold perform in Hrun. unfold_accounts. unfold_storage. unfold_M.
    cbn in Hrun. destruct w as [wallet|]; [|discriminate].
    destruct generated as [kp|e]; cbn in Hrun; [|discriminate].
    inversion Hrun; subst; clear Hrun.
    exists wallet. repeat split.
  - unfold perform in Hrun. unfold_accounts. unfold_storage. unfold_M.
    cbn in Hrun. destruct w as [wallet|]; [|discriminate].
    destruct (String.length privateKey =? 64)%nat;
      [destruct (hex privateKey) as [kp|e] | destruct (b58 privateKey) as [kp|e]];
      cbn in Hrun; try discriminate;
      (destruct (find _ _); [discriminate|]);
      inversion Hrun; subst; clear Hrun;
      exists wallet; repeat split.
Qed.

(** An operation that fails leaves the store as it found it. *)
Lemma adds_account_failure hex b58 op st r st' :
  adds_account op = true ->
  perform hex b58 op st = (r, st') ->
  (forall a, r <> Ok (Some a)) ->
  st' = st.
Proof.
  intros Hadd Hrun Hfail.
  destruct st as [w n c t].
  destruct op; try discriminate Hadd; clear Hadd.
  - unfold perform in Hrun. unfold_accounts. unfold_storage. unfold_M.
    cbn in Hrun. destruct w as [wallet|]; [|congruence].
    destruct generated as [kp|e]; cbn in Hrun; [|congruence].
    inversion Hrun; subst. exfalso. eapply Hfail. reflexivity.
  - unfold perform in Hrun. unfold_accounts. unfold_storage. unfold_M.
    cbn in Hrun. destruct w as [wallet|]; [|congruence].
    destruct (String.length privateKey =? 64)%nat;
      [destruct (hex privateKey) as [kp|e] | destruct (b58 privateKey) as [kp|e]];
      cbn in Hrun; try congruence;
      (destruct (find _ _); [congruence|]);
      inversion Hrun; subst; exfalso; eapply Hfail; reflexivity.
Qed.

Lemma stored_indices_pushed st wallet a :
  mina_wallet_encrypted st = Some wallet ->
  stored_indices (store_wallet st (pushed wallet a))
  = (stored_indices st ++ [Account.index a])%list.
Proof.
  intros Hw. unfold stored_indices, indices. rewrite Hw. cbn.
  rewrite fmap_app. reflexivity.
Qed.

Section Creation.
Variable hex b58 : string -> Result Keypair.t.

Lemma assigned_cons st op rest :
  assigned hex b58 st (op :: rest)
  = match perform hex b58 op st with
    | (Ok (Some a), st') => Account.index a :: assigned hex b58 st' rest
    | (_, st') => assigned hex b58 st' rest
    end.
Proof. reflexivity. Qed.

Lemma creation_run ops : forall st,
  Forall (fun op => adds_account op = true) ops ->
  NoDup (stored_indices st) ->
  stored_indices (perform_all hex b58 st ops)
  = (stored_indices st ++ assigned hex b58 st ops)%list
  /\ Forall (fun i => forall j, j ∈ stored_indices st -> j < i)
             (assigned hex b58 st ops)
  /\ StronglySorted Z.lt (assigned hex b58 st ops)
  /\ NoDup (stored_indices (perform_all hex b58 st ops)).
Proof.
  induction ops as [|op rest IH]; intros st Hops Hnodup.
  - cbn. rewrite app_nil_r. repeat split; [constructor | constructor | exact Hnodup].
  - apply Forall_cons in Hops as [Hop Hrest].
    rewrite assigned_cons. cbn [perform_all fold_left].
    destruct (perform hex b58 op st) as [r st1] eqn:Hrun. cbn [snd].
    assert (Hfail : (forall a, r <> Ok (Some a)) -> st1 = st)
      by (eapply adds_account_failure; eassumption).
    destruct r as [[a|]|e];
      [| rewrite Hfail by discriminate; apply IH; assumption
       | rewrite Hfail by discriminate; apply IH; assumption].
    clear Hfail.
    destruct (adds_account_success _ _ _ _ _ _ Hop Hrun)
      as (wallet & Hw & Hidx & ->).
    pose proof (stored_indices_pushed st wallet a Hw) as Hst1.
    assert (Habove : forall j, j ∈ stored_indices st -> j < Account.index a).
    { intros j Hj. rewrite Hidx. apply next_index_above.
      unfold stored_indices in Hj. rewrite Hw in Hj. exact Hj. }
    assert (Hnodup1 : NoDup (stored_indices (store_wallet st (pushed wallet a)))).
    { rewrite Hst1. apply NoDup_app. split; [exact Hnodup|]. split.
      - intros j Hj Hja. apply list_elem_of_singleton in Hja. subst j.
        apply Habove in Hj. lia.
      - apply NoDup_singleton. }
    destruct (IH _ Hrest Hnodup1) as (Heq & Hall & Hsorted & Hnd).
    fold (perform_all hex b58 (store_wallet st (pushed wallet a)) rest).
    rewrite Hst1 in Heq, Hall.
    split; [rewrite Heq, <- app_assoc; reflexivity|].
    split; [|split; [|exact Hnd]].
    + constructor; [exact Habove|].
      eapply Forall_impl; [exact Hall|].
      intros i Hi j Hj. apply Hi, elem_of_app. left. exact Hj.
    + constructor; [exact Hsorted|].
      eapply List.Forall_impl; [|exact Hall].
      intros i Hi. apply Hi, elem_of_app. right. apply list_elem_of_singleton. reflexivity.
Qed.
End Creation.

(** ** Deleting an account *)


Lemma findIndex_None i accounts :
  findIndex i accounts = None <-> i ∉ Account.index <$> accounts.
Proof.
  unfold findIndex. rewrite fmap_None, list_find_None, Forall_forall.
  split.
  - intros Hall Hin. apply list_elem_of_fmap in Hin as (a & -> & Ha).
    exact (Hall a Ha eq_refl).
  - intros Hnot a Ha Heq. apply Hnot, list_elem_of_fmap. eauto.
Qed.

Lemma findIndex_Some i accounts k :
  findIndex i accounts = Some k ->
  (Account.index <$> accounts) !! k = Some i
  /\ forall j, (j < k)%nat -> (Account.index <$> accounts) !! j <> Some i.
Proof.
  unfold findIndex. intros Hfind.
  apply fmap_Some in Hfind as ([k' a] & Hfind & ->). cbn.
  apply list_find_Some in Hfind as (Hk & Hi & Hfirst).
  split; [rewrite list_lookup_fmap, Hk; cbn; congruence|].
  intros j Hj Hlook. rewrite list_lookup_fmap in Hlook.
  destruct (accounts !! j) as [b|] eqn:Hb; [|discriminate].
  cbn in Hlook. injection Hlook as Hbi. exact (Hfirst j b Hb Hj Hbi).
Qed.

Lemma deleteAccount_run i st :
  deleteAccount i st =
  match mina_wallet_encrypted st with
  | None => (Throw (Js.Error "No wallet found"), st)
  | Some wallet =>
      if Nat.leb (length (EncryptedWallet.accounts wallet)) 1
      then (Throw (Js.Error "Cannot delete the last account"), st)
      else
        match findIndex i (EncryptedWallet.accounts wallet) with
        | None =>
            (Throw (Js.Error ("Account " +:+ pretty i +:+ " not found")), st)
        | Some k => (Ok tt, store_wallet st (deleted i k wallet))
        end
  end.
Proof.
  destruct st as [w n c t]. unfold deleteAccount.
  unfold_storage. unfold_M. cbn.
  destruct w as [wallet|]; [|reflexivity].
  destruct (Nat.leb_spec (length (EncryptedWallet.accounts wallet)) 1) as [|Hlen];
    [reflexivity|].
  destruct (findIndex i (EncryptedWallet.accounts wallet)) as [k|] eqn:Hk;
    [|reflexivity].
  unfold deleted, store_wallet. cbn.
  destruct (EncryptedWallet.activeAccountIndex wallet =? i)%Z; [|reflexivity].
  destruct (head (delete k (EncryptedWallet.accounts wallet))) as [first|] eqn:Hhead;
    [reflexivity|].
  exfalso. apply head_None in Hhead.
  apply (f_equal length) in Hhead.
  apply findIndex_Some in Hk as [Hk _].
  apply lookup_lt_Some in Hk. rewrite length_fmap in Hk.
  rewrite length_delete in Hhead by (apply lookup_lt_is_Some_2; exact Hk).
  cbn in Hhead. lia.
Qed.

Lemma elem_of_delete_other {A} (l : list A) k x y :
  l !! k = Some y -> x <> y -> x ∈ l -> x ∈ delete k l.
Proof.
  revert k. induction l as [|z l IH]; intros k Hk Hne Hin; [inversion Hin|].
  destruct k as [|k]; cbn in *.
  - injection Hk as ->. apply elem_of_cons in Hin as [->|Hin]; [congruence|exact Hin].
  - apply elem_of_cons in Hin as [->|Hin]; [left|right; eapply IH; eassumption].
Qed.

Lemma deleted_ok i k wallet :
  (1 < length (EncryptedWallet.accounts wallet))%nat ->
  findIndex i (EncryptedWallet.accounts wallet) = Some k ->
  EncryptedWallet.accounts (deleted i k wallet) <> []
  /\ (active_present wallet -> active_present (deleted i k wallet))
  /\ (EncryptedWallet.activeAccountIndex wallet = i ->
       exists first,
         head (EncryptedWallet.accounts (deleted i k wallet)) = Some first
         /\ EncryptedWallet.activeAccountIndex (deleted i k wallet)
            = Account.index first)
  /\ (EncryptedWallet.activeAccountIndex wallet <> i ->
       EncryptedWallet.activeAccountIndex (deleted i k wallet)
       = EncryptedWallet.activeAccountIndex wallet)
  /\ (NoDup (indices wallet) -> NoDup (indices (deleted i k wallet))).
Proof.
  intros Hlen Hk. apply findIndex_Some in Hk as [Hk _].
  assert (Hklt : (k < length (EncryptedWallet.accounts wallet))%nat).
  { apply lookup_lt_Some in Hk. rewrite length_fmap in Hk. exact Hk. }
  assert (Hrem : delete k (EncryptedWallet.accounts wallet) <> []).
  { intros Hnil. apply (f_equal length) in Hnil.
    rewrite length_delete in Hnil by (apply lookup_lt_is_Some_2; exact Hklt).
    cbn in Hnil. lia. }
  destruct (delete k (EncryptedWallet.accounts wallet)) as [|first rest] eqn:Hdel;
    [congruence|].
  unfold deleted, active_present, indices. cbn. rewrite Hdel. cbn.
  split; [discriminate|].
  split; [|split; [|split]].
  - intros Hact.
    destruct (Z.eqb_spec (EncryptedWallet.activeAccountIndex wallet) i) as [|Hne].
    + left.
    + change (EncryptedWallet.activeAccountIndex wallet
              ∈ Account.index <$> first :: rest).
      rewrite <- Hdel, list_fmap_delete.
      eapply elem_of_delete_other; eassumption.
  - intros ->. rewrite Z.eqb_refl. eauto.
  - intros Hne. apply Z.eqb_neq in Hne. rewrite Hne. reflexivity.
  - intros Hnd.
    change (NoDup (Account.index <$> first :: rest)).
    rewrite <- Hdel, list_fmap_delete.
    eapply sublist_NoDup; [exact Hnd | apply sublist_delete].
Qed.

(** ** Every operation keeps the wallet record sound *)

Lemma find_index_present i (accounts : list Account.t) a :
  find (fun a => Z.eqb (Account.index a) i) accounts = Some a ->
  i ∈ Account.index <$> accounts.
Proof.
  intros Hfind. apply find_some in Hfind as [Hin Heq].
  apply Z.eqb_eq in Heq. subst i.
  apply list_elem_of_fmap. exists a. split; [reflexivity|].
  apply list_elem_of_In, Hin.
Qed.

Lemma rename_first_indices i n accounts :
  Account.index <$> rename_first i n accounts = Account.index <$> accounts.
Proof.
  induction accounts as [|a l IH]; cbn; [reflexivity|].
  destruct (Account.index a =? i)%Z; cbn; [reflexivity|].
  f_equal. exact IH.
Qed.

Lemma rename_first_nil i n accounts :
  rename_first i n accounts = [] -> accounts = [].
Proof.
  destruct accounts as [|a l]; cbn; [reflexivity|].
  destruct (Account.index a =? i)%Z; discriminate.
Qed.

Lemma pushed_ok wallet a :
  Account.index a = maxIndex (EncryptedWallet.accounts wallet) + 1 ->
  NoDup (indices wallet) ->
  wallet_ok (pushed wallet a).
Proof.
  intros Hidx Hnd. unfold wallet_ok, active_present, indices, pushed. cbn.
  rewrite fmap_app. cbn.
  split; [intros Hnil; apply app_eq_nil in Hnil as [_ Hnil]; discriminate|].
  split; [apply elem_of_app; right; left|].
  apply NoDup_app. split; [exact Hnd|]. split; [|apply NoDup_singleton].
  intros j Hj Hja. apply list_elem_of_singleton in Hja. subst j.
  rewrite Hidx in Hj. exact (next_index_fresh wallet Hj).
Qed.

Lemma store_ok_store_wallet st w :
  wallet_ok w -> store_ok (store_wallet st w).
Proof. intros Hw w' Heq. cbn in Heq. injection Heq as <-. exact Hw. Qed.

Lemma perform_store_ok hex b58 op st :
  store_ok st -> store_ok (perform hex b58 op st).2.
Proof.
  intros Hok.
  destruct (adds_account op) eqn:Hadd.
  { destruct (perform hex b58 op st) as [r st'] eqn:Hrun. cbn [snd].
    destruct r as [[a|]|e].
    - destruct (adds_account_success _ _ _ _ _ _ Hadd Hrun) as (w & Hw & Hidx & ->).
      apply store_ok_store_wallet, pushed_ok; [exact Hidx|].
      apply (Hok w Hw).
    - rewrite (adds_account_failure _ _ _ _ _ _ Hadd Hrun) by discriminate. exact Hok.
    - rewrite (adds_account_failure _ _ _ _ _ _ Hadd Hrun) by discriminate. exact Hok. }
  destruct op; try discriminate Hadd; clear Hadd.
  - (* createWalletFromMnemonic *)
    destruct st as [w n c t]. unfold perform. unfold_accounts. unfold_storage. unfold_M.
    destruct generated as [kp|e]; cbn; [|exact Hok].
    intros w' Heq. cbn in Heq. injection Heq as <-.
    unfold wallet_ok, active_present, indices. cbn.
    split; [discriminate|]. split; [left|]. apply NoDup_singleton.
  - destruct st as [w n c t]. unfold perform. unfold_accounts. unfold_storage. unfold_M.
    destruct generated as [kp|e]; cbn; [|exact Hok].
    intros w' Heq. cbn in Heq. injection Heq as <-.
    unfold wallet_ok, active_present, indices. cbn.
    split; [discriminate|]. split; [left|]. apply NoDup_singleton.
  - (* setActiveAccount *)
    destruct st as [w n c t]. unfold perform. unfold_accounts. unfold_storage. unfold_M.
    cbn. destruct w as [wallet|]; [|exact Hok].
    destruct (find _ _) as [a|] eqn:Hfind; cbn; [|exact Hok].
    intros w' Heq. cbn in Heq. injection Heq as <-.
    destruct (Hok wallet eq_refl) as (Hne & _ & Hnd).
    unfold wallet_ok, active_present, indices. cbn.
    split; [exact Hne|]. split; [|exact Hnd].
    eapply find_index_present, Hfind.
  - (* renameAccount *)
    destruct st as [w n c t]. unfold perform. unfold_accounts. unfold_storage. unfold_M.
    cbn. destruct w as [wallet|]; [|exact Hok].
    destruct (find _ _) as [a|] eqn:Hfind; cbn; [|exact Hok].
    intros w' Heq. cbn in Heq. injection Heq as <-.
    destruct (Hok wallet eq_refl) as (Hne & Hact & Hnd).
    unfold wallet_ok, active_present, indices in *. cbn.
    rewrite rename_first_indices.
    split; [|split; assumption].
    intros Hnil. apply Hne. eapply rename_first_nil, Hnil.
  - (* deleteAccount *)
    unfold perform. unfold M.bind at 1. rewrite deleteAccount_run.
    destruct (mina_wallet_encrypted st) as [wallet|] eqn:Hw; [|exact Hok].
    destruct (Nat.leb_spec (length (EncryptedWallet.accounts wallet)) 1) as [|Hlen];
      [exact Hok|].
    destruct (findIndex accountIndex (EncryptedWallet.accounts wallet)) as [k|] eqn:Hk;
      [|exact Hok].
    cbn. apply store_ok_store_wallet.
    destruct (Hok wallet Hw) as (Hne & Hact & Hnd).
    destruct (deleted_ok _ _ _ Hlen Hk) as (H1 & H2 & _ & _ & H5).
    split; [exact H1|]. split; [apply H2, Hact | apply H5, Hnd].
  - (* clearWallet *)
    destruct st as [w n c t]. cbn. intros w' Heq. discriminate.
Qed.

Lemma perform_all_store_ok hex b58 ops : forall st,
  store_ok st -> store_ok (perform_all hex b58 st ops).
Proof.
  induction ops as [|op ops IH]; intros st Hok; cbn; [exact Hok|].
  apply IH, perform_store_ok, Hok.
Qed.

(** ** The two claims about accounts *)

(** Calls that run one after the other.  A successful [createAccount] or
    [importAccountFromPrivateKey] gives the new account the index one
    above the maximum of the wallet it read, which is above every index in
    it, and appends the account; so along any sequence of such operations,
    each run to completion before the next starts, from a wallet with
    pairwise distinct indices, the stored indices are the old ones
    followed by the new ones, every new index is above every old one, the
    new indices are strictly increasing, and all stay pairwise
    distinct. *)
Lemma sequential_index_increases hex b58 :
  (forall op st a st',
      adds_account op = true ->
      perform hex b58 op st = (Ok (Some a), st') ->
      exists wallet,
        mina_wallet_encrypted st = Some wallet
        /\ Account.index a = maxIndex (EncryptedWallet.accounts wallet) + 1
        /\ (forall j, j ∈ indices wallet -> j < Account.index a)
        /\ st' = store_wallet st (pushed wallet a))
  /\ (forall ops st,
        Forall (fun op => adds_account op = true) ops ->
        NoDup (stored_indices st) ->
        stored_indices (perform_all hex b58 st ops)
        = (stored_indices st ++ assigned hex b58 st ops)%list
        /\ Forall (fun i => forall j, j ∈ stored_indices st -> j < i)
                   (assigned hex b58 st ops)
        /\ StronglySorted Z.lt (assigned hex b58 st ops)
        /\ NoDup (stored_indices (perform_all hex b58 st ops))).
Proof.
  split.
  - intros op st a st' Hadd Hrun.
    destruct (adds_account_success _ _ _ _ _ _ Hadd Hrun) as (w & Hw & Hidx & Hst).
    exists w. split; [exact Hw|]. split; [exact Hidx|]. split; [|exact Hst].
    intros j Hj. rewrite Hidx. apply next_index_above, Hj.
  - intros ops st. apply creation_run.
Qed.

Example sequential_index_increases_sample :
  stored_indices
    (perform_all Sample.keypairFromSecretKeyHex Sample.keypairFromBase58
       Sample.fresh_wallet_store Sample.creations) = [0; 1; 2; 3]
  /\ assigned Sample.keypairFromSecretKeyHex Sample.keypairFromBase58
       Sample.fresh_wallet_store Sample.creations = [1; 2; 3].
Proof. split; reflexivity. Qed.

(** A call of [createAccount] that takes its two turns together is the
    function run to completion. *)
Lemma resume_twice generated name st :
  resume (resume (Started generated name) st).1
         (resume (Started generated name) st).2
  = (Returned (createAccount generated name st).1,
     (createAccount generated name st).2).
Proof.
  destruct st as [w n c t]. unfold createAccount. cbn [resume].
  unfold createAccount_read. unfold_storage. unfold_M. cbn.
  destruct w as [w|]; [|reflexivity]. cbn.
  destruct generated as [kp|err]; reflexivity.
Qed.

(** C9. Two calls of [createAccount] in flight together, in a wallet
    [wallet] whose next index is [i].  When the second call starts after
    the first has returned, the first account gets [i] and the second
    [i + 1], and both are stored.  When the second call reads the wallet
    while the first is suspended at [await generateKeypair()], both calls
    succeed and both return an account of index [i]: the second call is
    still holding [i] when the first has stored its account, so the index
    it assigns is one the stored wallet already has; its write then
    replaces the wallet, and the account of the first call is no longer
    stored. *)
Theorem overlapping_createAccount_repeats_index
    st wallet kpA nameA kpB nameB :
  mina_wallet_encrypted st = Some wallet ->
  let i := maxIndex (EncryptedWallet.accounts wallet) + 1 in
  let calls := [Started (Ok kpA) nameA; Started (Ok kpB) nameB] in
  (exists a b,
      interleave calls st [0; 0; 1; 1]%nat
      = ([Returned (Ok a); Returned (Ok b)],
         store_wallet st (pushed (pushed wallet a) b))
      /\ Account.index a = i /\ Account.index b = i + 1)
  /\ (exists a b,
        interleave calls st [0; 1; 0]%nat
        = ([Returned (Ok a); Suspended wallet i (Ok kpB) nameB],
           store_wallet st (pushed wallet a))
        /\ interleave calls st [0; 1; 0; 1]%nat
           = ([Returned (Ok a); Returned (Ok b)],
              store_wallet st (pushed wallet b))
        /\ Account.index a = i /\ Account.index b = i
        /\ Account.address a = Keypair.address kpA
        /\ Account.address b = Keypair.address kpB
        /\ i ∈ indices (pushed wallet a)
        /\ EncryptedWallet.accounts (pushed wallet b)
           = (EncryptedWallet.accounts wallet ++ [b])%list).
Proof.
  intros Hw i calls.
  set (account := fun (j : Z) (kp : Keypair.t) (name : option string) =>
         Account.Build j (default ("Account " +:+ pretty (j + 1)) name)
           (Keypair.address kp) (Keypair.publicKeyHex kp)).
  assert (Hread : forall w' st', mina_wallet_encrypted st' = Some w' ->
             createAccount_read st'
             = (Ok (w', maxIndex (EncryptedWallet.accounts w') + 1), st')).
  { intros w' [w0 n c t] Hw0. cbn in Hw0. subst w0. reflexivity. }
  assert (Hwrite : forall w' j kp name st',
             createAccount_write w' j kp name st'
             = (Ok (account j kp name),
                store_wallet st' (pushed w' (account j kp name)))).
  { intros w' j kp name [w0 n c t]. reflexivity. }
  assert (Hnext : maxIndex (EncryptedWallet.accounts
                              (pushed wallet (account i kpA nameA))) + 1
                  = i + 1).
  { unfold maxIndex, pushed. cbn [EncryptedWallet.accounts].
    rewrite fold_left_app. cbn [fold_left Account.index account].
    fold (maxIndex (EncryptedWallet.accounts wallet)). subst i. lia. }
  assert (Hstore : forall w1 w2, store_wallet (store_wallet st w1) w2
                                 = store_wallet st w2) by reflexivity.
  split.
  - exists (account i kpA nameA), (account (i + 1) kpB nameB).
    split; [|split; reflexivity].
    unfold interleave, turn, calls. cbn [fold_left fst snd].
    cbn [lookup list_lookup resume fst snd insert list_insert].
    rewrite (Hread wallet st Hw). cbn [resume fst snd lookup list_lookup
      insert list_insert].
    rewrite Hwrite. cbn [resume fst snd lookup list_lookup insert list_insert].
    rewrite (Hread (pushed wallet (account i kpA nameA))) by reflexivity.
    cbn [resume fst snd lookup list_lookup insert list_insert].
    rewrite Hwrite, Hnext, Hstore. reflexivity.
  - exists (account i kpA nameA), (account i kpB nameB).
    split; [|split; [|repeat split]].
    + unfold interleave, turn, calls. cbn [fold_left fst snd].
      cbn [lookup list_lookup resume fst snd insert list_insert].
      rewrite (Hread wallet st Hw).
      cbn [resume fst snd lookup list_lookup insert list_insert].
      rewrite (Hread wallet st Hw).
      cbn [resume fst snd lookup list_lookup insert list_insert].
      rewrite Hwrite. reflexivity.
    + unfold interleave, turn, calls. cbn [fold_left fst snd].
      cbn [lookup list_lookup resume fst snd insert list_insert].
      rewrite (Hread wallet st Hw).
      cbn [resume fst snd lookup list_lookup insert list_insert].
      rewrite (Hread wallet st Hw).
      cbn [resume fst snd lookup list_lookup insert list_insert].
      rewrite Hwrite.
      cbn [resume fst snd lookup list_lookup insert list_insert].
      rewrite Hwrite, Hstore. reflexivity.
    + unfold indices, pushed. cbn. rewrite fmap_app. apply elem_of_app.
      right. left.
Qed.

Lemma overlapping_createAccount_repeats_index_witness :
  exists a b,
    interleave [Started (Ok Sample.keypair) None;
                Started (Ok Sample.second_keypair) None]
      Sample.fresh_wallet_store [0; 1; 0; 1]%nat
    = ([Returned (Ok a); Returned (Ok b)],
       store_wallet Sample.fresh_wallet_store
         (pushed Sample.fresh_wallet b))
    /\ Account.index a = 1 /\ Account.index b = 1
    /\ Account.address a = "B62qsample"
    /\ Account.address b = "B62qimported"
    /\ stored_indices
         (store_wallet Sample.fresh_wallet_store
            (pushed Sample.fresh_wallet b)) = [0; 1].
Proof.
  destruct (overlapping_createAccount_repeats_index
              Sample.fresh_wallet_store Sample.fresh_wallet
              Sample.keypair None Sample.second_keypair None eq_refl)
    as (_ & a & b & _ & Hrun & Ha & Hb & HaA & HbA & _ & Hacc).
  exists a, b. split; [exact Hrun|].
  split; [exact Ha|]. split; [exact Hb|].
  split; [exact HaA|]. split; [exact HbA|].
  unfold stored_indices, store_wallet, indices. cbn [mina_wallet_encrypted
    fmap option_fmap option_map default].
  rewrite Hacc, fmap_app. cbn. rewrite Hb. reflexivity.
Defined.

(** Beside C10.  [getActiveAccount] reads the pointer as a position in
    the list, where [setActiveAccount] and [deleteAccount] read it as an
    [index] field.  After account 0 of accounts 0, 1, 2 is deleted with
    account 2 active, the pointer is still 2 and account 2 is still
    there, but position 2 is past the end of the list and
    [getActiveAccount] falls back to the first account, account 1. *)
Example getActiveAccount_reads_a_position :
  let st := (deleteAccount 0 Sample.three_account_store).2 in
  stored_indices st = [1; 2]
  /\ (EncryptedWallet.activeAccountIndex <$> mina_wallet_encrypted st) = Some 2
  /\ exists a, (getActiveAccount st).1 = Ok (Some a) /\ Account.index a = 1.
Proof. split; [reflexivity|]. split; [reflexivity|]. eexists. split; reflexivity. Qed.

(** C10. [deleteAccount] throws and leaves the store as it was when there
    is no wallet, when the wallet holds at most one account, or when no
    account has the index.  When it succeeds it removes the first account
    with that index, the list stays non-empty, the active pointer moves
    to the first remaining account if the deleted one was active and is
    untouched otherwise, and a pointer that named a present account still
    does.  Hence no sequence of wallet operations, started from a store
    whose wallet (if any) is sound, leads to an empty account list or to
    an active pointer that names no account. *)
Theorem deleteAccount_keeps_wallet_sound :
  (forall i st,
      mina_wallet_encrypted st = None ->
      deleteAccount i st = (Throw (Js.Error "No wallet found"), st))
  /\ (forall i st wallet,
        mina_wallet_encrypted st = Some wallet ->
        (length (EncryptedWallet.accounts wallet) <= 1)%nat ->
        deleteAccount i st
        = (Throw (Js.Error "Cannot delete the last account"), st))
  /\ (forall i st wallet,
        mina_wallet_encrypted st = Some wallet ->
        (1 < length (EncryptedWallet.accounts wallet))%nat ->
        i ∉ indices wallet ->
        deleteAccount i st
        = (Throw (Js.Error ("Account " +:+ pretty i +:+ " not found")), st))
  /\ (forall i st st',
        deleteAccount i st = (Ok tt, st') ->
        exists wallet k,
          mina_wallet_encrypted st = Some wallet
          /\ indices wallet !! k = Some i
          /\ st' = store_wallet st (deleted i k wallet)
          /\ EncryptedWallet.accounts (deleted i k wallet)
             = delete k (EncryptedWallet.accounts wallet)
          /\ EncryptedWallet.accounts (deleted i k wallet) <> []
          /\ (active_present wallet -> active_present (deleted i k wallet))
          /\ (EncryptedWallet.activeAccountIndex wallet = i ->
               exists first,
                 head (EncryptedWallet.accounts (deleted i k wallet))
                 = Some first
                 /\ EncryptedWallet.activeAccountIndex (deleted i k wallet)
                    = Account.index first)
          /\ (EncryptedWallet.activeAccountIndex wallet <> i ->
               EncryptedWallet.activeAccountIndex (deleted i k wallet)
               = EncryptedWallet.activeAccountIndex wallet))
  /\ (forall hex b58 ops st,
        store_ok st -> store_ok (perform_all hex b58 st ops)).
Proof.
  split; [|split; [|split; [|split]]].
  - intros i st Hw. rewrite deleteAccount_run, Hw. reflexivity.
  - intros i st wallet Hw Hlen. rewrite deleteAccount_run, Hw.
    apply Nat.leb_le in Hlen. rewrite Hlen. reflexivity.
  - intros i st wallet Hw Hlen Hnot. rewrite deleteAccount_run, Hw.
    destruct (Nat.leb_spec (length (EncryptedWallet.accounts wallet)) 1);
      [lia|].
    apply findIndex_None in Hnot. rewrite Hnot. reflexivity.
  - intros i st st' Hrun. rewrite deleteAccount_run in Hrun.
    destruct (mina_wallet_encrypted st) as [wallet|] eqn:Hw; [|discriminate].
    destruct (Nat.leb_spec (length (EncryptedWallet.accounts wallet)) 1)
      as [|Hlen]; [discriminate|].
    destruct (findIndex i (EncryptedWallet.accounts wallet)) as [k|] eqn:Hk;
      [|discriminate].
    injection Hrun as <-.
    destruct (deleted_ok _ _ _ Hlen Hk) as (H1 & H2 & H3 & H4 & _).
    apply findIndex_Some in Hk as [Hk _].
    exists wallet, k. repeat split; assumption.
  - intros hex b58 ops st. apply perform_all_store_ok.
Qed.

Lemma deleteAccount_keeps_wallet_sound_witness :
  exists wallet,
    mina_wallet_encrypted
      (deleteAccount 1 Sample.two_account_store).2 = Some wallet
    /\ indices wallet = [0]
    /\ EncryptedWallet.activeAccountIndex wallet = 0
    /\ active_present wallet.
Proof.
  destruct (proj1 (proj2 (proj2 (proj2 deleteAccount_keeps_wallet_sound)))
              1 Sample.two_account_store
              (deleteAccount 1 Sample.two_account_store).2 eq_refl)
    as (wallet & k & Hw & Hk & Hst & _ & _ & Hact & _).
  exists (deleted 1 1 {| EncryptedWallet.encryptedMnemonic := Sample.mnemonic;
                         EncryptedWallet.salt := "placeholder-salt";
                         EncryptedWallet.iv := "placeholder-iv";
                         EncryptedWallet.accounts :=
                           [Account.Build 0 "Account 1" "B62qsample" "02aa";
                            Account.Build 1 "Account 2" "B62qsample" "02aa"];
                         EncryptedWallet.activeAccountIndex := 1 |}).
  split; [reflexivity|]. split; [reflexivity|]. split; [reflexivity|].
  unfold active_present. cbn. left.
Defined.

End AccountsFacts.

(* ===================================================================== *)
(** * Properties of the page provider and of the relay                    *)
(* ===================================================================== *)

Module InpageFacts.
Import Inpage.
#[local] Open Scope nat_scope.
#[local] Open Scope list_scope.

(** ** Settling calls *)

Lemma settlements_settle p q o pg :
  settlements p (settle q o pg)
  = (settlements p pg ++ (if decide (q = p) then [o] else []))%list.
Proof.
  unfold settlements, settle. cbn.
  rewrite filter_app, fmap_app. f_equal.
  rewrite filter_cons, filter_nil. cbn.
  destruct (decide (q = p)); reflexivity.
Qed.

Lemma settlements_settle_other p q o pg :
  q <> p -> settlements p (settle q o pg) = settlements p pg.
Proof.
  intros Hne. rewrite settlements_settle.
  destruct (decide (q = p)); [contradiction|]. apply app_nil_r.
Qed.

Lemma settlements_bounded used p pg :
  bounded used pg -> (nextPromise pg <= p)%nat -> settlements p pg = [].
Proof.
  intros (_ & _ & Hs) Hle. unfold settlements.
  induction (settled pg) as [|[q o] l IH]; [reflexivity|].
  apply Forall_cons in Hs as [Hq Hl]. cbn in Hq.
  rewrite filter_cons. cbn.
  destruct (decide (q = p)); [lia|]. apply IH, Hl.
Qed.

(** ** The timer callback *)

Section OneRequest.
Variable id : string.
Variable p : nat.
Variable d : N.

Lemma onTimeout_frame tm pg :
  timers (onTimeout tm pg) = timers pg
  /\ clock (onTimeout tm pg) = clock pg
  /\ nextPromise (onTimeout tm pg) = nextPromise pg
  /\ (forall id' pr,
        pendingRequests (onTimeout tm pg) !! id' = Some pr ->
        pendingRequests pg !! id' = Some pr).
Proof.
  unfold onTimeout. case_bool_decide; cbn; repeat split; auto.
  intros id' pr Hlook. apply lookup_delete_Some in Hlook as [_ Hlook].
  exact Hlook.
Qed.

Lemma onTimeout_own pg :
  unsettled id p pg -> done id p [timeout_error] (onTimeout (mkTimer d id p) pg).
Proof.
  intros [Hpend Hnone]. unfold onTimeout, done. cbn.
  rewrite bool_decide_eq_true_2 by (rewrite Hpend; eauto).
  rewrite settlements_settle. cbn.
  split; [apply lookup_delete_eq|].
  unfold settlements in *. cbn. rewrite Hnone.
  destruct (decide (p = p)); [reflexivity | contradiction].
Qed.

Lemma onTimeout_other tm pg :
  own_timer id p d tm -> tm <> mkTimer d id p ->
  pendingRequests (onTimeout tm pg) !! id = pendingRequests pg !! id
  /\ settlements p (onTimeout tm pg) = settlements p pg.
Proof.
  intros Hown Hne.
  assert (Hid : timer_id tm <> id) by (intros H; apply Hne, Hown; left; exact H).
  assert (Hp : timer_promise tm <> p) by (intros H; apply Hne, Hown; right; exact H).
  unfold onTimeout. case_bool_decide; [|split; reflexivity].
  rewrite settlements_settle_other by exact Hp. cbn.
  split; [apply lookup_delete_ne; exact Hid | reflexivity].
Qed.

Lemma onTimeout_done tm pg o :
  own_timer id p d tm -> done id p o pg -> done id p o (onTimeout tm pg).
Proof.
  intros Hown [Hpend Hset].
  destruct (decide (tm = mkTimer d id p)) as [->|Hne].
  - unfold onTimeout. cbn. rewrite bool_decide_eq_false_2; [split; assumption|].
    rewrite Hpend. intros [? ?]; discriminate.
  - destruct (onTimeout_other tm pg Hown Hne) as [Hp Hs].
    split; [rewrite Hp; exact Hpend | rewrite Hs; exact Hset].
Qed.

(** ** Firing the timers that are due *)

Lemma fire_all_cons tm fire pg :
  fire_all (tm :: fire) pg = fire_all fire (onTimeout tm pg).
Proof. reflexivity. Qed.

Lemma fire_all_frame fire : forall pg,
  timers (fire_all fire pg) = timers pg
  /\ clock (fire_all fire pg) = clock pg
  /\ nextPromise (fire_all fire pg) = nextPromise pg
  /\ (forall id' pr,
        pendingRequests (fire_all fire pg) !! id' = Some pr ->
        pendingRequests pg !! id' = Some pr).
Proof.
  induction fire as [|tm fire IH]; intros pg; [repeat split; auto|].
  rewrite fire_all_cons.
  destruct (IH (onTimeout tm pg)) as (Ht & Hc & Hn & Hp).
  destruct (onTimeout_frame tm pg) as (Ht' & Hc' & Hn' & Hp').
  split; [congruence|]. split; [congruence|]. split; [congruence|].
  intros id' pr Hlook. apply Hp', Hp, Hlook.
Qed.

Lemma fire_all_done fire : forall pg o,
  Forall (own_timer id p d) fire -> done id p o pg ->
  done id p o (fire_all fire pg).
Proof.
  induction fire as [|tm fire IH]; intros pg o Hown Hdone; [exact Hdone|].
  rewrite fire_all_cons.
  apply Forall_cons in Hown as [Htm Hfire].
  apply IH; [exact Hfire|]. apply onTimeout_done; assumption.
Qed.

Lemma fire_all_unsettled fire : forall pg,
  Forall (own_timer id p d) fire -> unsettled id p pg ->
  (mkTimer d id p ∉ fire -> unsettled id p (fire_all fire pg))
  /\ (mkTimer d id p ∈ fire -> done id p [timeout_error] (fire_all fire pg)).
Proof.
  induction fire as [|tm fire IH]; intros pg Hown Hun.
  - split; [intros _; exact Hun | intros Hin; inversion Hin].
  - rewrite fire_all_cons. apply Forall_cons in Hown as [Htm Hfire].
    destruct (decide (tm = mkTimer d id p)) as [->|Hne].
    + split; [intros Hnot; exfalso; apply Hnot; left|].
      intros _. apply fire_all_done; [exact Hfire|].
      apply onTimeout_own, Hun.
    + destruct (onTimeout_other tm pg Htm Hne) as [Hp Hs].
      assert (Hun' : unsettled id p (onTimeout tm pg)).
      { destruct Hun as [H1 H2]. split; congruence. }
      destruct (IH _ Hfire Hun') as [Hout Hin].
      split.
      * intros Hnot. apply Hout. intros Hmem. apply Hnot. right. exact Hmem.
      * intros Hmem. apply Hin. apply elem_of_cons in Hmem as [Heq|Hmem];
          [congruence | exact Hmem].
Qed.

(** ** One event *)

Lemma clock_step e pg : clock (step pg e) = (clock pg + elapsed [e])%N.
Proof.
  destruct e; cbn [step elapsed]; rewrite ?N.add_0_r.
  - reflexivity.
  - unfold onWindowMessage.
    repeat (match goal with
            | |- context [if ?b then _ else _] => destruct b
            | |- context [match ?x with _ => _ end] => destruct x eqn:?
            end; cbn);
      try reflexivity;
      unfold pending_delete, emit;
      repeat (match goal with
              | |- context [match ?x with _ => _ end] => destruct x eqn:?
              end; cbn); reflexivity.
  - unfold elapse.
    match goal with
    | |- clock (fire_all ?f ?pg1) = _ =>
        destruct (fire_all_frame f pg1) as (_ & -> & _)
    end.
    reflexivity.
  - unfold on. case_bool_decide; reflexivity.
  - reflexivity.
  - reflexivity.
Qed.

(** The three predicates only read five fields of the page. *)
Lemma same_core pg pg' :
  pendingRequests pg' = pendingRequests pg ->
  timers pg' = timers pg ->
  nextPromise pg' = nextPromise pg ->
  clock pg' = clock pg ->
  settled pg' = settled pg ->
  (owned id p d pg -> owned id p d pg')
  /\ (waiting id p d pg -> waiting id p d pg')
  /\ (forall o, done id p o pg -> done id p o pg').
Proof.
  intros Hp Ht Hn Hc Hs.
  unfold owned, waiting, unsettled, done, settlements.
  rewrite Hp, Ht, Hn, Hc, Hs. auto.
Qed.

Lemma emit_core event pg :
  pendingRequests (emit event pg) = pendingRequests pg
  /\ timers (emit event pg) = timers pg
  /\ nextPromise (emit event pg) = nextPromise pg
  /\ clock (emit event pg) = clock pg
  /\ settled (emit event pg) = settled pg.
Proof. unfold emit. destruct (events pg !! event); repeat split. Qed.

Lemma on_core event cb pg :
  pendingRequests (on event cb pg) = pendingRequests pg
  /\ timers (on event cb pg) = timers pg
  /\ nextPromise (on event cb pg) = nextPromise pg
  /\ clock (on event cb pg) = clock pg
  /\ settled (on event cb pg) = settled pg.
Proof. unfold on. case_bool_decide; repeat split. Qed.

(** The response branch of the listener, for a key that is pending. *)
Lemma onWindowMessage_response message pg id' pr :
  Js.is_str (Js.get message "type") "MINA_PROVIDER_RESPONSE" = true ->
  Js.get message "id" = Js.Str id' ->
  pendingRequests pg !! id' = Some pr ->
  onWindowMessage true message pg
  = settle_if (promise pr) (settlement_of message)
      (with_pendingRequests pg (delete id' (pendingRequests pg))).
Proof.
  intros Htype Hid Hpend. unfold onWindowMessage, settlement_of. cbn.
  rewrite Htype, Hid. cbn. rewrite Hpend.
  destruct (Js.truthy (Js.get message "error")); [|reflexivity].
  destruct (Js.to_string (Js.get message "error")); reflexivity.
Qed.

Lemma settle_if_core q o pg :
  pendingRequests (settle_if q o pg) = pendingRequests pg
  /\ timers (settle_if q o pg) = timers pg
  /\ nextPromise (settle_if q o pg) = nextPromise pg
  /\ clock (settle_if q o pg) = clock pg
  /\ events (settle_if q o pg) = events pg
  /\ settled (settle_if q o pg)
     = (settled pg ++ ((fun o' => (q, o')) <$> option_list o))%list.
Proof.
  destruct o; cbn; repeat split. symmetry. apply app_nil_r.
Qed.

Lemma settlements_settle_if q r o pg :
  settlements q (settle_if r o pg)
  = (settlements q pg ++ (if decide (r = q) then option_list o else []))%list.
Proof.
  destruct o as [o|]; cbn; [apply settlements_settle|].
  destruct (decide (r = q)); symmetry; apply app_nil_r.
Qed.

Lemma settlements_settle_if_other q r o pg :
  r <> q -> settlements q (settle_if r o pg) = settlements q pg.
Proof.
  intros Hne. rewrite settlements_settle_if.
  destruct (decide (r = q)); [contradiction|]. apply app_nil_r.
Qed.

(** Every other message leaves the five core fields alone. *)
Lemma onWindowMessage_other fromWindow message pg :
  (fromWindow = false
   \/ Js.is_str (Js.get message "type") "MINA_PROVIDER_RESPONSE" = false
   \/ pending_get (Js.get message "id") pg = None) ->
  pendingRequests (onWindowMessage fromWindow message pg) = pendingRequests pg
  /\ timers (onWindowMessage fromWindow message pg) = timers pg
  /\ nextPromise (onWindowMessage fromWindow message pg) = nextPromise pg
  /\ clock (onWindowMessage fromWindow message pg) = clock pg
  /\ settled (onWindowMessage fromWindow message pg) = settled pg.
Proof.
  intros Hcase. unfold onWindowMessage.
  destruct fromWindow; cbn; [|repeat split].
  destruct (Js.is_str (Js.get message "type") "MINA_PROVIDER_RESPONSE") eqn:Htype.
  - destruct Hcase as [?|[?|Hnone]]; try discriminate.
    rewrite Hnone. repeat split.
  - destruct (Js.is_str (Js.get message "type") "MINA_PROVIDER_READY");
      [apply emit_core | repeat split].
Qed.

Lemma pending_get_Some key pg pr :
  pending_get key pg = Some pr ->
  exists id', key = Js.Str id' /\ pendingRequests pg !! id' = Some pr.
Proof. destruct key; cbn; try discriminate. eauto. Qed.

Lemma is_str_true v lit : Js.is_str v lit = true -> v = Js.Str lit.
Proof.
  destruct v; cbn; try discriminate.
  intros H. apply String.eqb_eq in H. congruence.
Qed.


Lemma Forall_filtered {A} (P : A -> Prop) (f : A -> bool) (l : list A) :
  Forall P l -> Forall P (filter (fun x => f x) l).
Proof.
  rewrite !Forall_forall. intros Hall x Hin.
  apply list_elem_of_filter in Hin as [_ Hin]. apply Hall, Hin.
Qed.

Lemma not_uuid_request id' method params :
  id ∉ uuids [Request id' method params] -> id' <> id.
Proof. cbn. intros Hnot ->. apply Hnot. left. Qed.

Lemma owned_request id' method params pg :
  id' <> id -> owned id p d pg ->
  owned id p d (request id' method params pg).2.
Proof.
  intros Hne (Hmap & Htimers & Hlt). unfold request, owned. cbn.
  split; [|split].
  - intros id'' pr Hlook Hpr.
    apply lookup_insert_Some in Hlook as [[_ <-]|[_ Hlook]].
    + cbn in Hpr. lia.
    + eapply Hmap; eassumption.
  - apply Forall_app. split; [exact Htimers|].
    apply Forall_singleton. intros [H|H]; cbn in H; [congruence | lia].
  - lia.
Qed.

Lemma not_uuid_refused id' err :
  id ∉ uuids [RequestRefused id' err] -> id' <> id.
Proof. cbn. intros Hnot ->. apply Hnot. left. Qed.

Lemma owned_refused id' err pg :
  id' <> id -> owned id p d pg ->
  owned id p d (request_refused id' err pg).2.
Proof.
  intros Hne (Hmap & Htimers & Hlt). unfold request_refused, owned. cbn.
  split; [|split].
  - intros id'' pr Hlook Hpr.
    apply lookup_insert_Some in Hlook as [[_ <-]|[_ Hlook]].
    + cbn in Hpr. lia.
    + eapply Hmap; eassumption.
  - exact Htimers.
  - lia.
Qed.

(** A request that was not posted touches no other request. *)
Lemma refused_other id' err pg :
  id' <> id -> owned id p d pg ->
  pendingRequests (request_refused id' err pg).2 !! id
  = pendingRequests pg !! id
  /\ settlements p (request_refused id' err pg).2 = settlements p pg
  /\ timers (request_refused id' err pg).2 = timers pg
  /\ clock (request_refused id' err pg).2 = clock pg.
Proof.
  intros Hne (_ & _ & Hlt). unfold request_refused. cbn [snd].
  rewrite settlements_settle_other by lia. cbn.
  rewrite lookup_insert_ne by exact Hne. repeat split.
Qed.

Lemma owned_elapse dt pg : owned id p d pg -> owned id p d (elapse dt pg).
Proof.
  intros (Hmap & Htimers & Hlt). unfold elapse.
  set (pg1 := with_timers _ _).
  destruct (fire_all_frame (filter (fun tm => is_due (clock pg + dt) tm) (timers pg)) pg1)
    as (Ht & _ & Hn & Hp).
  unfold owned. rewrite Ht, Hn. cbn.
  split; [|split; [|exact Hlt]].
  - intros id' pr Hlook Hpr. apply Hp in Hlook. cbn in Hlook.
    eapply Hmap; eassumption.
  - apply Forall_filtered, Htimers.
Qed.

Lemma owned_message fromWindow message pg :
  owned id p d pg -> owned id p d (onWindowMessage fromWindow message pg).
Proof.
  intros Hown.
  destruct fromWindow;
    [|apply (same_core pg); try apply onWindowMessage_other; auto].
  destruct (Js.is_str (Js.get message "type") "MINA_PROVIDER_RESPONSE") eqn:Htype;
    [|apply (same_core pg); try apply onWindowMessage_other; auto].
  destruct (pending_get (Js.get message "id") pg) as [pr|] eqn:Hget;
    [|apply (same_core pg); try apply onWindowMessage_other; auto].
  apply pending_get_Some in Hget as (id' & Hkey & Hpend).
  rewrite (onWindowMessage_response _ _ _ _ Htype Hkey Hpend).
  destruct Hown as (Hmap & Htimers & Hlt).
  unfold owned. destruct (settlement_of message); cbn;
    (split; [|split; assumption]);
  intros id'' pr' Hlook Hpr; apply lookup_delete_Some in Hlook as [_ Hlook];
  eapply Hmap; eassumption.
Qed.

Lemma step_owned e pg :
  id ∉ uuids [e] -> owned id p d pg -> owned id p d (step pg e).
Proof.
  intros Hfresh Hown. destruct e; cbn [step].
  - apply owned_request; [eapply not_uuid_request, Hfresh | exact Hown].
  - apply owned_message, Hown.
  - apply owned_elapse, Hown.
  - apply (same_core pg); try apply on_core. exact Hown.
  - apply (same_core pg); try reflexivity. exact Hown.
  - apply owned_refused; [eapply not_uuid_refused, Hfresh | exact Hown].
Qed.

(** A request that is settled stays settled, with the same outcome. *)
Lemma step_done e pg o :
  id ∉ uuids [e] -> owned id p d pg ->
  done id p o pg -> done id p o (step pg e).
Proof.
  intros Hfresh Hown Hdone. destruct e; cbn [step].
  - apply not_uuid_request in Hfresh. destruct Hdone as [Hpend Hset].
    unfold request, done. cbn. split; [|exact Hset].
    rewrite lookup_insert_ne by exact Hfresh. exact Hpend.
  - destruct fromWindow;
      [|apply (same_core pg); try apply onWindowMessage_other; auto].
    destruct (Js.is_str (Js.get message "type") "MINA_PROVIDER_RESPONSE") eqn:Htype;
      [|apply (same_core pg); try apply onWindowMessage_other; auto].
    destruct (pending_get (Js.get message "id") pg) as [pr|] eqn:Hget;
      [|apply (same_core pg); try apply onWindowMessage_other; auto].
    apply pending_get_Some in Hget as (id' & Hkey & Hpend').
    rewrite (onWindowMessage_response _ _ _ _ Htype Hkey Hpend').
    destruct Hdone as [Hpend Hset]. destruct Hown as (Hmap & _ & _).
    assert (Hne : id' <> id) by congruence.
    assert (Hpr : promise pr <> p).
    { intros Heq. apply Hne. eapply Hmap; eassumption. }
    split.
    + destruct (settle_if_core (promise pr) (settlement_of message)
                  (with_pendingRequests pg (delete id' (pendingRequests pg))))
        as (-> & _).
      cbn. apply lookup_delete_None. right. exact Hpend.
    + rewrite settlements_settle_if_other by exact Hpr. exact Hset.
  - unfold elapse. apply fire_all_done.
    + apply Forall_filtered. apply Hown.
    + exact Hdone.
  - apply (same_core pg); try apply on_core. exact Hdone.
  - apply (same_core pg); try reflexivity. exact Hdone.
  - apply not_uuid_refused in Hfresh. destruct Hdone as [Hpend Hset].
    destruct (refused_other uuid err pg Hfresh Hown) as (Hp & Hs & _).
    split; [rewrite Hp; exact Hpend | rewrite Hs; exact Hset].
Qed.

(** The first matching response settles the request as it says. *)
Lemma step_answer message pg :
  answers id (WindowMessage true message) = true ->
  waiting id p d pg ->
  done id p (option_list (settlement_of message))
    (step pg (WindowMessage true message)).
Proof.
  intros Hans ((Hpend & Hnone) & _ & _). cbn in Hans. cbn [step].
  apply andb_true_iff in Hans as [Htype Hid]. apply is_str_true in Hid.
  rewrite (onWindowMessage_response _ _ _ _ Htype Hid Hpend).
  split.
  - destruct (settle_if_core (promise (mkPending p)) (settlement_of message)
                (with_pendingRequests pg (delete id (pendingRequests pg))))
      as (-> & _).
    apply lookup_delete_eq.
  - rewrite settlements_settle_if. cbn [promise].
    change (settlements p (with_pendingRequests pg
                             (delete id (pendingRequests pg))))
      with (settlements p pg).
    rewrite Hnone.
    destruct (decide (p = p)); [reflexivity | contradiction].
Qed.

(** The timer of the request rejects it when it is still pending. *)
Lemma step_timeout dt pg :
  owned id p d pg -> waiting id p d pg -> (d <= clock pg + dt)%N ->
  done id p [timeout_error] (step pg (Elapse dt)).
Proof.
  intros Hown (Hun & Htimer & _) Hdue. cbn [step]. unfold elapse.
  eapply fire_all_unsettled.
  - apply Forall_filtered. apply Hown.
  - exact Hun.
  - apply list_elem_of_filter. split; [|exact Htimer].
    unfold is_due. cbn. apply Is_true_true, N.leb_le. exact Hdue.
Qed.

(** Anything else leaves the request waiting. *)
Lemma step_waiting e pg :
  id ∉ uuids [e] ->
  answers id e = false ->
  (clock pg + elapsed [e] < d)%N ->
  owned id p d pg ->
  waiting id p d pg -> waiting id p d (step pg e).
Proof.
  intros Hfresh Hans Hclock Hown Hwait. destruct e; cbn [step].
  - apply not_uuid_request in Hfresh.
    destruct Hwait as ((Hpend & Hnone) & Htimer & Hlt).
    unfold request, waiting, unsettled. cbn.
    rewrite lookup_insert_ne by exact Hfresh.
    repeat split; try assumption. apply elem_of_app. left. exact Htimer.
  - destruct fromWindow;
      [|apply (same_core pg); try apply onWindowMessage_other; auto].
    destruct (Js.is_str (Js.get message "type") "MINA_PROVIDER_RESPONSE") eqn:Htype;
      [|apply (same_core pg); try apply onWindowMessage_other; auto].
    destruct (pending_get (Js.get message "id") pg) as [pr|] eqn:Hget;
      [|apply (same_core pg); try apply onWindowMessage_other; auto].
    apply pending_get_Some in Hget as (id' & Hkey & Hpend').
    rewrite (onWindowMessage_response _ _ _ _ Htype Hkey Hpend').
    cbn in Hans. rewrite Htype, Hkey in Hans. cbn in Hans.
    apply String.eqb_neq in Hans.
    destruct Hwait as ((Hpend & Hnone) & Htimer & Hlt).
    destruct Hown as (Hmap & _ & _).
    assert (Hpr : promise pr <> p).
    { intros Heq. apply Hans. eapply Hmap; eassumption. }
    unfold waiting, unsettled.
    rewrite settlements_settle_if_other by exact Hpr.
    destruct (settle_if_core (promise pr) (settlement_of message)
                (with_pendingRequests pg (delete id' (pendingRequests pg))))
      as (-> & -> & _ & -> & _).
    cbn.
    rewrite lookup_delete_ne by exact Hans.
    repeat split; assumption.
  - cbn in Hclock. rewrite N.add_0_r in Hclock.
    destruct Hwait as (Hun & Htimer & Hlt). unfold elapse.
    set (fire := filter _ (timers pg)).
    set (pg1 := with_timers _ _).
    assert (Hnotdue : mkTimer d id p ∉ fire).
    { intros Hin. apply list_elem_of_filter in Hin as [Hdue _].
      unfold is_due in Hdue. cbn in Hdue.
      apply Is_true_true, N.leb_le in Hdue. lia. }
    destruct (fire_all_frame fire pg1) as (Ht & Hc & _ & _).
    split; [|split].
    + eapply fire_all_unsettled; [apply Forall_filtered, Hown | exact Hun | exact Hnotdue].
    + rewrite Ht. cbn. apply list_elem_of_filter. split; [|exact Htimer].
      unfold is_due. cbn. apply Is_true_true, negb_true_iff, N.leb_gt. exact Hclock.
    + rewrite Hc. cbn. exact Hclock.
  - apply (same_core pg); try apply on_core. exact Hwait.
  - apply (same_core pg); try reflexivity. exact Hwait.
  - apply not_uuid_refused in Hfresh.
    destruct Hwait as ((Hpend & Hnone) & Htimer & Hlt).
    destruct (refused_other uuid err pg Hfresh Hown) as (Hp & Hs & Ht & Hc).
    unfold waiting, unsettled. rewrite Hp, Hs, Ht, Hc.
    repeat split; assumption.
Qed.


(** ** Runs *)

Lemma run_cons pg e es : run pg (e :: es) = run (step pg e) es.
Proof. reflexivity. Qed.

Lemma uuids_cons e es : uuids (e :: es) = (uuids [e] ++ uuids es)%list.
Proof. destruct e; reflexivity. Qed.

Lemma elapsed_cons e es : elapsed (e :: es) = (elapsed [e] + elapsed es)%N.
Proof. destruct e; cbn; lia. Qed.

Lemma fresh_cons e es :
  id ∉ uuids (e :: es) -> (id ∉ uuids [e]) /\ (id ∉ uuids es).
Proof. rewrite uuids_cons, not_elem_of_app. auto. Qed.

Lemma run_owned es : forall pg,
  id ∉ uuids es -> owned id p d pg -> owned id p d (run pg es).
Proof.
  induction es as [|e es IH]; intros pg Hfresh Hown; [exact Hown|].
  apply fresh_cons in Hfresh as [He Hes]. rewrite run_cons.
  apply IH; [exact Hes|]. apply step_owned; assumption.
Qed.

Lemma run_done es : forall pg o,
  id ∉ uuids es -> owned id p d pg ->
  done id p o pg -> done id p o (run pg es).
Proof.
  induction es as [|e es IH]; intros pg o Hfresh Hown Hdone; [exact Hdone|].
  apply fresh_cons in Hfresh as [He Hes]. rewrite run_cons.
  apply IH; [exact Hes | apply step_owned; assumption
            | apply step_done; assumption].
Qed.

Lemma run_waiting es : forall pg,
  id ∉ uuids es ->
  Forall (fun e => answers id e = false) es ->
  (clock pg + elapsed es < d)%N ->
  owned id p d pg ->
  waiting id p d pg -> waiting id p d (run pg es).
Proof.
  induction es as [|e es IH]; intros pg Hfresh Hans Hclock Hown Hwait;
    [exact Hwait|].
  apply fresh_cons in Hfresh as [He Hes].
  apply Forall_cons in Hans as [Hae Haes].
  rewrite elapsed_cons in Hclock. rewrite run_cons.
  assert (Hstep : waiting id p d (step pg e))
    by (apply step_waiting; try assumption; lia).
  apply IH; try assumption.
  - destruct Hstep as (_ & _ & Hlt).
    enough (clock (step pg e) = (clock pg + elapsed [e])%N) by lia.
    apply clock_step.
  - apply step_owned; assumption.
Qed.

(** At every moment the request is waiting, or gone from the map with at
    most one settlement. *)
Lemma run_status es : forall pg,
  id ∉ uuids es -> owned id p d pg -> waiting id p d pg ->
  waiting id p d (run pg es)
  \/ exists l, (length l <= 1)%nat /\ done id p l (run pg es).
Proof.
  induction es as [|e es IH]; intros pg Hfresh Hown Hwait; [left; exact Hwait|].
  apply fresh_cons in Hfresh as [He Hes]. rewrite run_cons.
  assert (Hown' : owned id p d (step pg e)) by (apply step_owned; assumption).
  assert (Hnext : waiting id p d (step pg e)
                  \/ exists l, (length l <= 1)%nat /\ done id p l (step pg e)).
  { destruct (answers id e) eqn:Hans.
    - right. destruct e as [| [] message | | | |]; try discriminate Hans.
      exists (option_list (settlement_of message)).
      split; [destruct (settlement_of message); cbn; lia|].
      eapply step_answer; eassumption.
    - destruct (N.ltb_spec (clock pg + elapsed [e]) d) as [Hlt|Hge].
      + left. apply step_waiting; assumption.
      + right. destruct e; cbn in Hge;
          try (destruct Hwait as (_ & _ & Hc); lia).
        rewrite N.add_0_r in Hge. exists [timeout_error].
        split; [cbn; lia|]. eapply step_timeout; eassumption. }
  destruct Hnext as [Hw|(l & Hl & Hd)]; [apply IH; assumption|].
  right. exists l. split; [exact Hl|]. apply run_done; assumption.
Qed.
End OneRequest.

(** ** What a fresh page refers to *)

Lemma bounded_same_core used pg pg' :
  pendingRequests pg' = pendingRequests pg ->
  timers pg' = timers pg ->
  nextPromise pg' = nextPromise pg ->
  settled pg' = settled pg ->
  bounded used pg -> bounded used pg'.
Proof. unfold bounded. intros -> -> -> ->. auto. Qed.

Lemma bounded_onTimeout used tm pg :
  timer_promise tm < nextPromise pg ->
  bounded used pg -> bounded used (onTimeout tm pg).
Proof.
  intros Hlt (Hp & Ht & Hs). unfold onTimeout.
  case_bool_decide; [|split; [|split]; assumption].
  unfold bounded. cbn. split; [|split; [exact Ht|]].
  - intros id pr Hlook. apply lookup_delete_Some in Hlook as [_ Hlook].
    apply Hp, Hlook.
  - apply Forall_app. split; [exact Hs|]. apply Forall_singleton. exact Hlt.
Qed.

Lemma bounded_fire_all used fire : forall pg,
  Forall (fun tm => timer_promise tm < nextPromise pg) fire ->
  bounded used pg -> bounded used (fire_all fire pg).
Proof.
  induction fire as [|tm fire IH]; intros pg Hfire Hb; [exact Hb|].
  apply Forall_cons in Hfire as [Htm Hfire]. rewrite fire_all_cons.
  apply IH; [|apply bounded_onTimeout; assumption].
  destruct (onTimeout_frame tm pg) as (_ & _ & -> & _). exact Hfire.
Qed.

Lemma step_bounded used e pg :
  bounded used pg -> bounded (used ++ uuids [e]) (step pg e).
Proof.
  intros Hb. destruct e; cbn [step uuids]; rewrite ?app_nil_r.
  - destruct Hb as (Hp & Ht & Hs). unfold request, bounded. cbn.
    split; [|split].
    + intros id pr Hlook.
      apply lookup_insert_Some in Hlook as [[<- <-]|[_ Hlook]].
      * split; [apply elem_of_app; right; left | cbn; lia].
      * destruct (Hp id pr Hlook). split; [apply elem_of_app; left; assumption | lia].
    + apply Forall_app. split.
      * eapply Forall_impl; [exact Ht|]. intros tm [? ?].
        split; [apply elem_of_app; left; assumption | lia].
      * apply Forall_singleton. cbn. split; [apply elem_of_app; right; left | lia].
    + eapply Forall_impl; [exact Hs|]. intros ps ?. cbn in *. lia.
  - destruct fromWindow;
      [|eapply bounded_same_core; try apply onWindowMessage_other; auto].
    destruct (Js.is_str (Js.get message "type") "MINA_PROVIDER_RESPONSE") eqn:Htype;
      [|eapply bounded_same_core; try apply onWindowMessage_other; auto].
    destruct (pending_get (Js.get message "id") pg) as [pr|] eqn:Hget;
      [|eapply bounded_same_core; try apply onWindowMessage_other; auto].
    apply pending_get_Some in Hget as (id' & Hkey & Hpend).
    rewrite (onWindowMessage_response _ _ _ _ Htype Hkey Hpend).
    destruct Hb as (Hp & Ht & Hs). unfold bounded.
    destruct (settlement_of message) as [o|]; cbn;
      (split; [|split; [exact Ht|]]);
      try (intros id pr' Hlook; apply lookup_delete_Some in Hlook as [_ Hlook];
           apply Hp, Hlook).
    + apply Forall_app. split; [exact Hs|]. apply Forall_singleton.
      apply (Hp id' pr Hpend).
    + exact Hs.
  - unfold elapse. apply bounded_fire_all.
    + cbn. apply Forall_filtered. eapply Forall_impl; [apply Hb|].
      intros tm [_ ?]. assumption.
    + destruct Hb as (Hp & Ht & Hs). unfold bounded. cbn.
      split; [exact Hp|]. split; [apply Forall_filtered, Ht | exact Hs].
  - eapply bounded_same_core; try apply on_core. exact Hb.
  - eapply bounded_same_core; try reflexivity. exact Hb.
  - destruct Hb as (Hp & Ht & Hs). unfold request_refused, bounded. cbn.
    split; [|split].
    + intros id pr Hlook.
      apply lookup_insert_Some in Hlook as [[<- <-]|[_ Hlook]].
      * split; [apply elem_of_app; right; left | cbn; lia].
      * destruct (Hp id pr Hlook).
        split; [apply elem_of_app; left; assumption | lia].
    + eapply Forall_impl; [exact Ht|]. intros tm [? ?].
      split; [apply elem_of_app; left; assumption | lia].
    + apply Forall_app. split.
      * eapply Forall_impl; [exact Hs|]. intros ps ?. cbn in *. lia.
      * apply Forall_singleton. cbn. lia.
Qed.

Lemma run_bounded es : forall used pg,
  bounded used pg -> bounded (used ++ uuids es) (run pg es).
Proof.
  induction es as [|e es IH]; intros used pg Hb.
  - cbn. rewrite app_nil_r. exact Hb.
  - rewrite run_cons, uuids_cons, app_assoc. apply IH, step_bounded, Hb.
Qed.

Lemma bounded_initial : bounded [] initial.
Proof.
  split; [|split]; [|constructor|constructor].
  intros id pr Hlook. cbn in Hlook. rewrite lookup_empty in Hlook. discriminate.
Qed.

(** A request with a fresh id starts out waiting, and owns its promise. *)
Lemma request_tracked used id method params pg :
  bounded used pg -> id ∉ used ->
  owned id (nextPromise pg) (clock pg + REQUEST_TIMEOUT)
    (request id method params pg).2
  /\ waiting id (nextPromise pg) (clock pg + REQUEST_TIMEOUT)
       (request id method params pg).2.
Proof.
  intros Hb Hfresh.
  pose proof (settlements_bounded used (nextPromise pg) pg Hb (Nat.le_refl _))
    as Hnone.
  destruct Hb as (Hp & Ht & Hs).
  unfold owned, waiting, unsettled, request. cbn.
  split; [split; [|split]|split; [split|split]].
  - intros id' pr Hlook Hpr.
    apply lookup_insert_Some in Hlook as [[Heq _]|[_ Hlook]]; [congruence|].
    destruct (Hp id' pr Hlook). lia.
  - apply Forall_app. split.
    + eapply Forall_impl; [exact Ht|]. intros tm [Hid Hlt] [Heq|Heq].
      * exfalso. apply Hfresh. rewrite <- Heq. exact Hid.
      * lia.
    + apply Forall_singleton. intros _. reflexivity.
  - lia.
  - apply lookup_insert_eq.
  - exact Hnone.
  - apply elem_of_app. right. left.
  - unfold REQUEST_TIMEOUT. lia.
Qed.

Lemma uuids_app es1 es2 : uuids (es1 ++ es2) = uuids es1 ++ uuids es2.
Proof.
  induction es1 as [|e es1 IH]; [reflexivity|].
  rewrite <- app_comm_cons, (uuids_cons e (es1 ++ es2)), (uuids_cons e es1), IH.
  apply app_assoc.
Qed.

Lemma run_app pg es1 es2 : run pg (es1 ++ es2) = run (run pg es1) es2.
Proof. apply fold_left_app. Qed.

Lemma clock_run es : forall pg, clock (run pg es) = (clock pg + elapsed es)%N.
Proof.
  induction es as [|e es IH]; intros pg; [cbn; lia|].
  rewrite run_cons, IH, clock_step, (elapsed_cons e es). lia.
Qed.

(** ** The two claims about the provider *)

(** C6. What the code does for a posted request.  Take any run of the
    page and in it a call of [request] whose id [crypto.randomUUID()]
    gives to no other request of the run; let [p] be the promise the call
    returns.  At every later moment either the id is still in the pending
    map and [p] has not been settled, or the id is gone from the map and
    [p] has been settled at most once.  If the first response envelope
    bearing the id arrives before 60000 ms have passed, the id is removed
    and, when the [error] of the envelope is falsy, [p] is resolved with
    its [result]; when it is truthy and has a string form, [p] is rejected
    with it (the form being that of the model for an [error] whose numbers
    are safe integers); when it is truthy and has none, [new Error] throws
    after the id was removed and [p] is never settled, not even by the
    timer.  If no such envelope arrives before the clock passes 60000 ms,
    [p] is rejected with "Request timeout".  Once 60000 ms have passed the
    id is gone in any case. *)
Theorem request_settles_at_most_once es1 id method params es2 :
  id ∉ uuids (es1 ++ es2) ->
  let before := run initial es1 in
  let p := (request id method params before).1 in
  let pg := run initial (es1 ++ Request id method params :: es2) in
  ((pendingRequests pg !! id = Some (mkPending p) /\ settlements p pg = [])
   \/ (pendingRequests pg !! id = None
       /\ (length (settlements p pg) <= 1)%nat))
  /\ (forall pre message post,
        es2 = pre ++ WindowMessage true message :: post ->
        answers id (WindowMessage true message) = true ->
        Forall (fun e => answers id e = false) pre ->
        (elapsed pre < REQUEST_TIMEOUT)%N ->
        Js.safe (Js.get message "error") = true ->
        pendingRequests pg !! id = None
        /\ settlements p pg = option_list (settlement_of message)
        /\ (Js.truthy (Js.get message "error") = true ->
            Js.to_string (Js.get message "error") = None ->
            settlements p pg = []))
  /\ (forall pre dt post,
        es2 = pre ++ Elapse dt :: post ->
        Forall (fun e => answers id e = false) pre ->
        (elapsed pre < REQUEST_TIMEOUT <= elapsed pre + dt)%N ->
        pendingRequests pg !! id = None
        /\ settlements p pg = [timeout_error])
  /\ ((REQUEST_TIMEOUT <= elapsed es2)%N ->
      pendingRequests pg !! id = None
      /\ (length (settlements p pg) <= 1)%nat).
Proof.
  intros Hfresh before p pg.
  rewrite uuids_app in Hfresh.
  apply not_elem_of_app in Hfresh as [Hfresh1 Hfresh2].
  assert (Hb : bounded (uuids es1) before).
  { apply (run_bounded es1 [] initial), bounded_initial. }
  destruct (request_tracked _ id method params before Hb Hfresh1) as [Hown Hwait].
  change (nextPromise before) with p in Hown, Hwait.
  set (d := (clock before + REQUEST_TIMEOUT)%N) in *.
  set (pg1 := (request id method params before).2) in *.
  assert (Hpg : pg = run pg1 es2).
  { unfold pg. rewrite run_app. reflexivity. }
  assert (Hclock1 : clock pg1 = clock before) by reflexivity.
  rewrite Hpg. clear Hpg pg.
  split; [|split; [|split]].
  - destruct (run_status id p d es2 pg1 Hfresh2 Hown Hwait)
      as [(Hun & _)|(l & Hl & Hnone & Hset)]; [left; exact Hun|].
    right. rewrite Hset. auto.
  - intros pre message post -> Hans Hpre Htime _.
    rewrite uuids_app, (uuids_cons (WindowMessage _ _)) in Hfresh2.
    apply not_elem_of_app in Hfresh2 as [Hfpre Hfpost]. cbn in Hfpost.
    rewrite run_app, run_cons.
    assert (Hdone : done id p (option_list (settlement_of message))
                      (run (step (run pg1 pre) (WindowMessage true message))
                         post)).
    { apply (run_done id p d); [exact Hfpost | |].
      + apply step_owned; [cbn; apply not_elem_of_nil|].
        apply run_owned; assumption.
      + apply (step_answer id p d); [exact Hans|].
        apply run_waiting; try assumption. unfold d. lia. }
    destruct Hdone as [Hnone Hset]. split; [exact Hnone|].
    split; [exact Hset|]. intros Htruthy Hthrows.
    rewrite Hset. unfold settlement_of. rewrite Htruthy, Hthrows. reflexivity.
  - intros pre dt post -> Hpre [Hlt Hge].
    rewrite uuids_app, (uuids_cons (Elapse _)) in Hfresh2.
    apply not_elem_of_app in Hfresh2 as [Hfpre Hfpost]. cbn in Hfpost.
    rewrite run_app, run_cons.
    assert (Hown' : owned id p d (run pg1 pre)) by (apply run_owned; assumption).
    apply (run_done id p d); [exact Hfpost | |].
    + apply step_owned; [cbn; apply not_elem_of_nil | exact Hown'].
    + apply (step_timeout id p d); [exact Hown' | |].
      * apply run_waiting; try assumption. unfold d. lia.
      * rewrite clock_run. unfold d. lia.
  - intros Htime.
    destruct (run_status id p d es2 pg1 Hfresh2 Hown Hwait)
      as [(_ & _ & Hlt)|(l & Hl & Hnone & Hset)].
    + rewrite clock_run in Hlt. unfold d in Hlt. lia.
    + rewrite Hset. auto.
Qed.

Lemma request_settles_at_most_once_witness :
  let pg :=
    run initial
      (Sample.prelude
       ++ Request "uuid-2" "mina_accounts" Js.Undefined :: Scenario.unprintable)
  in
  pendingRequests pg !! "uuid-2" = None /\ settlements 1 pg = [].
Proof.
  assert (Hfresh : "uuid-2" ∉ uuids (Sample.prelude ++ Scenario.unprintable)).
  { cbn. rewrite list_elem_of_singleton. discriminate. }
  destruct (request_settles_at_most_once Sample.prelude "uuid-2"
              "mina_accounts" Js.Undefined Scenario.unprintable Hfresh)
    as (_ & Hanswer & _ & _).
  destruct (Hanswer [Elapse 1500]
              (Scenario.unprintable_error "uuid-2") [Elapse 60000])
    as (Hgone & _ & Hnever).
  - reflexivity.
  - reflexivity.
  - repeat constructor.
  - unfold REQUEST_TIMEOUT. cbn. lia.
  - reflexivity.
  - split; [exact Hgone|]. apply Hnever; reflexivity.
Defined.

(** Beside C6.  The listener tests [message.error] for truthiness: an
    envelope whose [error] is the empty string resolves the request, with
    its absent [result]. *)
Example empty_error_resolves :
  settlement_of
    (Js.Object [("type", Js.Str "MINA_PROVIDER_RESPONSE");
                ("id", Js.Str "uuid-2");
                ("error", Js.Str "")])
  = Some (Resolved Js.Undefined).
Proof. reflexivity. Qed.

(** C8. A response envelope whose id is not a key of the pending map
    leaves the page exactly as it was: the pending map, the record of
    settled promises, the record of event callbacks called, everything. *)
Theorem unknown_response_is_dropped fromWindow message pg :
  Js.is_str (Js.get message "type") "MINA_PROVIDER_RESPONSE" = true ->
  pending_get (Js.get message "id") pg = None ->
  onWindowMessage fromWindow message pg = pg.
Proof.
  intros Htype Hnone. unfold onWindowMessage.
  destruct fromWindow; cbn; [|reflexivity].
  rewrite Htype, Hnone. reflexivity.
Qed.

Lemma unknown_response_is_dropped_witness :
  onWindowMessage true (Sample.response "uuid-9" Js.Null)
    (run initial Sample.prelude)
  = run initial Sample.prelude.
Proof.
  apply unknown_response_is_dropped.
  - reflexivity.
  - vm_compute. reflexivity.
Defined.

End InpageFacts.

Module ContentFacts.
Import Content.



End ContentFacts.

(* ===================================================================== *)
(** * Properties of the connected sites                                 *)
(* ===================================================================== *)

Module StorageFacts.
Import Storage Sites.

Lemma existsb_origin (o : string) (sites : list ConnectedSite.t) :
  existsb (fun s => String.eqb (ConnectedSite.origin s) o) sites = true
  <-> o ∈ ConnectedSite.origin <$> sites.
Proof.
  induction sites as [|s l IH]; cbn.
  - split; [discriminate | intros H; inversion H].
  - rewrite orb_true_iff, IH, elem_of_cons, String.eqb_eq.
    split; intros [H|H]; auto.
Qed.

Lemma isSiteConnected_run o st :
  isSiteConnected o st = (Ok (bool_decide (o ∈ origins st)), st).
Proof.
  unfold isSiteConnected, origins. unfold_storage. unfold_M. cbn.
  f_equal. f_equal.
  destruct (existsb _ _) eqn:Hex.
  - symmetry. apply bool_decide_eq_true_2, existsb_origin, Hex.
  - symmetry. apply bool_decide_eq_false_2. intros Hin.
    apply existsb_origin in Hin. congruence.
Qed.

Lemma update_site_origins o n now sites :
  ConnectedSite.origin <$> update_site o n now sites
  = ConnectedSite.origin <$> sites.
Proof.
  induction sites as [|s l IH]; cbn; [reflexivity|].
  destruct (String.eqb (ConnectedSite.origin s) o); cbn; [reflexivity|].
  f_equal. exact IH.
Qed.

Lemma find_origin_None o (sites : list ConnectedSite.t) :
  find (fun s => String.eqb (ConnectedSite.origin s) o) sites = None
  <-> o ∉ ConnectedSite.origin <$> sites.
Proof.
  induction sites as [|s l IH]; cbn.
  - split; [intros _ H; inversion H | reflexivity].
  - destruct (String.eqb_spec (ConnectedSite.origin s) o) as [Heq|Hne].
    + split; [discriminate|]. intros Hnot. exfalso. apply Hnot. rewrite Heq. left.
    + rewrite IH, not_elem_of_cons. split; [auto | intros [_ H]; exact H].
Qed.

Lemma addConnectedSite_origins now o n st :
  origins (addConnectedSite now o n st).2
  = if bool_decide (o ∈ origins st) then origins st
    else (origins st ++ [o])%list.
Proof.
  unfold addConnectedSite, origins. unfold_storage. unfold_M. cbn.
  destruct (find _ _) eqn:Hfind; cbn.
  - rewrite update_site_origins.
    rewrite bool_decide_eq_true_2; [reflexivity|].
    destruct (decide (o ∈ ConnectedSite.origin <$> default [] (mina_connected_sites st)))
      as [|Hnot]; [assumption|].
    apply find_origin_None in Hnot. congruence.
  - apply find_origin_None in Hfind.
    rewrite bool_decide_eq_false_2 by exact Hfind.
    rewrite fmap_app. reflexivity.
Qed.

Lemma removeConnectedSite_origins o st :
  origins (removeConnectedSite o st).2
  = filter (fun o' => o' <> o) (origins st).
Proof.
  unfold removeConnectedSite, origins. unfold_storage. unfold_M. cbn.
  induction (default [] (mina_connected_sites st)) as [|s l IH]; [reflexivity|].
  rewrite fmap_cons, !filter_cons.
  destruct (String.eqb_spec (ConnectedSite.origin s) o) as [Heq|Hne]; cbn [negb].
  - rewrite decide_False by (intros []).
    rewrite decide_False by (intros H; apply H; exact Heq). exact IH.
  - rewrite decide_True by exact I. rewrite decide_True by exact Hne.
    rewrite fmap_cons. f_equal. exact IH.
Qed.

(** X1. After [addConnectedSite] the origin is connected and its entry
    holds the name and the time of this call; whether any other origin is
    connected does not change; and a list that held each origin once still
    does: connecting again updates the entry in place. *)
Theorem addConnectedSite_connects now o n st :
  (isSiteConnected o (addConnectedSite now o n st).2).1 = Ok true
  /\ (forall o', o' <> o ->
        (isSiteConnected o' (addConnectedSite now o n st).2).1
        = (isSiteConnected o' st).1)
  /\ (NoDup (origins st) -> NoDup (origins (addConnectedSite now o n st).2))
  /\ entry o (addConnectedSite now o n st).2
     = Some (ConnectedSite.Build o n now).
Proof.
  rewrite !isSiteConnected_run. cbn [fst].
  pose proof (addConnectedSite_origins now o n st) as Ho.
  split; [|split; [|split]].
  - f_equal. apply bool_decide_eq_true_2. rewrite Ho.
    case_bool_decide; [assumption|]. apply elem_of_app. right. left.
  - intros o' Hne. rewrite !isSiteConnected_run. cbn [fst]. f_equal.
    apply bool_decide_ext. rewrite Ho.
    case_bool_decide; [reflexivity|].
    rewrite elem_of_app, list_elem_of_singleton. intuition.
  - intros Hnd. rewrite Ho. case_bool_decide; [exact Hnd|].
    apply NoDup_app. split; [exact Hnd|]. split; [|apply NoDup_singleton].
    intros x Hx Hxo. apply list_elem_of_singleton in Hxo. congruence.
  - unfold entry, addConnectedSite. unfold_storage. unfold_M. cbn.
    destruct (find _ _) eqn:Hfind; cbn.
    + clear Ho. induction (default [] (mina_connected_sites st)) as [|s l IH];
        [discriminate|].
      cbn in *. destruct (String.eqb_spec (ConnectedSite.origin s) o) as [Heq|Hne].
      * cbn. rewrite Heq, String.eqb_refl. reflexivity.
      * cbn. destruct (String.eqb_spec (ConnectedSite.origin s) o); [contradiction|].
        apply IH, Hfind.
    + clear Ho. induction (default [] (mina_connected_sites st)) as [|s l IH].
      * cbn. rewrite String.eqb_refl. reflexivity.
      * cbn in *. destruct (String.eqb (ConnectedSite.origin s) o); [discriminate|].
        apply IH, Hfind.
Qed.

Lemma addConnectedSite_connects_witness :
  NoDup (origins
           (addConnectedSite 1700000000500 "https://app.example" "Renamed"
              Scenario.store_with_site).2)
  /\ entry "https://app.example"
       (addConnectedSite 1700000000500 "https://app.example" "Renamed"
          Scenario.store_with_site).2
     = Some (ConnectedSite.Build "https://app.example" "Renamed" 1700000000500).
Proof.
  destruct (addConnectedSite_connects 1700000000500 "https://app.example"
              "Renamed" Scenario.store_with_site) as (_ & _ & Hnd & Hentry).
  split; [|exact Hentry].
  apply Hnd. compute_done.
Defined.

(** X2. After [removeConnectedSite] the origin is not connected, every
    other origin is connected exactly when it was before, removing an
    origin that was not connected leaves the origins as they were, and no
    origin appears twice that did not before. *)
Theorem removeConnectedSite_disconnects o st :
  (isSiteConnected o (removeConnectedSite o st).2).1 = Ok false
  /\ (forall o', o' <> o ->
        (isSiteConnected o' (removeConnectedSite o st).2).1
        = (isSiteConnected o' st).1)
  /\ (o ∉ origins st -> origins (removeConnectedSite o st).2 = origins st)
  /\ (NoDup (origins st) -> NoDup (origins (removeConnectedSite o st).2)).
Proof.
  pose proof (removeConnectedSite_origins o st) as Ho.
  split; [|split; [|split]].
  - rewrite isSiteConnected_run. cbn [fst]. f_equal.
    apply bool_decide_eq_false_2. rewrite Ho, list_elem_of_filter. intuition.
  - intros o' Hne. rewrite !isSiteConnected_run. cbn [fst]. f_equal.
    apply bool_decide_ext. rewrite Ho, list_elem_of_filter. intuition.
  - intros Hnot. rewrite Ho. clear Ho.
    induction (origins st) as [|x l IH]; [reflexivity|].
    apply not_elem_of_cons in Hnot as [Hne Hl].
    rewrite filter_cons, decide_True by congruence. f_equal. apply IH, Hl.
  - intros Hnd. rewrite Ho. apply NoDup_filter, Hnd.
Qed.

Lemma removeConnectedSite_disconnects_witness :
  origins (removeConnectedSite "https://evil.example"
             Scenario.store_with_site).2
  = origins Scenario.store_with_site.
Proof.
  destruct (removeConnectedSite_disconnects "https://evil.example"
              Scenario.store_with_site) as (_ & _ & Hsame & _).
  apply Hsame. compute_done.
Defined.

End StorageFacts.

(* ===================================================================== *)
(** * Properties of the account functions                               *)
(* ===================================================================== *)

Module WalletFacts.
Import Storage Accounts Wallets AccountsFacts.
#[local] Open Scope list_scope.

Lemma getAccounts_run st : getAccounts st = (Ok (stored_accounts st), st).
Proof. reflexivity. Qed.

Lemma stored_indices_accounts st :
  stored_indices st = Account.index <$> stored_accounts st.
Proof.
  unfold stored_indices, stored_accounts, indices.
  destruct (mina_wallet_encrypted st); reflexivity.
Qed.

Lemma find_index_spec i (accounts : list Account.t) :
  match find (fun a => Z.eqb (Account.index a) i) accounts with
  | Some a => Account.index a = i /\ a ∈ accounts
  | None => i ∉ Account.index <$> accounts
  end.
Proof.
  induction accounts as [|b l IH]; cbn; [apply not_elem_of_nil|].
  destruct (Z.eqb_spec (Account.index b) i) as [Heq|Hne].
  - split; [exact Heq | left].
  - destruct (find _ l) as [a|].
    + destruct IH. split; [assumption | right; assumption].
    + apply not_elem_of_cons. split; [congruence | exact IH].
Qed.

Lemma getAccountByIndex_run i st :
  getAccountByIndex i st
  = (Ok (find (fun a => Z.eqb (Account.index a) i) (stored_accounts st)), st).
Proof. reflexivity. Qed.

Lemma find_index_None i (accounts : list Account.t) :
  find (fun a => Z.eqb (Account.index a) i) accounts = None
  <-> i ∉ Account.index <$> accounts.
Proof.
  pose proof (find_index_spec i accounts) as Hfind.
  destruct (find _ _) as [a|]; [|tauto].
  split; [discriminate|]. intros Hnot. exfalso. apply Hnot.
  destruct Hfind as [<- Hin]. apply list_elem_of_fmap. eauto.
Qed.

(** [getAccountByIndex] never throws and never writes. What it returns is
    a stored account that carries the index asked for, and it returns
    [null] exactly when no stored account carries it. *)
Lemma getAccountByIndex_finds i st :
  exists r,
    getAccountByIndex i st = (Ok r, st)
    /\ (forall a, r = Some a -> Account.index a = i /\ a ∈ stored_accounts st)
    /\ (r = None <-> i ∉ stored_indices st).
Proof.
  rewrite getAccountByIndex_run. eexists. split; [reflexivity|].
  rewrite stored_indices_accounts, <- find_index_None.
  pose proof (find_index_spec i (stored_accounts st)) as Hfind.
  destruct (find _ _) as [a|]; [|split; [discriminate | tauto]].
  split; [intros ? [= <-]; exact Hfind | tauto].
Qed.

Lemma getActiveAccount_shape st :
  exists r,
    getActiveAccount st = (Ok r, st)
    /\ (r = None <-> stored_accounts st = [])
    /\ (forall a, r = Some a -> a ∈ stored_accounts st).
Proof.
  unfold getActiveAccount, stored_accounts. unfold_storage. unfold_M. cbn.
  destruct (mina_wallet_encrypted st) as [w|]; cbn.
  - destruct (EncryptedWallet.accounts w) as [|a0 l] eqn:Hacc; cbn.
    + eexists. split; [reflexivity|]. split; [tauto | discriminate].
    + eexists. split; [reflexivity|].
      destruct (at_index (a0 :: l) (EncryptedWallet.activeAccountIndex w))
        as [a|] eqn:Hat.
      * split; [split; discriminate|]. intros ? [= <-].
        unfold at_index in Hat.
        destruct (_ <? 0)%Z; [discriminate|].
        eapply list_elem_of_lookup_2, Hat.
      * split; [split; discriminate|]. intros ? [= <-]. left.
  - eexists. split; [reflexivity|]. split; [tauto | discriminate].
Qed.

(** [getActiveAccount] never throws and never writes. It returns [null]
    exactly when [getAccounts] returns the empty list, and otherwise one
    of the stored accounts. *)
Lemma getActiveAccount_in_list st :
  exists r,
    getActiveAccount st = (Ok r, st)
    /\ (r = None <-> (getAccounts st).1 = Ok [])
    /\ (forall a, r = Some a -> a ∈ stored_accounts st).
Proof.
  destruct (getActiveAccount_shape st) as (r & Hrun & Hnone & Hsome).
  exists r. split; [exact Hrun|]. split; [|exact Hsome].
  rewrite getAccounts_run. cbn. rewrite Hnone.
  split; [intros ->; reflexivity | intros [= ->]; reflexivity].
Qed.

(** ** Selecting *)

Lemma setActiveAccount_run i st :
  setActiveAccount i st =
  match mina_wallet_encrypted st with
  | None => (Throw (Js.Error "No wallet found"), st)
  | Some w =>
      if bool_decide (i ∈ indices w)
      then (Ok tt, store_wallet st (EncryptedWallet.with_activeAccountIndex w i))
      else (Throw (Js.Error ("Account " +:+ pretty i +:+ " not found")), st)
  end.
Proof.
  destruct st as [w n c t]. unfold setActiveAccount. unfold_storage. unfold_M. cbn.
  destruct w as [w|]; [|reflexivity].
  pose proof (find_index_spec i (EncryptedWallet.accounts w)) as Hfind.
  destruct (find _ _) as [a|].
  - rewrite bool_decide_eq_true_2; [reflexivity|].
    destruct Hfind as [<- Hin]. apply list_elem_of_fmap. eauto.
  - rewrite bool_decide_eq_false_2 by exact Hfind. reflexivity.
Qed.

Lemma positional_lookup accounts i :
  positional accounts -> i ∈ Account.index <$> accounts ->
  exists a, at_index accounts i = Some a /\ Account.index a = i.
Proof.
  intros Hpos Hin. apply list_elem_of_fmap in Hin as (a & -> & Ha).
  apply list_elem_of_lookup in Ha as [k Hk].
  exists a. split; [|reflexivity].
  rewrite (Hpos k a Hk). unfold at_index.
  destruct (Z.ltb_spec (Z.of_nat k) 0); [lia|].
  rewrite Nat2Z.id. exact Hk.
Qed.

(** In a wallet whose accounts sit at their indices, [getActiveAccount]
    returns the account the pointer names. *)
Lemma getActiveAccount_positional st w :
  mina_wallet_encrypted st = Some w ->
  positional (EncryptedWallet.accounts w) ->
  active_present w ->
  exists a,
    getActiveAccount st = (Ok (Some a), st)
    /\ Account.index a = EncryptedWallet.activeAccountIndex w
    /\ a ∈ EncryptedWallet.accounts w.
Proof.
  intros Hw Hpos Hact.
  destruct (positional_lookup _ _ Hpos Hact) as (a & Hat & Hidx).
  unfold getActiveAccount. unfold_storage. unfold_M. cbn. rewrite Hw. cbn.
  assert (Hin : a ∈ EncryptedWallet.accounts w).
  { unfold at_index in Hat. destruct (_ <? 0)%Z; [discriminate|].
    eapply list_elem_of_lookup_2, Hat. }
  destruct (EncryptedWallet.accounts w) as [|a0 l] eqn:Hacc; [inversion Hin|].
  cbn. rewrite Hat. eauto.
Qed.

(** X3. [setActiveAccount] throws and writes nothing for an index no
    stored account carries. For an index that is carried it stores the
    wallet with the pointer set to it and nothing else changed; when in
    addition every account sits at the position its index names,
    [getActiveAccount] then returns the account of that index. *)
Theorem setActiveAccount_selects i st :
  (i ∉ stored_indices st ->
   exists e, setActiveAccount i st = (Throw e, st))
  /\ (forall w,
        mina_wallet_encrypted st = Some w -> i ∈ indices w ->
        setActiveAccount i st
        = (Ok tt, store_wallet st (EncryptedWallet.with_activeAccountIndex w i))
        /\ (positional (EncryptedWallet.accounts w) ->
            exists a,
              (getActiveAccount (setActiveAccount i st).2).1 = Ok (Some a)
              /\ Account.index a = i
              /\ a ∈ EncryptedWallet.accounts w)).
Proof.
  split.
  - intros Hnot. rewrite setActiveAccount_run. unfold stored_indices in Hnot.
    destruct (mina_wallet_encrypted st) as [w|]; [|eauto].
    cbn in Hnot. rewrite bool_decide_eq_false_2 by exact Hnot. eauto.
  - intros w Hw Hin. rewrite setActiveAccount_run, Hw.
    rewrite bool_decide_eq_true_2 by exact Hin. split; [reflexivity|].
    intros Hpos. cbn [snd].
    destruct (getActiveAccount_positional
                (store_wallet st (EncryptedWallet.with_activeAccountIndex w i))
                (EncryptedWallet.with_activeAccountIndex w i) eq_refl Hpos Hin)
      as (a & Hrun & Hidx & Ha).
    exists a. rewrite Hrun. auto.
Qed.

Lemma setActiveAccount_selects_witness :
  exists a,
    (getActiveAccount (setActiveAccount 0 Sample.two_account_store).2).1
    = Ok (Some a)
    /\ Account.index a = 0.
Proof.
  destruct (setActiveAccount_selects 0 Sample.two_account_store) as [_ Hsel].
  destruct (Hsel Scenario.two_account_wallet eq_refl) as [_ Hactive].
  { compute_done. }
  destruct Hactive as (a & Hget & Hindex & _).
  { intros [|[|k]] b Hlook; vm_compute in Hlook;
      [injection Hlook as <-; reflexivity
      |injection Hlook as <-; reflexivity
      |discriminate Hlook]. }
  exists a. split; [exact Hget | exact Hindex].
Defined.

(** ** Positions and indices *)

Lemma positional_maxIndex accounts :
  positional accounts -> maxIndex accounts + 1 = Z.of_nat (length accounts).
Proof.
  unfold maxIndex.
  enough (H : forall l pre m,
             positional (pre ++ l) -> m = Z.of_nat (length pre) - 1 ->
             fold_left (fun max a => Z.max max (Account.index a)) l m + 1
             = Z.of_nat (length (pre ++ l))).
  { intros Hpos. apply (H accounts [] (-1)); [exact Hpos | reflexivity]. }
  induction l as [|a l IH]; intros pre m Hpos ->.
  - rewrite app_nil_r. cbn. lia.
  - cbn [fold_left].
    assert (Ha : Account.index a = Z.of_nat (length pre)).
    { apply Hpos. rewrite lookup_app_r by lia. rewrite Nat.sub_diag. reflexivity. }
    replace (pre ++ a :: l) with ((pre ++ [a]) ++ l) in * by (rewrite <- app_assoc; reflexivity).
    apply IH; [exact Hpos|]. rewrite length_app. cbn. lia.
Qed.

Lemma positional_snoc accounts a :
  positional accounts -> Account.index a = Z.of_nat (length accounts) ->
  positional (accounts ++ [a]).
Proof.
  intros Hpos Ha k b Hk.
  destruct (decide (k < length accounts)%nat) as [Hlt|Hge].
  - rewrite lookup_app_l in Hk by exact Hlt. apply Hpos, Hk.
  - rewrite lookup_app_r in Hk by lia.
    destruct (k - length accounts)%nat as [|n] eqn:Hd; cbn in Hk; [|discriminate].
    injection Hk as <-. rewrite Ha. f_equal. lia.
Qed.

Lemma rename_first_lookup i n accounts k a :
  rename_first i n accounts !! k = Some a ->
  exists b, accounts !! k = Some b /\ Account.index b = Account.index a.
Proof.
  revert k. induction accounts as [|b l IH]; intros k; cbn; [discriminate|].
  destruct (Account.index b =? i)%Z.
  - destruct k; cbn; [intros [= <-]; eauto | eauto].
  - destruct k; cbn; [intros [= <-]; eauto | apply IH].
Qed.

Lemma perform_positional hex b58 op st :
  removes_account op = false ->
  store_positional st -> store_positional (perform hex b58 op st).2.
Proof.
  intros Hrm Hpos.
  destruct (adds_account op) eqn:Hadd.
  { destruct (perform hex b58 op st) as [r st'] eqn:Hrun. cbn [snd].
    destruct r as [[a|]|e].
    - destruct (adds_account_success _ _ _ _ _ _ Hadd Hrun) as (w & Hw & Hidx & ->).
      unfold store_positional, stored_accounts in *. rewrite Hw in Hpos. cbn in *.
      apply positional_snoc; [exact Hpos|].
      rewrite Hidx. apply positional_maxIndex, Hpos.
    - rewrite (adds_account_failure _ _ _ _ _ _ Hadd Hrun) by discriminate. exact Hpos.
    - rewrite (adds_account_failure _ _ _ _ _ _ Hadd Hrun) by discriminate. exact Hpos. }
  destruct op; try discriminate Hadd; try discriminate Hrm; clear Hadd Hrm.
  - destruct st as [w n c t]. unfold perform. unfold_accounts. unfold_storage. unfold_M.
    destruct generated as [kp|e]; cbn; [|exact Hpos].
    intros k a Hk. destruct k; cbn in Hk; [|discriminate]. injection Hk as <-. reflexivity.
  - destruct st as [w n c t]. unfold perform. unfold_accounts. unfold_storage. unfold_M.
    destruct generated as [kp|e]; cbn; [|exact Hpos].
    intros k a Hk. destruct k; cbn in Hk; [|discriminate]. injection Hk as <-. reflexivity.
  - unfold perform. unfold M.bind at 1. rewrite setActiveAccount_run.
    destruct (mina_wallet_encrypted st) as [w|] eqn:Hw; [|exact Hpos].
    case_bool_decide; [|exact Hpos].
    unfold store_positional, stored_accounts in *. rewrite Hw in Hpos. exact Hpos.
  - destruct st as [w n c t]. unfold perform. unfold_accounts. unfold_storage. unfold_M.
    cbn. destruct w as [w|]; [|exact Hpos].
    destruct (find _ _); cbn; [|exact Hpos].
    unfold store_positional, stored_accounts in *. cbn in *.
    intros k a Hk. apply rename_first_lookup in Hk as (b & Hb & <-).
    apply Hpos, Hb.
  - destruct st as [w n c t]. cbn. intros k a Hk. discriminate.
Qed.

Lemma perform_all_positional hex b58 ops : forall st,
  Forall (fun op => removes_account op = false) ops ->
  store_positional st -> store_positional (perform_all hex b58 st ops).
Proof.
  induction ops as [|op ops IH]; intros st Hops Hpos; [exact Hpos|].
  apply Forall_cons in Hops as [Hop Hops]. cbn.
  apply IH; [exact Hops|]. apply perform_positional; assumption.
Qed.

(** X4. In a wallet built from an empty store by any sequence of wallet
    creations, account creations, imports, renamings, selections and
    resets, none of them a deletion, [getActiveAccount] returns the
    account whose index is the stored [activeAccountIndex]. *)
Theorem getActiveAccount_follows_pointer hex b58 ops w :
  Forall (fun op => removes_account op = false) ops ->
  mina_wallet_encrypted (perform_all hex b58 empty_store ops) = Some w ->
  exists a,
    getActiveAccount (perform_all hex b58 empty_store ops)
    = (Ok (Some a), perform_all hex b58 empty_store ops)
    /\ Account.index a = EncryptedWallet.activeAccountIndex w
    /\ a ∈ EncryptedWallet.accounts w.
Proof.
  intros Hops Hw.
  assert (Hpos : store_positional (perform_all hex b58 empty_store ops)).
  { apply perform_all_positional; [exact Hops|]. intros k a Hk. discriminate. }
  assert (Hok : store_ok (perform_all hex b58 empty_store ops)).
  { apply perform_all_store_ok. intros w' Hw'. discriminate. }
  unfold store_positional, stored_accounts in Hpos. rewrite Hw in Hpos.
  destruct (Hok w Hw) as (_ & Hact & _).
  apply getActiveAccount_positional; assumption.
Qed.

Lemma getActiveAccount_follows_pointer_witness :
  exists a,
    getActiveAccount
      (perform_all Sample.keypairFromSecretKeyHex Sample.keypairFromBase58
         empty_store Scenario.selections)
    = (Ok (Some a),
       perform_all Sample.keypairFromSecretKeyHex Sample.keypairFromBase58
         empty_store Scenario.selections)
    /\ Account.index a = 0.
Proof.
  destruct (getActiveAccount_follows_pointer Sample.keypairFromSecretKeyHex
              Sample.keypairFromBase58 Scenario.selections
              Scenario.selected_wallet)
    as (a & Hget & Hindex & _).
  - repeat constructor.
  - reflexivity.
  - exists a. split; [exact Hget | exact Hindex].
Defined.

(** ** Renaming *)

Lemma rename_first_fields i n accounts :
  Account.address <$> rename_first i n accounts = Account.address <$> accounts
  /\ Account.publicKeyHex <$> rename_first i n accounts
     = Account.publicKeyHex <$> accounts
  /\ length (rename_first i n accounts) = length accounts.
Proof.
  induction accounts as [|a l (IH1 & IH2 & IH3)]; cbn; [auto|].
  destruct (Account.index a =? i)%Z; cbn; [auto|].
  rewrite IH1, IH2, IH3. auto.
Qed.

Lemma rename_first_find i n accounts a :
  find (fun a => Z.eqb (Account.index a) i) accounts = Some a ->
  find (fun a => Z.eqb (Account.index a) i) (rename_first i n accounts)
  = Some (Account.with_name a n).
Proof.
  induction accounts as [|b l IH]; cbn; [discriminate|].
  destruct (Account.index b =? i)%Z eqn:Hb; cbn.
  - intros [= <-]. cbn. rewrite Hb. reflexivity.
  - rewrite Hb. exact IH.
Qed.

Lemma rename_first_others i n accounts a :
  a ∈ accounts -> Account.index a <> i -> a ∈ rename_first i n accounts.
Proof.
  induction accounts as [|b l IH]; intros Hin Hne; [inversion Hin|].
  cbn. apply elem_of_cons in Hin as [->|Hin].
  - apply Z.eqb_neq in Hne. rewrite Hne. left.
  - destruct (Account.index b =? i)%Z; right; auto.
Qed.

(** X5. [renameAccount] throws and writes nothing for an index no stored
    account carries. Otherwise the account of that index gets the new name
    and keeps its other fields, and the indices, the addresses, the active
    pointer and every account of another index stay as they were. *)
Theorem renameAccount_renames i newName st :
  (i ∉ stored_indices st ->
   exists e, renameAccount i newName st = (Throw e, st))
  /\ (i ∈ stored_indices st ->
      exists st' a,
        renameAccount i newName st = (Ok tt, st')
        /\ (getAccountByIndex i st).1 = Ok (Some a)
        /\ (getAccountByIndex i st').1 = Ok (Some (Account.with_name a newName))
        /\ stored_indices st' = stored_indices st
        /\ Account.address <$> stored_accounts st'
           = Account.address <$> stored_accounts st
        /\ (EncryptedWallet.activeAccountIndex <$> mina_wallet_encrypted st')
           = (EncryptedWallet.activeAccountIndex <$> mina_wallet_encrypted st)
        /\ (forall b, b ∈ stored_accounts st -> Account.index b <> i ->
                      b ∈ stored_accounts st')).
Proof.
  destruct st as [w n c t].
  unfold renameAccount, getAccountByIndex, getAccounts, stored_indices,
    stored_accounts, indices.
  unfold_storage. unfold_M. cbn.
  destruct w as [w|]; cbn.
  - pose proof (find_index_spec i (EncryptedWallet.accounts w)) as Hfind.
    destruct (find _ _) as [a|] eqn:Hf; cbn.
    + split.
      * intros Hnot. exfalso. apply Hnot. destruct Hfind as [<- Hin].
        apply list_elem_of_fmap. eauto.
      * intros _. eexists _, a. split; [reflexivity|]. split; [reflexivity|].
        split; [cbn; rewrite (rename_first_find _ _ _ _ Hf); reflexivity|].
        split; [apply rename_first_indices|].
        split; [apply rename_first_fields|].
        split; [reflexivity|].
        intros b Hb Hne. apply rename_first_others; assumption.
    + split; [eauto|]. intros Hin. contradiction.
  - split; [eauto|]. intros Hin. inversion Hin.
Qed.

Lemma renameAccount_renames_witness :
  exists st' a,
    renameAccount 1 "Savings" Sample.two_account_store = (Ok tt, st')
    /\ (getAccountByIndex 1 st').1
       = Ok (Some (Account.with_name a "Savings")).
Proof.
  destruct (renameAccount_renames 1 "Savings" Sample.two_account_store)
    as [_ Hren].
  destruct Hren as (st' & a & Hrun & _ & Hget & _).
  { compute_done. }
  exists st', a. split; [exact Hrun | exact Hget].
Defined.

(** ** Importing a private key *)

Section KeyImport.
Variable hex b58 : string -> Result Keypair.t.

Lemma find_address_spec addr (accounts : list Account.t) :
  match find (fun a => String.eqb (Account.address a) addr) accounts with
  | Some _ => addr ∈ Account.address <$> accounts
  | None => addr ∉ Account.address <$> accounts
  end.
Proof.
  induction accounts as [|b l IH]; cbn; [apply not_elem_of_nil|].
  destruct (String.eqb_spec (Account.address b) addr) as [Heq|Hne].
  - rewrite Heq. left.
  - destruct (find _ l); [right; exact IH|].
    apply not_elem_of_cons. split; [congruence | exact IH].
Qed.

Lemma importAccountFromPrivateKey_run key name st :
  importAccountFromPrivateKey hex b58 key name st =
  match mina_wallet_encrypted st with
  | None => (Throw (Js.Error "No wallet found"), st)
  | Some w =>
      match parse_key hex b58 key with
      | Throw e => (Throw e, st)
      | Ok kp =>
          if bool_decide (Keypair.address kp
                          ∈ Account.address <$> EncryptedWallet.accounts w)
          then (Throw (Js.Error "Account already exists"), st)
          else
            let i := maxIndex (EncryptedWallet.accounts w) + 1 in
            let a :=
              Account.Build i (default ("Imported " +:+ pretty (i + 1)) name)
                (Keypair.address kp) (Keypair.publicKeyHex kp) in
            (Ok a, store_wallet st (pushed w a))
      end
  end.
Proof.
  destruct st as [w n c t].
  unfold importAccountFromPrivateKey, parse_key. unfold_storage. unfold_M. cbn.
  destruct w as [w|]; [|reflexivity].
  destruct (String.length key =? 64)%nat;
    [destruct (hex key) as [kp|e] | destruct (b58 key) as [kp|e]];
    cbn; try reflexivity;
    pose proof (find_address_spec (Keypair.address kp) (EncryptedWallet.accounts w)) as Hf;
    (destruct (find _ _);
     [rewrite bool_decide_eq_true_2 by exact Hf
     |rewrite bool_decide_eq_false_2 by exact Hf]; reflexivity).
Qed.

(** X6. [importAccountFromPrivateKey] parses a key of 64 characters as hex
    and any other as base58. A key the parser refuses, or whose address a
    stored account already has, makes it throw and write nothing; when it
    succeeds the new account is appended with the address and public key
    of the parsed keypair, so addresses that were pairwise distinct stay
    so. *)
Theorem importAccountFromPrivateKey_refuses_duplicates key name st :
  (forall w kp,
      mina_wallet_encrypted st = Some w ->
      parse_key hex b58 key = Ok kp ->
      Keypair.address kp ∈ Account.address <$> stored_accounts st ->
      importAccountFromPrivateKey hex b58 key name st
      = (Throw (Js.Error "Account already exists"), st))
  /\ (forall e,
        parse_key hex b58 key = Throw e ->
        exists e', importAccountFromPrivateKey hex b58 key name st = (Throw e', st))
  /\ (forall a st',
        importAccountFromPrivateKey hex b58 key name st = (Ok a, st') ->
        exists kp,
          parse_key hex b58 key = Ok kp
          /\ Account.address a = Keypair.address kp
          /\ Account.publicKeyHex a = Keypair.publicKeyHex kp
          /\ stored_accounts st' = stored_accounts st ++ [a]
          /\ (NoDup (Account.address <$> stored_accounts st) ->
              NoDup (Account.address <$> stored_accounts st'))).
Proof.
  rewrite importAccountFromPrivateKey_run. unfold stored_accounts.
  split; [|split].
  - intros w kp -> -> Hin. cbn in Hin.
    rewrite bool_decide_eq_true_2 by exact Hin. reflexivity.
  - intros e ->. destruct (mina_wallet_encrypted st); eauto.
  - intros a st' Hrun.
    destruct (mina_wallet_encrypted st) as [w|] eqn:Hw; [|discriminate].
    destruct (parse_key hex b58 key) as [kp|e]; [|discriminate].
    case_bool_decide as Hdup; [discriminate|].
    cbn in Hrun. injection Hrun as <- <-. exists kp. cbn.
    split; [reflexivity|]. split; [reflexivity|]. split; [reflexivity|].
    split; [reflexivity|].
    intros Hnd. rewrite fmap_app. apply NoDup_app.
    split; [exact Hnd|]. split; [|apply NoDup_singleton].
    intros x Hx Hxa. cbn in Hxa. apply list_elem_of_singleton in Hxa. congruence.
Qed.

End KeyImport.

Lemma importAccountFromPrivateKey_refuses_duplicates_witness :
  importAccountFromPrivateKey Sample.keypairFromSecretKeyHex
    Sample.keypairFromBase58 Scenario.hex_key None Scenario.imported_store
  = (Throw (Js.Error "Account already exists"), Scenario.imported_store).
Proof.
  apply (proj1 (importAccountFromPrivateKey_refuses_duplicates
                  Sample.keypairFromSecretKeyHex Sample.keypairFromBase58
                  Scenario.hex_key None Scenario.imported_store)
               Scenario.imported_wallet Sample.second_keypair).
  - reflexivity.
  - reflexivity.
  - compute_done.
Defined.

(** ** Creating the wallet *)

(** X7. [createWalletFromMnemonic] does not look at the password. When the
    key generator fails it rethrows and writes nothing; otherwise it
    replaces whatever wallet was stored by one that holds the mnemonic as
    given and exactly one account, of index 0, active, with the address of
    the generated keypair, and leaves the connected sites and the network
    alone. *)
Theorem createWalletFromMnemonic_replaces generated mnemonic password st :
  (forall password',
      createWalletFromMnemonic generated mnemonic password st
      = createWalletFromMnemonic generated mnemonic password' st)
  /\ (forall e, generated = Throw e ->
        createWalletFromMnemonic generated mnemonic password st = (Throw e, st))
  /\ (forall kp, generated = Ok kp ->
        exists a st',
          createWalletFromMnemonic generated mnemonic password st = (Ok a, st')
          /\ stored_accounts st' = [a]
          /\ Account.index a = 0
          /\ Account.address a = Keypair.address kp
          /\ (EncryptedWallet.encryptedMnemonic <$> mina_wallet_encrypted st')
             = Some mnemonic
          /\ (EncryptedWallet.activeAccountIndex <$> mina_wallet_encrypted st')
             = Some 0
          /\ (getActiveAccount st').1 = Ok (Some a)
          /\ mina_connected_sites st' = mina_connected_sites st
          /\ mina_active_network st' = mina_active_network st).
Proof.
  split; [reflexivity|]. split.
  - intros e ->. reflexivity.
  - intros kp ->. destruct st as [w n c t].
    eexists _, _. split; [cbv; reflexivity|]. repeat split.
Qed.

Lemma createWalletFromMnemonic_replaces_witness :
  exists a st',
    createWalletFromMnemonic (Ok Sample.second_keypair) "zoo zone" "pw"
      Sample.two_account_store = (Ok a, st')
    /\ stored_accounts st' = [a]
    /\ Account.address a = "B62qimported".
Proof.
  destruct (createWalletFromMnemonic_replaces (Ok Sample.second_keypair)
              "zoo zone" "pw" Sample.two_account_store) as (_ & _ & Hok).
  destruct (Hok Sample.second_keypair eq_refl)
    as (a & st' & Hrun & Hone & _ & Haddr & _).
  exists a, st'. split; [exact Hrun|]. split; [exact Hone | exact Haddr].
Defined.

(** ** Deleting *)

Lemma NoDup_lookup_delete {A} (l : list A) k x :
  NoDup l -> l !! k = Some x -> x ∉ delete k l.
Proof.
  revert k. induction l as [|y l IH]; intros k Hnd Hk; [discriminate|].
  apply NoDup_cons in Hnd as [Hy Hnd].
  destruct k as [|k]; cbn in *.
  - injection Hk as ->. exact Hy.
  - apply not_elem_of_cons. split; [|eapply IH; eassumption].
    intros ->. apply Hy. eapply list_elem_of_lookup_2, Hk.
Qed.

(** X8. A [deleteAccount] that succeeds removes exactly one account and
    keeps the others in their order, so every other index is still
    present. When the indices were pairwise distinct the deleted index is
    gone: [getAccountByIndex] returns [null] for it and deleting it again
    throws. *)
Theorem deleteAccount_removes i st st' :
  deleteAccount i st = (Ok tt, st') ->
  (length (stored_accounts st') + 1 = length (stored_accounts st))%nat
  /\ stored_accounts st' `sublist_of` stored_accounts st
  /\ (forall j, j ∈ stored_indices st -> j <> i -> j ∈ stored_indices st')
  /\ (NoDup (stored_indices st) ->
      (i ∉ stored_indices st')
      /\ (getAccountByIndex i st').1 = Ok None
      /\ exists e, deleteAccount i st' = (Throw e, st')).
Proof.
  intros Hrun. rewrite deleteAccount_run in Hrun.
  destruct (mina_wallet_encrypted st) as [w|] eqn:Hw; [|discriminate].
  destruct (Nat.leb_spec (length (EncryptedWallet.accounts w)) 1) as [|Hlen];
    [discriminate|].
  destruct (findIndex i (EncryptedWallet.accounts w)) as [k|] eqn:Hk; [|discriminate].
  injection Hrun as <-.
  apply findIndex_Some in Hk as [Hk _].
  assert (Hklt : (k < length (EncryptedWallet.accounts w))%nat).
  { apply lookup_lt_Some in Hk. rewrite length_fmap in Hk. exact Hk. }
  set (st' := store_wallet st (deleted i k w)).
  assert (Hacc' : stored_accounts st' = delete k (EncryptedWallet.accounts w))
    by reflexivity.
  assert (Hacc : stored_accounts st = EncryptedWallet.accounts w)
    by (unfold stored_accounts; rewrite Hw; reflexivity).
  rewrite !stored_indices_accounts, Hacc, Hacc'.
  assert (Hgone : NoDup (Account.index <$> EncryptedWallet.accounts w) ->
                  i ∉ Account.index <$> delete k (EncryptedWallet.accounts w)).
  { intros Hnd. rewrite list_fmap_delete. apply NoDup_lookup_delete; assumption. }
  split; [|split; [|split]].
  - rewrite length_delete by (apply lookup_lt_is_Some_2; exact Hklt). lia.
  - apply sublist_delete.
  - intros j Hj Hne. rewrite list_fmap_delete.
    eapply elem_of_delete_other; [exact Hk | exact Hne | exact Hj].
  - intros Hnd. specialize (Hgone Hnd). split; [exact Hgone|]. split.
    + rewrite getAccountByIndex_run, Hacc'. cbn. f_equal.
      apply find_index_None, Hgone.
    + rewrite deleteAccount_run.
      change (mina_wallet_encrypted st') with (Some (deleted i k w)).
      cbv beta iota.
      destruct (Nat.leb _ 1); [eauto|].
      change (EncryptedWallet.accounts (deleted i k w))
        with (delete k (EncryptedWallet.accounts w)).
      apply findIndex_None in Hgone. rewrite Hgone. eauto.
Qed.

Lemma deleteAccount_removes_witness :
  (1 ∉ stored_indices (deleteAccount 1 Sample.three_account_store).2)
  /\ (2 ∈ stored_indices (deleteAccount 1 Sample.three_account_store).2).
Proof.
  destruct (deleteAccount_removes 1 Sample.three_account_store
              (deleteAccount 1 Sample.three_account_store).2 eq_refl)
    as (_ & _ & Hkeep & Hgone).
  split.
  - apply Hgone. compute_done.
  - apply Hkeep; [|discriminate].
    compute_done.
Defined.

End WalletFacts.

(* ===================================================================== *)
(** * Properties of the two dispatchers                                 *)
(* ===================================================================== *)

Module DispatchFacts.
Import Background Dispatch Sites Wallets.
#[local] Open Scope list_scope.

Lemma connected_origins_origins s : connected_origins s = origins (storage s).
Proof. reflexivity. Qed.

(** X9. The trusted dispatcher answers every message: [handleMessage]
    never rejects, [sendResponse] is called with what it returns, and the
    store afterwards carries the time of this message as
    [mina_last_activity], whatever the action was and however it ended. *)
Theorem handleMessage_always_answers host message s :
  exists response s',
    handleMessage host message s = (Ok response, s')
    /\ onMessage host message s = (response, s')
    /\ mina_last_activity (storage s') = Some (now host).
Proof.
  unfold onMessage.
  destruct s as [u m [w n c a]].
  destruct message; run_worker; repeat case_inner;
    eexists _, _; repeat split.
Qed.

(** X10. The actions that read or answer a constant ([hasWallet],
    [isLocked], [getAccounts], [getActiveAccount], [getNetwork],
    [getConnectedSites], [isConnected], [getBalance], [getTransactions],
    [exportPrivateKey], the four signing and sending stubs, and any
    unknown action) change nothing but the activity stamp: session,
    wallet, network and connected sites are as before. *)
Theorem reads_only_changes_nothing host message s :
  reads_only message = true ->
  (onMessage host message s).2 = touched (now host) s.
Proof.
  intros Hro. destruct s as [u m [w n c a]].
  destruct message; try discriminate Hro; run_worker; repeat case_inner;
    reflexivity.
Qed.

Lemma reads_only_changes_nothing_witness :
  (onMessage Sample.host Action.getAccounts Sample.unlocked_with_site).2
  = touched (now Sample.host) Sample.unlocked_with_site.
Proof.
  apply (reads_only_changes_nothing Sample.host Action.getAccounts
           Sample.unlocked_with_site).
  reflexivity.
Defined.

(** X11. Apart from [isLocked], [createAccount], [exportPrivateKey] and
    [connectSite], no action of the trusted dispatcher depends on the
    session: the answer and the store it leaves are the same whether the
    wallet is locked or unlocked and whatever mnemonic is held. *)
Theorem ungated_ignores_session host message u m u' m' st :
  ungated message = true ->
  (onMessage host message (mkState u m st)).1
  = (onMessage host message (mkState u' m' st)).1
  /\ storage (onMessage host message (mkState u m st)).2
     = storage (onMessage host message (mkState u' m' st)).2.
Proof.
  intros Hun. destruct st as [w n c a].
  destruct message; try discriminate Hun; run_worker; repeat case_inner;
    split; reflexivity.
Qed.

Lemma ungated_ignores_session_witness :
  (onMessage Sample.host (Action.setActiveAccount 0)
     (mkState false None Sample.two_account_store)).1
  = (onMessage Sample.host (Action.setActiveAccount 0)
       (mkState true (Some Sample.mnemonic) Sample.two_account_store)).1.
Proof.
  apply (ungated_ignores_session Sample.host (Action.setActiveAccount 0)
           false None true (Some Sample.mnemonic) Sample.two_account_store).
  reflexivity.
Defined.

(** X12. [setActiveAccount] and [renameAccount] for an index no stored
    account carries are answered with [{ success: false, error }], the
    error being that of the account function ([No wallet found] without a
    wallet, [Account i not found] otherwise), and change nothing but the
    activity stamp.  The index is a safe integer (at most [2^53 - 1] in
    absolute value), which the template literal prints digit by digit;
    nothing is said of the text for the other numbers. *)
Theorem missing_account_is_answered host i name s :
  Js.safe_integer i = true ->
  i ∉ Accounts.stored_indices (storage s) ->
  let error :=
    if bool_decide (mina_wallet_encrypted (storage s) = None)
    then "No wallet found"
    else "Account " +:+ pretty i +:+ " not found" in
  onMessage host (Action.setActiveAccount i) s
  = (Response.failure error, touched (now host) s)
  /\ onMessage host (Action.renameAccount i name) s
     = (Response.failure error, touched (now host) s).
Proof.
  intros _ Hnot. destruct s as [u m [w n c a]].
  unfold Accounts.stored_indices in Hnot. cbn in Hnot.
  destruct w as [w|]; cbn in Hnot.
  - pose proof (WalletFacts.find_index_spec i (EncryptedWallet.accounts w)) as Hf.
    run_worker. destruct (find _ _) as [acc|].
    + exfalso. apply Hnot. destruct Hf as [<- Hin]. apply list_elem_of_fmap. eauto.
    + split; reflexivity.
  - split; reflexivity.
Qed.

Lemma missing_account_is_answered_witness :
  (onMessage Sample.host (Action.setActiveAccount 7)
     Sample.unlocked_with_site).1
  = Response.failure "Account 7 not found".
Proof.
  destruct (missing_account_is_answered Sample.host 7 "Spare"
              Sample.unlocked_with_site) as [Hset _].
  { reflexivity. }
  { compute_done. }
  rewrite Hset. reflexivity.
Defined.

(** X13. [importWallet] behaves as [createWallet]. When the key generator
    fails the failure is the answer and nothing but the activity stamp
    changes; otherwise the session is unlocked and holds the mnemonic, the
    store holds the one new account, and [hasWallet], [isLocked] and
    [getActiveAccount] answer accordingly. *)
Theorem createWallet_unlocks host mnemonic password s :
  onMessage host (Action.importWallet mnemonic password) s
  = onMessage host (Action.createWallet mnemonic password) s
  /\ (forall e, generateKeypair host = Throw e ->
        onMessage host (Action.createWallet mnemonic password) s
        = (Response.failure (Js.message_of e), touched (now host) s))
  /\ (forall kp, generateKeypair host = Ok kp ->
        exists account s',
          onMessage host (Action.createWallet mnemonic password) s
          = (Response.success_account account, s')
          /\ isUnlocked s' = true
          /\ _decryptedMnemonic s' = Some mnemonic
          /\ stored_accounts (storage s') = [account]
          /\ Account.address account = Keypair.address kp
          /\ (onMessage host Action.hasWallet s').1 = Response.hasWallet true
          /\ (onMessage host Action.isLocked s').1 = Response.isLocked false
          /\ (onMessage host Action.getActiveAccount s').1
             = Response.account (Some account)).
Proof.
  destruct s as [u m [w n c a]]. split; [reflexivity|]. split.
  - intros e He. run_worker. rewrite He. reflexivity.
  - intros kp Hkp. run_worker. rewrite Hkp. cbn.
    eexists _, _. split; [reflexivity|]. repeat split.
Qed.

Lemma createWallet_unlocks_witness :
  exists account s',
    onMessage Sample.host (Action.createWallet Sample.mnemonic "pw")
      (start empty_store)
    = (Response.success_account account, s')
    /\ isUnlocked s' = true
    /\ Account.address account = "B62qsample".
Proof.
  destruct (createWallet_unlocks Sample.host Sample.mnemonic "pw"
              (start empty_store)) as (_ & _ & Hok).
  destruct (Hok Sample.keypair eq_refl)
    as (account & s' & Hrun & Hunlocked & _ & _ & Haddr & _).
  exists account, s'. split; [exact Hrun|].
  split; [exact Hunlocked | exact Haddr].
Defined.

(** ** The external dispatcher *)

Lemma lift_isSiteConnected o s :
  lift (Storage.isSiteConnected o) s
  = (Ok (bool_decide (o ∈ connected_origins s)), s).
Proof.
  unfold lift. rewrite StorageFacts.isSiteConnected_run.
  destruct s; reflexivity.
Qed.

Lemma lift_getActiveAccount s :
  exists r,
    lift Accounts.getActiveAccount s = (Ok r, s)
    /\ active_addresses (storage s)
       = match r with Some a => [Account.address a] | None => [] end.
Proof.
  destruct (WalletFacts.getActiveAccount_shape (storage s)) as (r & Hrun & _).
  exists r. unfold lift, active_addresses. rewrite Hrun.
  destruct s; split; reflexivity.
Qed.

Lemma requestAccounts_run o s :
  handleExternalMessage "mina_requestAccounts" o s
  = (Ok (if negb (bool_decide (o ∈ connected_origins s))
         then External.error "User rejected connection"
         else if negb (isUnlocked s) then External.error "Wallet is locked"
         else External.accounts (active_addresses (storage s))), s).
Proof.
  destruct (lift_getActiveAccount s) as (r & Hact & Haddr).
  unfold handleExternalMessage. cbn [String.eqb Ascii.eqb Bool.eqb].
  unfold M.bind at 1. rewrite lift_isSiteConnected.
  destruct (bool_decide _); cbn [negb]; [|reflexivity].
  unfold M.bind at 1, M.gets.
  destruct (isUnlocked s); cbn [negb]; [|reflexivity].
  unfold M.bind, M.ret. rewrite Hact, Haddr. reflexivity.
Qed.

Lemma accounts_run o s :
  handleExternalMessage "mina_accounts" o s
  = (Ok (External.accounts
           (if bool_decide (o ∈ connected_origins s) && isUnlocked s
            then active_addresses (storage s) else [])), s).
Proof.
  destruct (lift_getActiveAccount s) as (r & Hact & Haddr).
  unfold handleExternalMessage. cbn [String.eqb Ascii.eqb Bool.eqb].
  unfold M.bind at 1. rewrite lift_isSiteConnected.
  unfold M.bind at 1, M.gets.
  destruct (bool_decide _), (isUnlocked s); cbn [negb orb andb]; try reflexivity.
  unfold M.bind, M.ret. rewrite Hact, Haddr. reflexivity.
Qed.

Lemma active_network_id st network :
  (Storage.getActiveNetwork st).1 = Ok network ->
  Network.id network
  = match mina_active_network st with
    | Some networkId =>
        if bool_decide (is_Some (NETWORKS networkId))
        then networkId else "mainnet"
    | None => "mainnet"
    end.
Proof.
  destruct st as [w n c a]. unfold Storage.getActiveNetwork. unfold_M. cbn.
  intros Heq. injection Heq as <-.
  destruct n as [networkId|]; [|reflexivity]. cbn. unfold NETWORKS.
  destruct (String.eqb_spec networkId "mainnet") as [->|_]; [reflexivity|].
  destruct (String.eqb_spec networkId "devnet") as [->|_]; reflexivity.
Qed.

Lemma other_method_run action origin s :
  action <> "mina_requestAccounts" -> action <> "mina_accounts" ->
  exists response,
    handleExternalMessage action origin s = (Ok response, s)
    /\ (forall l, response <> External.accounts l)
    /\ (action <> "mina_getBalance" -> action <> "mina_chainId" ->
        response = External.error ("Unknown method: " +:+ action))
    /\ (action = "mina_getBalance" -> response = External.balance "0")
    /\ (action = "mina_chainId" ->
        exists network,
          (Storage.getActiveNetwork (storage s)).1 = Ok network
          /\ response = External.chainId (Network.id network)).
Proof.
  intros H1 H2. unfold handleExternalMessage.
  apply String.eqb_neq in H1, H2. rewrite H1, H2.
  destruct (String.eqb_spec action "mina_getBalance") as [->|H3].
  { eexists. split; [reflexivity|]. split; [discriminate|].
    split; [congruence|]. split; [reflexivity | discriminate]. }
  destruct (String.eqb_spec action "mina_chainId") as [->|H4].
  { destruct s as [u m [w n c a]]. eexists. split; [reflexivity|].
    split; [discriminate|]. split; [congruence|]. split; [discriminate|].
    intros _. eexists. split; reflexivity. }
  eexists. split; [reflexivity|]. split; [discriminate|].
  split; [reflexivity|]. split; congruence.
Qed.

Lemma active_addresses_shape st :
  (length (active_addresses st) <= 1)%nat
  /\ (forall address, address ∈ active_addresses st ->
        address ∈ Account.address <$> stored_accounts st)
  /\ (active_addresses st = [] <-> stored_accounts st = []).
Proof.
  unfold active_addresses.
  destruct (WalletFacts.getActiveAccount_shape st) as (r & -> & Hnone & Hsome).
  cbn [fst]. destruct r as [a|].
  - split; [cbn; lia|]. split.
    + intros address Ha. apply list_elem_of_singleton in Ha as ->.
      apply list_elem_of_fmap. exists a. split; [reflexivity | apply Hsome; reflexivity].
    + split; [discriminate|]. intros Hnil. apply Hnone in Hnil. discriminate.
  - split; [cbn; lia|]. split; [intros ? H; inversion H|].
    split; [intros _; apply Hnone; reflexivity | reflexivity].
Qed.

(** X14. The page-facing dispatcher never rejects and never changes the
    session or the store. A method other than its four is answered with
    [Unknown method] and [mina_getBalance] with the balance 0.  When the
    stored network id is not a name inherited from [Object.prototype]
    (a store [switchNetwork] leaves for the ids [mainnet] and [devnet],
    and any store it never wrote), [mina_chainId] is answered with the id
    of the active network: the stored id when it is a key of the network
    table, and [mainnet] otherwise.  Nothing is said of the chain id
    answered over a store that holds an inherited name. *)
Theorem handleExternalMessage_only_reads action origin s :
  exists response,
    handleExternalMessage action origin s = (Ok response, s)
    /\ (action <> "mina_requestAccounts" -> action <> "mina_accounts" ->
        action <> "mina_getBalance" -> action <> "mina_chainId" ->
        response = External.error ("Unknown method: " +:+ action))
    /\ (action = "mina_getBalance" -> response = External.balance "0")
    /\ (action = "mina_chainId" ->
        Storage.plain_network (storage s) = true ->
        exists network,
          (Storage.getActiveNetwork (storage s)).1 = Ok network
          /\ response = External.chainId (Network.id network)
          /\ Network.id network
             = match mina_active_network (storage s) with
               | Some networkId =>
                   if bool_decide (is_Some (NETWORKS networkId))
                   then networkId else "mainnet"
               | None => "mainnet"
               end).
Proof.
  destruct (decide (action = "mina_requestAccounts")) as [->|H1].
  { rewrite requestAccounts_run. eexists. split; [reflexivity|].
    split; [congruence|]. split; discriminate. }
  destruct (decide (action = "mina_accounts")) as [->|H2].
  { rewrite accounts_run. eexists. split; [reflexivity|].
    split; [congruence|]. split; discriminate. }
  destruct (other_method_run action origin s H1 H2)
    as (r & Hrun & _ & Hunknown & Hbal & Hchain).
  exists r. split; [exact Hrun|]. split; [intros _ _; exact Hunknown|].
  split; [exact Hbal|].
  intros Haction _. destruct (Hchain Haction) as (network & Hnet & Hr).
  exists network. split; [exact Hnet|]. split; [exact Hr|].
  apply active_network_id, Hnet.
Qed.

Lemma handleExternalMessage_only_reads_witness :
  Storage.plain_network (storage Sample.unlocked_with_site) = true
  /\ handleExternalMessage "mina_chainId" "https://app.example"
       Sample.unlocked_with_site
     = (Ok (External.chainId "mainnet"), Sample.unlocked_with_site).
Proof.
  split; [reflexivity|].
  destruct (handleExternalMessage_only_reads "mina_chainId"
              "https://app.example" Sample.unlocked_with_site)
    as (response & Hrun & _ & _ & Hchain).
  destruct (Hchain eq_refl eq_refl) as (network & _ & Hr & Hid).
  rewrite Hrun, Hr, Hid. reflexivity.
Defined.

(** X15. For a connected origin, both account methods answer with the
    address of the active account when the wallet is unlocked; locked,
    [mina_requestAccounts] answers [Wallet is locked] and [mina_accounts]
    the empty list. The address list has at most one entry, taken from the
    stored accounts, and is empty exactly when no account is stored. *)
Theorem connected_origin_answers sender s :
  sender_origin sender ∈ connected_origins s ->
  (isUnlocked s = false ->
   onMessageExternal "mina_requestAccounts" sender s
   = (External.error "Wallet is locked", s)
   /\ onMessageExternal "mina_accounts" sender s = (External.accounts [], s))
  /\ (isUnlocked s = true ->
      onMessageExternal "mina_requestAccounts" sender s
      = (External.accounts (active_addresses (storage s)), s)
      /\ onMessageExternal "mina_accounts" sender s
         = (External.accounts (active_addresses (storage s)), s))
  /\ (length (active_addresses (storage s)) <= 1)%nat
  /\ (forall address, address ∈ active_addresses (storage s) ->
        address ∈ Account.address <$> stored_accounts (storage s))
  /\ (active_addresses (storage s) = [] <-> stored_accounts (storage s) = []).
Proof.
  intros Hin. unfold onMessageExternal.
  rewrite requestAccounts_run, accounts_run.
  rewrite bool_decide_eq_true_2 by exact Hin. cbn [negb andb].
  split; [intros ->; split; reflexivity|].
  split; [intros ->; split; reflexivity|].
  apply active_addresses_shape.
Qed.

Lemma connected_origin_answers_witness :
  onMessageExternal "mina_requestAccounts" Scenario.app_page
    Sample.unlocked_with_site
  = (External.accounts (active_addresses (storage Sample.unlocked_with_site)),
     Sample.unlocked_with_site).
Proof.
  destruct (connected_origin_answers Scenario.app_page
              Sample.unlocked_with_site) as (_ & Hunlocked & _).
  { compute_done. }
  apply Hunlocked. reflexivity.
Defined.

(** X16. Whenever the page-facing listener answers with a non-empty
    account list, the wallet is unlocked, the origin of the sender is
    connected, the method is one of the two account methods, and the list
    is the single address of a stored account. *)
Theorem addresses_only_when_connected_and_unlocked action sender s address l :
  (onMessageExternal action sender s).1 = External.accounts (address :: l) ->
  isUnlocked s = true
  /\ sender_origin sender ∈ connected_origins s
  /\ (action = "mina_requestAccounts" \/ action = "mina_accounts")
  /\ l = []
  /\ address ∈ Account.address <$> stored_accounts (storage s).
Proof.
  intros Hresp. unfold onMessageExternal in Hresp.
  assert (Hcases : action = "mina_requestAccounts" \/ action = "mina_accounts").
  { destruct (decide (action = "mina_requestAccounts")) as [|H1]; [auto|].
    destruct (decide (action = "mina_accounts")) as [|H2]; [auto|].
    exfalso.
    destruct (other_method_run action (sender_origin sender) s H1 H2)
      as (r & Hrun & Hnot & _).
    rewrite Hrun in Hresp. cbn in Hresp. exact (Hnot _ Hresp). }
  assert (Hgate : bool_decide (sender_origin sender ∈ connected_origins s) = true
                  /\ isUnlocked s = true
                  /\ address :: l = active_addresses (storage s)).
  { destruct Hcases as [->| ->].
    - rewrite requestAccounts_run in Hresp. cbn in Hresp.
      destruct (bool_decide _); cbn in Hresp; [|discriminate].
      destruct (isUnlocked s); cbn in Hresp; [|discriminate].
      injection Hresp as <-. auto.
    - rewrite accounts_run in Hresp. cbn in Hresp.
      destruct (bool_decide _), (isUnlocked s); cbn in Hresp;
        injection Hresp as Hl; try discriminate. auto. }
  destruct Hgate as (Hconn & Hun & Hl).
  apply bool_decide_eq_true_1 in Hconn.
  destruct (active_addresses_shape (storage s)) as (Hlen & Hmem & _).
  rewrite <- Hl in Hlen, Hmem.
  split; [exact Hun|]. split; [exact Hconn|]. split; [exact Hcases|].
  split; [destruct l; [reflexivity | cbn in Hlen; lia]|].
  apply Hmem. left.
Qed.

Lemma addresses_only_when_connected_and_unlocked_witness :
  isUnlocked Sample.unlocked_with_site = true
  /\ (sender_origin Scenario.app_page
       ∈ connected_origins Sample.unlocked_with_site).
Proof.
  destruct (addresses_only_when_connected_and_unlocked "mina_accounts"
              Scenario.app_page Sample.unlocked_with_site "B62qsample" []
              eq_refl) as (Hunlocked & Hconnected & _).
  split; [exact Hunlocked | exact Hconnected].
Defined.

(** X17. In an unlocked session, [connectSite] for the origin of a sender
    makes [mina_requestAccounts] from that sender answer with the active
    address; a following [disconnectSite] makes it answer [User rejected
    connection] and [mina_accounts] answer the empty list again, with the
    session still unlocked and the wallet untouched. *)
Theorem connectSite_then_disconnectSite host host' name sender s :
  isUnlocked s = true ->
  let origin := sender_origin sender in
  let connected := (onMessage host (Action.connectSite origin name) s).2 in
  let disconnected := (onMessage host' (Action.disconnectSite origin) connected).2 in
  (onMessage host (Action.connectSite origin name) s).1 = Response.success
  /\ (onMessageExternal "mina_requestAccounts" sender connected).1
     = External.accounts (active_addresses (storage s))
  /\ (onMessage host' (Action.disconnectSite origin) connected).1
     = Response.success
  /\ (onMessageExternal "mina_requestAccounts" sender disconnected).1
     = External.error "User rejected connection"
  /\ (onMessageExternal "mina_accounts" sender disconnected).1
     = External.accounts []
  /\ isUnlocked disconnected = true
  /\ mina_wallet_encrypted (storage disconnected)
     = mina_wallet_encrypted (storage s).
Proof.
  intros Hun origin connected disconnected.
  destruct s as [u m [w n c a]]. cbn in Hun. subst u.
  assert (Hc : connected
               = mkState true m
                   (Storage.addConnectedSite (now_connect host) origin name
                      (mkStore w n c (Some (now host)))).2) by reflexivity.
  assert (Hd : disconnected
               = mkState true m
                   (Storage.removeConnectedSite origin
                      (mkStore w n (mina_connected_sites (storage connected))
                               (Some (now host')))).2) by reflexivity.
  split; [reflexivity|].
  split.
  { unfold onMessageExternal. rewrite requestAccounts_run.
    rewrite bool_decide_eq_true_2.
    - rewrite Hc. cbn [negb isUnlocked fst].
      f_equal. unfold active_addresses.
      unfold Accounts.getActiveAccount. unfold_storage. unfold_M. cbn.
      destruct w as [w|]; [|reflexivity].
      destruct (EncryptedWallet.accounts w); reflexivity.
    - rewrite Hc, connected_origins_origins. cbn [storage].
      pose proof (StorageFacts.addConnectedSite_origins
                    (now_connect host) origin name
                    (mkStore w n c (Some (now host)))) as Ho.
      rewrite Ho. case_bool_decide; [assumption|].
      apply elem_of_app. right. left. }
  split; [reflexivity|].
  assert (Hnot : origin ∉ connected_origins disconnected).
  { rewrite Hd, connected_origins_origins. cbn [storage].
    rewrite StorageFacts.removeConnectedSite_origins, list_elem_of_filter.
    intuition. }
  unfold onMessageExternal. rewrite requestAccounts_run, accounts_run.
  rewrite bool_decide_eq_false_2 by exact Hnot.
  repeat split.
Qed.

Lemma connectSite_then_disconnectSite_witness :
  (onMessageExternal "mina_requestAccounts" Sample.stranger
     (onMessage Sample.host
        (Action.connectSite (sender_origin Sample.stranger) "Evil")
        Sample.unlocked_with_site).2).1
  = External.accounts (active_addresses (storage Sample.unlocked_with_site)).
Proof.
  destruct (connectSite_then_disconnectSite Sample.host Sample.host "Evil"
              Sample.stranger Sample.unlocked_with_site eq_refl)
    as (_ & Hconnected & _).
  exact Hconnected.
Defined.
(** X18. [switchNetwork] with an id of the network table succeeds and is
    what [getNetwork] and [mina_chainId] answer with afterwards; the
    session, the wallet and the connected sites are not touched. *)
Theorem switchNetwork_round_trip host host' networkId network sender s :
  NETWORKS networkId = Some network ->
  let s1 := (onMessage host (Action.switchNetwork networkId) s).2 in
  (onMessage host (Action.switchNetwork networkId) s).1 = Response.success
  /\ (onMessage host' Action.getNetwork s1).1 = Response.network network
  /\ (onMessageExternal "mina_chainId" sender s1).1
     = External.chainId networkId
  /\ isUnlocked s1 = isUnlocked s
  /\ _decryptedMnemonic s1 = _decryptedMnemonic s
  /\ mina_wallet_encrypted (storage s1) = mina_wallet_encrypted (storage s)
  /\ mina_connected_sites (storage s1) = mina_connected_sites (storage s).
Proof.
  intros Hnet.
  assert (Hid : Network.id network = networkId).
  { unfold NETWORKS in Hnet.
    destruct (String.eqb_spec networkId "mainnet") as [->|_];
      [injection Hnet as <-; reflexivity|].
    destruct (String.eqb_spec networkId "devnet") as [->|_];
      [injection Hnet as <-; reflexivity|discriminate]. }
  assert (Hin : in_NETWORKS networkId = true).
  { unfold in_NETWORKS. rewrite Hnet. reflexivity. }
  unfold onMessage, onMessageExternal, handleMessage, handleExternalMessage.
  unfold_worker. unfold_storage. unfold_M. cbn.
  rewrite Hin. cbn. rewrite Hnet. cbn. rewrite Hid. repeat split.
Qed.

Lemma switchNetwork_round_trip_witness :
  (onMessageExternal "mina_chainId" Sample.stranger
     (onMessage Sample.host (Action.switchNetwork "devnet")
        Sample.locked_with_wallet).2).1
  = External.chainId "devnet".
Proof.
  destruct (switchNetwork_round_trip Sample.host Sample.host "devnet" devnet
              Sample.stranger Sample.locked_with_wallet eq_refl)
    as (_ & _ & Hchain & _).
  exact Hchain.
Defined.

End DispatchFacts.

(* ===================================================================== *)
(** * Properties of the event emitter and the timers                    *)
(* ===================================================================== *)

Module EmitterFacts.
Import Inpage Emitter InpageFacts.
#[local] Open Scope nat_scope.
#[local] Open Scope list_scope.

Lemma set_add_elem x l : x ∈ set_add x l.
Proof.
  unfold set_add. case_bool_decide; [assumption|].
  apply elem_of_app. right. left.
Qed.

Lemma set_add_NoDup x l : NoDup l -> NoDup (set_add x l).
Proof.
  intros Hnd. unfold set_add. case_bool_decide as Hin; [exact Hnd|].
  apply NoDup_app. split; [exact Hnd|]. split; [|apply NoDup_singleton].
  intros y Hy Hyx. apply list_elem_of_singleton in Hyx. congruence.
Qed.

Lemma set_add_idem x l : set_add x (set_add x l) = set_add x l.
Proof.
  unfold set_add at 1. rewrite bool_decide_eq_true_2; [reflexivity|].
  apply set_add_elem.
Qed.

Lemma set_delete_elem x y l : y ∈ set_delete x l <-> y ∈ l /\ y <> x.
Proof.
  unfold set_delete. rewrite list_elem_of_filter.
  destruct (Nat.eqb_spec y x); cbn; intuition.
Qed.

Lemma set_delete_NoDup x l : NoDup l -> NoDup (set_delete x l).
Proof. apply NoDup_filter. Qed.

Lemma listeners_on event cb pg e' :
  listeners e' (on event cb pg)
  = if decide (e' = event) then set_add cb (listeners event pg)
    else listeners e' pg.
Proof.
  unfold listeners, on.
  destruct (decide (e' = event)) as [->|Hne].
  - case_bool_decide as Hs; cbn.
    + rewrite lookup_alter_eq. destruct Hs as [l Hl]. rewrite Hl. reflexivity.
    + rewrite lookup_alter_eq, lookup_insert_eq.
      destruct (events pg !! event) eqn:Hl; [exfalso; apply Hs; eauto|].
      reflexivity.
  - case_bool_decide as Hs; cbn.
    + rewrite lookup_alter_ne by congruence. reflexivity.
    + rewrite lookup_alter_ne, lookup_insert_ne by congruence. reflexivity.
Qed.

Lemma listeners_off event cb pg e' :
  listeners e' (off event cb pg)
  = if decide (e' = event) then set_delete cb (listeners event pg)
    else listeners e' pg.
Proof.
  unfold listeners, off. cbn.
  destruct (decide (e' = event)) as [->|Hne].
  - rewrite lookup_alter_eq. destruct (events pg !! event); reflexivity.
  - rewrite lookup_alter_ne by congruence. reflexivity.
Qed.

(** X19. [on] registers a callback and [off] removes it; both leave the
    other callbacks of the event and the listeners of other events alone,
    and registering a callback that is registered already changes nothing.
    *)
Theorem on_off_listeners event cb pg :
  (cb ∈ listeners event (on event cb pg))
  /\ (cb ∉ listeners event (off event cb pg))
  /\ (forall other, other <> cb ->
        (other ∈ listeners event (on event cb pg) <-> other ∈ listeners event pg)
        /\ (other ∈ listeners event (off event cb pg)
            <-> other ∈ listeners event pg))
  /\ (forall e', e' <> event ->
        listeners e' (on event cb pg) = listeners e' pg
        /\ listeners e' (off event cb pg) = listeners e' pg)
  /\ listeners event (on event cb (on event cb pg))
     = listeners event (on event cb pg)
  /\ (cb ∈ listeners event pg -> listeners event (on event cb pg) = listeners event pg).
Proof.
  split; [|split; [|split; [|split; [|split]]]].
  - rewrite listeners_on, decide_True by reflexivity. apply set_add_elem.
  - rewrite listeners_off, decide_True by reflexivity.
    rewrite set_delete_elem. intuition.
  - intros other Hne.
    rewrite listeners_on, listeners_off, !decide_True by reflexivity.
    rewrite set_delete_elem. unfold set_add.
    case_bool_decide; [intuition|].
    rewrite elem_of_app, list_elem_of_singleton. intuition.
  - intros e' Hne. rewrite listeners_on, listeners_off, !decide_False by exact Hne.
    auto.
  - rewrite !listeners_on, !decide_True by reflexivity. apply set_add_idem.
  - intros Hin. rewrite listeners_on, decide_True by reflexivity.
    unfold set_add. rewrite bool_decide_eq_true_2 by exact Hin. reflexivity.
Qed.

Lemma on_off_listeners_witness :
  listeners "ready" (on "ready" 7 (run initial Sample.prelude))
  = listeners "ready" (run initial Sample.prelude).
Proof.
  destruct (on_off_listeners "ready" 7 (run initial Sample.prelude))
    as (_ & _ & _ & _ & _ & Hsame).
  apply Hsame. compute_done.
Defined.

Lemma listeners_core pg pg' event :
  events pg' = events pg -> listeners event pg' = listeners event pg.
Proof. unfold listeners. intros ->. reflexivity. Qed.

Lemma events_fire_all fire : forall pg, events (fire_all fire pg) = events pg.
Proof.
  induction fire as [|tm fire IH]; intros pg; [reflexivity|].
  rewrite fire_all_cons, IH. unfold onTimeout. case_bool_decide; reflexivity.
Qed.

Lemma events_step_other e pg :
  (forall event cb, e <> On event cb) -> (forall event cb, e <> Off event cb) ->
  events (step pg e) = events pg.
Proof.
  intros Hon Hoff. destruct e; cbn [step].
  - reflexivity.
  - unfold onWindowMessage.
    destruct fromWindow; cbn; [|reflexivity].
    destruct (Js.is_str _ "MINA_PROVIDER_RESPONSE").
    + destruct (pending_get _ pg); [|reflexivity].
      unfold pending_delete.
      destruct (Js.get message "id"), (Js.truthy _);
        try destruct (Js.to_string _); reflexivity.
    + destruct (Js.is_str _ "MINA_PROVIDER_READY"); [|reflexivity].
      unfold emit. destruct (events pg !! "ready"); reflexivity.
  - unfold elapse. rewrite events_fire_all. reflexivity.
  - exfalso. eapply Hon. reflexivity.
  - exfalso. eapply Hoff. reflexivity.
  - reflexivity.
Qed.

Lemma step_listeners_NoDup e pg :
  (forall event, NoDup (listeners event pg)) ->
  forall event, NoDup (listeners event (step pg e)).
Proof.
  intros Hnd event.
  destruct e as [| | |ev cb|ev cb|];
    try (rewrite (listeners_core pg);
         [apply Hnd | apply events_step_other; discriminate]).
  - cbn [step]. rewrite listeners_on. case_decide; [|apply Hnd].
    apply set_add_NoDup, Hnd.
  - cbn [step]. rewrite listeners_off. case_decide; [|apply Hnd].
    apply set_delete_NoDup, Hnd.
Qed.

Lemma run_listeners_NoDup es : forall pg,
  (forall event, NoDup (listeners event pg)) ->
  forall event, NoDup (listeners event (run pg es)).
Proof.
  induction es as [|e es IH]; intros pg Hnd; [exact Hnd|].
  rewrite run_cons. apply IH, step_listeners_NoDup, Hnd.
Qed.

(** X20. However the page got to its state, the listeners of ['ready']
    hold no callback twice, and a [MINA_PROVIDER_READY] envelope from the
    window calls exactly these, each once, in registration order, without
    touching the pending requests, the settlements, the posted messages or
    the registrations. From another source the envelope does nothing. *)
Theorem ready_calls_each_listener_once es message :
  Js.is_str (Js.get message "type") "MINA_PROVIDER_READY" = true ->
  let pg := run initial es in
  NoDup (listeners "ready" pg)
  /\ called (onWindowMessage true message pg) = called pg ++ listeners "ready" pg
  /\ pendingRequests (onWindowMessage true message pg) = pendingRequests pg
  /\ settled (onWindowMessage true message pg) = settled pg
  /\ posted (onWindowMessage true message pg) = posted pg
  /\ events (onWindowMessage true message pg) = events pg
  /\ onWindowMessage false message pg = pg.
Proof.
  intros Hready pg.
  split.
  { apply run_listeners_NoDup. intros event. unfold listeners. cbn.
    rewrite lookup_empty. constructor. }
  apply is_str_true in Hready.
  unfold onWindowMessage, emit, listeners. rewrite Hready. cbn.
  destruct (events pg !! "ready"); cbn; rewrite ?app_nil_r; repeat split.
Qed.

Lemma ready_calls_each_listener_once_witness :
  called (onWindowMessage true Scenario.ready (run initial Scenario.listening))
  = called (run initial Scenario.listening)
    ++ listeners "ready" (run initial Scenario.listening).
Proof.
  destruct (ready_calls_each_listener_once Scenario.listening Scenario.ready
              eq_refl) as (_ & Hcalled & _).
  exact Hcalled.
Defined.

(** ** No posted request outlives its timer *)

Lemma fire_all_removes fire : forall pg tm,
  tm ∈ fire -> pendingRequests (fire_all fire pg) !! timer_id tm = None.
Proof.
  induction fire as [|tm' fire IH]; intros pg tm Hin; [inversion Hin|].
  rewrite fire_all_cons. apply elem_of_cons in Hin as [->|Hin]; [|apply IH, Hin].
  destruct (pendingRequests (fire_all fire (onTimeout tm' pg)) !! timer_id tm')
    as [pr|] eqn:Hlook; [|reflexivity].
  destruct (fire_all_frame fire (onTimeout tm' pg)) as (_ & _ & _ & Hsub).
  apply Hsub in Hlook. unfold onTimeout in Hlook.
  case_bool_decide as Hs.
  - cbn in Hlook. rewrite lookup_delete_eq in Hlook. discriminate.
  - exfalso. apply Hs. eauto.
Qed.

Lemma refused_cons e es : refused (e :: es) = refused [e] ++ refused es.
Proof. destruct e; reflexivity. Qed.

Lemma refused_app es1 es2 : refused (es1 ++ es2) = refused es1 ++ refused es2.
Proof.
  induction es1 as [|e es1 IH]; [reflexivity|].
  rewrite <- app_comm_cons, (refused_cons e (es1 ++ es2)), (refused_cons e es1),
    IH.
  apply app_assoc.
Qed.

Lemma armed_mono R R' pg : R ⊆ R' -> armed R pg -> armed R' pg.
Proof.
  intros Hsub Ha id Hsome. destruct (Ha id Hsome) as [Hin|Htm]; [|right; exact Htm].
  left. apply Hsub, Hin.
Qed.

Lemma armed_step R e pg : armed R pg -> armed (R ++ refused [e]) (step pg e).
Proof.
  intros Harmed.
  destruct e; cbn [step refused]; rewrite ?app_nil_r.
  - intros id' Hsome. unfold request in *. cbn in *.
    destruct (decide (uuid = id')) as [->|Hne].
    + right. eexists. split; [apply elem_of_app; right; left|]. cbn.
      split; [reflexivity|lia].
    + rewrite lookup_insert_ne in Hsome by exact Hne.
      destruct (Harmed id' Hsome) as [Hin|(tm & Hin & Hid & Hd)];
        [left; exact Hin|].
      right. exists tm. split; [apply elem_of_app; left; exact Hin|]. auto.
  - destruct fromWindow;
      [|intros id' Hsome; apply Harmed, Hsome].
    destruct (Js.is_str (Js.get message "type") "MINA_PROVIDER_RESPONSE") eqn:Htype.
    + destruct (pending_get (Js.get message "id") pg) as [pr|] eqn:Hget.
      * apply pending_get_Some in Hget as (id' & Hkey & Hpend).
        rewrite (onWindowMessage_response _ _ _ _ Htype Hkey Hpend).
        destruct (settle_if_core (promise pr) (settlement_of message)
                    (with_pendingRequests pg (delete id' (pendingRequests pg))))
          as (Hp & Ht & _ & Hc & _).
        intros id'' Hsome. rewrite Hp in Hsome. rewrite Ht, Hc. cbn in *.
        destruct Hsome as [x Hx]. apply lookup_delete_Some in Hx as [_ Hx].
        apply (Harmed id'' (ex_intro _ x Hx)).
      * destruct (onWindowMessage_other true message pg) as (Hp & Ht & _ & Hc & _);
          [auto|].
        intros id' Hsome. unfold armed in Harmed.
        rewrite Hp in Hsome. rewrite Ht, Hc. apply Harmed, Hsome.
    + destruct (onWindowMessage_other true message pg) as (Hp & Ht & _ & Hc & _);
        [auto|].
      intros id' Hsome. rewrite Hp in Hsome. rewrite Ht, Hc. apply Harmed, Hsome.
  - intros id' Hsome. unfold elapse in *.
    set (t := (clock pg + dt)%N) in *.
    set (fire := filter (fun tm => is_due t tm) (timers pg)) in *.
    set (pg1 := with_timers _ _) in *.
    destruct (fire_all_frame fire pg1) as (Ht & Hc & _ & Hsub).
    rewrite Ht, Hc. cbn.
    destruct Hsome as [pr Hpr]. pose proof (Hsub _ _ Hpr) as Hold. cbn in Hold.
    destruct (Harmed id' (ex_intro _ pr Hold)) as [Hin|(tm & Hin & Hid & Hd)];
      [left; exact Hin|].
    right. destruct (is_due t tm) eqn:Hdue.
    + exfalso.
      assert (Hf : tm ∈ fire) by (apply list_elem_of_filter; split;
                                  [apply Is_true_true, Hdue | exact Hin]).
      pose proof (fire_all_removes fire pg1 tm Hf) as Hnone.
      rewrite Hid in Hnone. congruence.
    + exists tm. split; [|split; [exact Hid | unfold t; lia]].
      apply list_elem_of_filter. split; [|exact Hin].
      apply Is_true_true. rewrite Hdue. reflexivity.
  - destruct (on_core event callback pg) as (Hp & Ht & _ & Hc & _).
    intros id' Hsome. rewrite Hp in Hsome. rewrite Ht, Hc. apply Harmed, Hsome.
  - intros id' Hsome. apply Harmed, Hsome.
  - intros id' Hsome. unfold request_refused in *. cbn in *.
    destruct (decide (uuid = id')) as [->|Hne].
    + left. apply elem_of_app. right. left.
    + rewrite lookup_insert_ne in Hsome by exact Hne.
      destruct (Harmed id' Hsome) as [Hin|Htm]; [|right; exact Htm].
      left. apply elem_of_app. left. exact Hin.
Qed.

Lemma armed_run es : forall R pg, armed R pg -> armed (R ++ refused es) (run pg es).
Proof.
  induction es as [|e es IH]; intros R pg Ha.
  - cbn. rewrite app_nil_r. exact Ha.
  - rewrite run_cons, (refused_cons e es), app_assoc. apply IH, armed_step, Ha.
Qed.

Lemma armed_initial : armed [] initial.
Proof.
  intros id [x Hx]. cbn in Hx. rewrite lookup_empty in Hx. discriminate.
Qed.

Lemma armed_drained R pg dt id :
  armed R pg -> (REQUEST_TIMEOUT <= dt)%N ->
  is_Some (pendingRequests (elapse dt pg) !! id) -> id ∈ R.
Proof.
  intros Ha Hdt [pr Hpr]. unfold elapse in Hpr.
  set (t := (clock pg + dt)%N) in *.
  set (fire := filter (fun tm => is_due t tm) (timers pg)) in *.
  set (pg1 := with_timers _ _) in *.
  destruct (fire_all_frame fire pg1) as (_ & _ & _ & Hsub).
  pose proof (Hsub _ _ Hpr) as Hold. cbn in Hold.
  destruct (Ha id (ex_intro _ pr Hold)) as [Hin|(tm & Hin & Hid & Hd)];
    [exact Hin|].
  exfalso.
  assert (Hf : tm ∈ fire).
  { apply list_elem_of_filter. split; [|exact Hin].
    apply Is_true_true. unfold is_due. apply N.leb_le. unfold t. lia. }
  pose proof (fire_all_removes fire pg1 tm Hf) as Hnone.
  rewrite Hid in Hnone. congruence.
Qed.

(** ** A request that was not posted stays *)

Lemma onTimeout_leaked id p l tm pg :
  timer_id tm <> id -> timer_promise tm <> p ->
  leaked id p l pg -> leaked id p l (onTimeout tm pg).
Proof.
  intros Hid Hp (Hpend & Hset & Htm & Hmap & Hlt).
  unfold onTimeout. case_bool_decide; [|repeat split; assumption].
  unfold leaked. rewrite settlements_settle_other by exact Hp. cbn.
  rewrite lookup_delete_ne by exact Hid.
  repeat split; try assumption.
  intros id' pr Hlook Hpr. apply lookup_delete_Some in Hlook as [_ Hlook].
  eapply Hmap; eassumption.
Qed.

Lemma fire_all_leaked id p l fire : forall pg,
  Forall (fun tm => timer_id tm <> id /\ timer_promise tm <> p) fire ->
  leaked id p l pg -> leaked id p l (fire_all fire pg).
Proof.
  induction fire as [|tm fire IH]; intros pg Hfire Hl; [exact Hl|].
  apply Forall_cons in Hfire as [[Hid Hp] Hfire]. rewrite fire_all_cons.
  apply IH; [exact Hfire|]. apply onTimeout_leaked; assumption.
Qed.

Lemma leaked_core id p l pg pg' :
  pendingRequests pg' = pendingRequests pg ->
  timers pg' = timers pg ->
  nextPromise pg' = nextPromise pg ->
  settled pg' = settled pg ->
  leaked id p l pg -> leaked id p l pg'.
Proof.
  intros Hp Ht Hn Hs. unfold leaked, settlements. rewrite Hp, Ht, Hn, Hs. auto.
Qed.

Lemma step_leaked id p l e pg :
  id ∉ uuids [e] -> answers id e = false ->
  leaked id p l pg -> leaked id p l (step pg e).
Proof.
  intros Hfresh Hans Hl. destruct e; cbn [step].
  - assert (Hne : uuid <> id) by (intros ->; apply Hfresh; left).
    destruct Hl as (Hpend & Hset & Htm & Hmap & Hlt).
    unfold request, leaked. cbn.
    rewrite lookup_insert_ne by exact Hne.
    split; [exact Hpend|]. split; [exact Hset|]. split; [|split; [|lia]].
    + apply Forall_app. split; [exact Htm|]. apply Forall_singleton. cbn.
      split; [exact Hne | lia].
    + intros id' pr Hlook Hpr.
      apply lookup_insert_Some in Hlook as [[_ <-]|[_ Hlook]].
      * cbn in Hpr. lia.
      * eapply Hmap; eassumption.
  - destruct fromWindow;
      [|eapply leaked_core; try apply onWindowMessage_other; auto].
    destruct (Js.is_str (Js.get message "type") "MINA_PROVIDER_RESPONSE") eqn:Htype;
      [|eapply leaked_core; try apply onWindowMessage_other; auto].
    destruct (pending_get (Js.get message "id") pg) as [pr|] eqn:Hget;
      [|eapply leaked_core; try apply onWindowMessage_other; auto].
    apply pending_get_Some in Hget as (id' & Hkey & Hpend').
    rewrite (onWindowMessage_response _ _ _ _ Htype Hkey Hpend').
    cbn in Hans. rewrite Htype, Hkey in Hans. cbn in Hans.
    apply String.eqb_neq in Hans.
    destruct Hl as (Hpend & Hset & Htm & Hmap & Hlt).
    assert (Hpr : promise pr <> p).
    { intros Heq. apply Hans. eapply Hmap; eassumption. }
    unfold leaked. rewrite settlements_settle_if_other by exact Hpr.
    destruct (settle_if_core (promise pr) (settlement_of message)
                (with_pendingRequests pg (delete id' (pendingRequests pg))))
      as (-> & -> & -> & _).
    cbn. rewrite lookup_delete_ne by exact Hans.
    repeat split; try assumption.
    intros id'' pr' Hlook Hpr'. apply lookup_delete_Some in Hlook as [_ Hlook].
    eapply Hmap; eassumption.
  - unfold elapse. apply fire_all_leaked.
    + apply Forall_filtered. apply Hl.
    + destruct Hl as (Hpend & Hset & Htm & Hmap & Hlt).
      unfold leaked. cbn. repeat split; try assumption.
      apply Forall_filtered, Htm.
  - eapply leaked_core; try apply on_core. exact Hl.
  - eapply leaked_core; try reflexivity. exact Hl.
  - assert (Hne : uuid <> id) by (intros ->; apply Hfresh; left).
    destruct Hl as (Hpend & Hset & Htm & Hmap & Hlt).
    unfold request_refused, leaked. cbn [snd].
    rewrite settlements_settle_other by lia. cbn.
    rewrite lookup_insert_ne by exact Hne.
    split; [exact Hpend|]. split; [exact Hset|]. split; [exact Htm|].
    split; [|lia].
    intros id' pr Hlook Hpr.
    apply lookup_insert_Some in Hlook as [[_ <-]|[_ Hlook]].
    + cbn in Hpr. lia.
    + eapply Hmap; eassumption.
Qed.

Lemma run_leaked id p l es : forall pg,
  id ∉ uuids es -> Forall (fun e => answers id e = false) es ->
  leaked id p l pg -> leaked id p l (run pg es).
Proof.
  induction es as [|e es IH]; intros pg Hfresh Hans Hl; [exact Hl|].
  rewrite (uuids_cons e es) in Hfresh.
  apply not_elem_of_app in Hfresh as [He Hes].
  apply Forall_cons in Hans as [Hae Haes]. rewrite run_cons.
  apply IH; [exact Hes | exact Haes | apply step_leaked; assumption].
Qed.

Lemma refused_leaked used id err pg :
  bounded used pg -> id ∉ used ->
  leaked id (nextPromise pg) [Rejected err] (request_refused id err pg).2.
Proof.
  intros Hb Hfresh.
  pose proof (settlements_bounded used (nextPromise pg) pg Hb (Nat.le_refl _))
    as Hnone.
  destruct Hb as (Hp & Ht & Hs).
  unfold leaked, request_refused. cbn [snd].
  rewrite settlements_settle. cbn.
  rewrite lookup_insert_eq.
  split; [reflexivity|]. split.
  { unfold settlements in *. cbn. rewrite Hnone.
    destruct (decide (nextPromise pg = nextPromise pg));
      [reflexivity | contradiction]. }
  split; [|split; [|lia]].
  - eapply Forall_impl; [exact Ht|]. intros tm [Hid Hlt].
    split; [intros Heq; apply Hfresh; rewrite <- Heq; exact Hid | lia].
  - intros id' pr Hlook Hpr.
    apply lookup_insert_Some in Hlook as [[Heq _]|[_ Hlook]]; [congruence|].
    destruct (Hp id' pr Hlook). lia.
Qed.

(** X21. No posted request stays pending past its timeout: once 60
    seconds or more pass in one stretch, the ids still in the pending map
    are ids of requests that were registered and not posted, because
    [window.postMessage] threw; without such a request the map is empty.
    Such a request has no timer: its promise was rejected with what was
    thrown, and as long as no response envelope bears its id, the id stays
    in the map whatever time passes. *)
Theorem pending_drained_after_timeout es dt :
  (REQUEST_TIMEOUT <= dt)%N ->
  let pg := run initial (es ++ [Elapse dt]) in
  (forall id, is_Some (pendingRequests pg !! id) -> id ∈ refused es)
  /\ (refused es = [] -> pendingRequests pg = ∅)
  /\ (forall es1 id err es2,
        es = es1 ++ RequestRefused id err :: es2 ->
        id ∉ uuids (es1 ++ es2) ->
        Forall (fun e => answers id e = false) es2 ->
        pendingRequests pg !! id
        = Some (mkPending (nextPromise (run initial es1)))
        /\ settlements (nextPromise (run initial es1)) pg = [Rejected err]).
Proof.
  intros Hdt pg.
  assert (Hdrain : forall id,
             is_Some (pendingRequests pg !! id) -> id ∈ refused es).
  { intros id Hsome. unfold pg in Hsome. rewrite run_app in Hsome.
    cbn [run fold_left step] in Hsome.
    apply (armed_drained ([] ++ refused es) (run initial es) dt id);
      [apply armed_run, armed_initial | exact Hdt | exact Hsome]. }
  split; [exact Hdrain|]. split.
  - intros Hnone. apply map_eq. intros id. rewrite lookup_empty.
    destruct (pendingRequests pg !! id) as [pr|] eqn:Hpr; [|reflexivity].
    exfalso. specialize (Hdrain id (ex_intro _ pr Hpr)).
    rewrite Hnone in Hdrain. inversion Hdrain.
  - intros es1 id err es2 -> Hfresh Hans.
    rewrite uuids_app in Hfresh.
    apply not_elem_of_app in Hfresh as [Hfresh1 Hfresh2].
    assert (Hb : bounded (uuids es1) (run initial es1)).
    { apply (run_bounded es1 [] initial), bounded_initial. }
    pose proof (refused_leaked _ id err _ Hb Hfresh1) as Hl.
    assert (Hrun : leaked id (nextPromise (run initial es1)) [Rejected err] pg).
    { unfold pg. rewrite <- app_assoc, run_app, <- app_comm_cons, run_cons.
      apply run_leaked; [| |exact Hl].
      - rewrite uuids_app. cbn. rewrite app_nil_r. exact Hfresh2.
      - apply Forall_app. split; [exact Hans|]. repeat constructor. }
    destruct Hrun as (Hpend & Hset & _). split; assumption.
Qed.

Lemma pending_drained_after_timeout_witness :
  let pg := run initial (Scenario.unposted ++ [Elapse 60000]) in
  pendingRequests pg !! "uuid-1" = None
  /\ pendingRequests pg !! "uuid-5" = Some (mkPending 1)
  /\ settlements 1 pg = [Rejected (Js.Error "DataCloneError")].
Proof.
  assert (Hdt : (REQUEST_TIMEOUT <= 60000)%N) by (unfold REQUEST_TIMEOUT; lia).
  destruct (pending_drained_after_timeout Scenario.unposted 60000 Hdt)
    as (Hdrain & _ & Hleak).
  split.
  - destruct (pendingRequests
                (run initial (Scenario.unposted ++ [Elapse 60000])) !! "uuid-1")
      as [pr|] eqn:Hpr; [|reflexivity].
    exfalso. specialize (Hdrain "uuid-1" (ex_intro _ pr Hpr)).
    cbn in Hdrain. apply list_elem_of_singleton in Hdrain. discriminate.
  - apply (Hleak Sample.prelude "uuid-5" (Js.Error "DataCloneError") []).
    + reflexivity.
    + cbn. rewrite list_elem_of_singleton. discriminate.
    + constructor.
Defined.

End EmitterFacts.

(* ===================================================================== *)
(** * Properties of the path from page to worker and back               *)
(* ===================================================================== *)

Module RelayFacts.
Import Relay.
#[local] Open Scope list_scope.

Lemma assoc_set k k' v fields :
  Js.assoc k (Js.set k' v fields)
  = if String.eqb k k' then Some v else Js.assoc k fields.
Proof.
  induction fields as [|[k'' v''] rest IH]; cbn.
  - reflexivity.
  - destruct (String.eqb_spec k' k'') as [->|Hne]; cbn.
    + destruct (String.eqb k k''); reflexivity.
    + rewrite IH. destruct (String.eqb_spec k k'') as [->|Hne'];
        [|reflexivity].
      destruct (String.eqb_spec k'' k'); [congruence|reflexivity].
Qed.

Lemma assoc_spread k v : forall base,
  Js.assoc k (Js.spread base v)
  = match last_binding k (Js.own_properties v) with
    | Some x => Some x
    | None => Js.assoc k base
    end.
Proof.
  unfold Js.spread, last_binding.
  induction (Js.own_properties v) as [|[k' x] l IH] using rev_ind; intros base.
  - reflexivity.
  - rewrite fold_left_app, rev_app_distr. cbn.
    rewrite assoc_set. destruct (String.eqb k k'); [reflexivity|apply IH].
Qed.

(** X22. The message the relay forwards to the background worker holds the
    own properties of [params]; its [action] is the [method] of the
    request unless [params] has an own property [action], which then takes
    its place. *)
Theorem forwarded_fields message k :
  Js.get (Content.forwarded message) k
  = match last_binding k (Js.own_properties (Js.get message "params")) with
    | Some v => v
    | None =>
        if String.eqb k "action" then Js.get message "method"
        else Js.Undefined
    end.
Proof.
  unfold Content.forwarded. cbn [Js.get]. rewrite assoc_spread.
  destruct (last_binding k _); [reflexivity|]. cbn.
  destruct (String.eqb k "action"); reflexivity.
Qed.

(** X23. Page to relay and back. The envelope [request] posts is one the
    relay accepts; the relay forwards it with the method as [action]
    (unless [params] overrides it) and posts one reply; delivered to the
    provider, the reply settles the promise of this request, exactly once:
    resolved with the reply of the background worker, rejected with the
    message of the failure of [chrome.runtime.sendMessage], or resolved
    with [undefined] when that message is empty. The request is then no
    longer pending. *)
Theorem request_round_trip sendMessage es id method params :
  let pg := Inpage.run Inpage.initial es in
  let p := (Inpage.request id method params pg).1 in
  let pg1 := (Inpage.request id method params pg).2 in
  exists envelope reply,
    Inpage.posted pg1 = Inpage.posted pg ++ [envelope]
    /\ Content.onWindowMessage sendMessage true envelope = [reply]
    /\ Js.get (Content.forwarded envelope) "action"
       = default (Js.Str method)
           (last_binding "action" (Js.own_properties params))
    /\ Inpage.settlements p (Inpage.onWindowMessage true reply pg1)
       = [outcome (sendMessage (Content.forwarded envelope))]
    /\ Inpage.pendingRequests (Inpage.onWindowMessage true reply pg1) !! id
       = None.
Proof.
  intros pg p pg1.
  assert (Hb : Inpage.bounded ([] ++ Inpage.uuids es) pg)
    by apply InpageFacts.run_bounded, InpageFacts.bounded_initial.
  pose proof (InpageFacts.settlements_bounded _ (Inpage.nextPromise pg) pg Hb
                (Nat.le_refl _)) as Hnone.
  set (envelope :=
         Js.Object [("type", Js.Str "MINA_PROVIDER_REQUEST");
                    ("id", Js.Str id);
                    ("method", Js.Str method);
                    ("params", Js.coalesce params (Js.Object []))]).
  set (reply :=
         match sendMessage (Content.forwarded envelope) with
         | Ok response => Content.response_result envelope response
         | Throw err => Content.response_error envelope err
         end).
  exists envelope, reply.
  assert (Hpend : Inpage.pendingRequests pg1 !! id
                  = Some (Inpage.mkPending (Inpage.nextPromise pg))).
  { subst pg1. unfold Inpage.request. cbn. apply lookup_insert_eq. }
  assert (Htype : Js.is_str (Js.get reply "type") "MINA_PROVIDER_RESPONSE" = true).
  { subst reply. destruct (sendMessage _); reflexivity. }
  assert (Hid : Js.get reply "id" = Js.Str id).
  { subst reply. destruct (sendMessage _); reflexivity. }
  rewrite (InpageFacts.onWindowMessage_response reply pg1 id _ Htype Hid Hpend).
  split; [reflexivity|].
  split.
  { subst reply. unfold Content.onWindowMessage. cbn.
    destruct (sendMessage _); reflexivity. }
  split.
  { unfold Content.forwarded. cbn [Js.get]. rewrite assoc_spread.
    subst envelope. cbn -[last_binding Js.own_properties Js.coalesce].
    assert (Hown : Js.own_properties (Js.coalesce params (Js.Object []))
                   = Js.own_properties params)
      by (destruct params; reflexivity).
    rewrite Hown.
    destruct (last_binding "action" (Js.own_properties params)); reflexivity. }
  split.
  - rewrite InpageFacts.settlements_settle_if. cbn [Inpage.promise].
    subst p. cbn [Inpage.request fst].
    destruct (decide (Inpage.nextPromise pg = Inpage.nextPromise pg));
      [|congruence].
    change (Inpage.settlements (Inpage.nextPromise pg)
              (Inpage.with_pendingRequests pg1
                 (delete id (Inpage.pendingRequests pg1))))
      with (Inpage.settlements (Inpage.nextPromise pg) pg).
    rewrite Hnone. cbn [app].
    subst reply. unfold Inpage.settlement_of, outcome.
    destruct (sendMessage _) as [response|err]; [reflexivity|].
    cbn. destruct (String.eqb (Js.message_of err) ""); reflexivity.
  - destruct (InpageFacts.settle_if_core (Inpage.nextPromise pg)
                (Inpage.settlement_of reply)
                (Inpage.with_pendingRequests pg1
                   (delete id (Inpage.pendingRequests pg1)))) as (Hp & _).
    cbn [Inpage.promise]. rewrite Hp. cbn. apply lookup_delete_eq.
Qed.

End RelayFacts.

(* ===================================================================== *)
(** * Properties of the messages a page can send                        *)
(* ===================================================================== *)

Module WireFacts.
Import Wire Relay.
#[local] Open Scope list_scope.

Lemma assoc_app k (l l' : list (string * Js.value)) :
  Js.assoc k (l ++ l')
  = match Js.assoc k l with
    | Some v => Some v
    | None => Js.assoc k l'
    end.
Proof.
  induction l as [|[k' v] l IH]; cbn; [reflexivity|].
  destruct (String.eqb k k'); [reflexivity|exact IH].
Qed.

Lemma assoc_None k (l : list (string * Js.value)) :
  k ∉ l.*1 -> Js.assoc k l = None.
Proof.
  induction l as [|[k' v] l IH]; cbn; [reflexivity|].
  intros Hnot. apply not_elem_of_cons in Hnot as [Hne Hl].
  destruct (String.eqb_spec k k'); [contradiction|]. apply IH, Hl.
Qed.

Lemma last_binding_NoDup k (l : list (string * Js.value)) :
  NoDup l.*1 -> last_binding k l = Js.assoc k l.
Proof.
  unfold last_binding. induction l as [|[k' v] l IH]; [reflexivity|].
  cbn [fmap list_fmap rev fst]. intros Hnd.
  apply NoDup_cons in Hnd as [Hnot Hnd].
  change (rev ((k', v) :: l)) with (rev l ++ [(k', v)]).
  rewrite assoc_app, (IH Hnd). cbn.
  destruct (String.eqb_spec k k') as [->|Hne].
  - rewrite (assoc_None _ _ Hnot). reflexivity.
  - destruct (Js.assoc k l); reflexivity.
Qed.

Lemma get_forwarded message k :
  Js.get (Content.forwarded message) k
  = match last_binding k (Js.own_properties (Js.get message "params")) with
    | Some v => v
    | None =>
        if String.eqb k "action" then Js.get message "method"
        else Js.Undefined
    end.
Proof.
  unfold Content.forwarded. cbn [Js.get]. rewrite RelayFacts.assoc_spread.
  destruct (last_binding k _); [reflexivity|]. cbn.
  destruct (String.eqb k "action"); reflexivity.
Qed.

Lemma action_ext fields fields' :
  (forall k, Js.get (Js.Object fields) k = Js.get (Js.Object fields') k) ->
  action (Js.Object fields) = action (Js.Object fields').
Proof.
  intros Hget. unfold action. rewrite !Hget. reflexivity.
Qed.

Lemma forwarded_object message :
  Content.forwarded message
  = Js.Object (Js.spread [("action", Js.get message "method")]
                 (Js.get message "params")).
Proof. reflexivity. Qed.

Lemma params_of_envelope id method params :
  Js.own_properties (Js.get (envelope id method params) "params")
  = Js.own_properties params.
Proof. destruct params; reflexivity. Qed.

Lemma action_unknown fields tag :
  Js.get (Js.Object fields) "action" = Js.Str tag ->
  existsb (String.eqb tag) labels = false ->
  action (Js.Object fields) = Some (Action.unknown tag).
Proof.
  intros Hget Hnone. unfold action. rewrite Hget.
  cbn [existsb labels] in Hnone.
  repeat (apply orb_false_iff in Hnone as [-> Hnone]).
  reflexivity.
Qed.

(** X24. What the content script forwards is received by the listener of
    the trusted dispatcher. A page request whose [params] is an object
    with an own property [action] is forwarded as that very message: the
    worker answers it, and changes its state, exactly as it does for the
    same object sent by the popup, whatever the [method] of the request. *)
Theorem page_reaches_trusted_dispatcher host s id method fields :
  NoDup fields.*1 ->
  is_Some (Js.assoc "action" fields) ->
  onMessage host (Content.forwarded (envelope id method (Js.Object fields))) s
  = onMessage host (Js.Object fields) s.
Proof.
  intros Hnd [a Ha]. unfold onMessage. rewrite forwarded_object.
  rewrite (action_ext _ fields); [reflexivity|].
  intros k. rewrite <- forwarded_object, get_forwarded, params_of_envelope.
  cbn [Js.own_properties]. rewrite (last_binding_NoDup _ _ Hnd). cbn [Js.get].
  destruct (Js.assoc k fields) as [v|] eqn:Hk; [reflexivity|].
  destruct (String.eqb_spec k "action") as [->|_]; [congruence|reflexivity].
Qed.

Lemma page_reaches_trusted_dispatcher_witness :
  exists s',
    onMessage Sample.host
      (Content.forwarded
         (envelope "uuid-4" "mina_accounts"
            (Js.Object [("action", Js.Str "lockWallet")])))
      Sample.unlocked_with_site
    = Some (Js.Object [("success", Js.Boolean true)], s')
    /\ Background.isUnlocked Sample.unlocked_with_site = true
    /\ Background.isUnlocked s' = false.
Proof.
  eexists.
  rewrite (page_reaches_trusted_dispatcher Sample.host
             Sample.unlocked_with_site "uuid-4" "mina_accounts"
             [("action", Js.Str "lockWallet")]).
  - split; [reflexivity|]. split; reflexivity.
  - apply NoDup_singleton.
  - eexists. reflexivity.
Defined.

Lemma unknown_action_run host s id method params :
  existsb (String.eqb method) labels = false ->
  last_binding "action" (Js.own_properties params) = None ->
  onMessage host (Content.forwarded (envelope id method params)) s
  = Some (unknown_action, Background.touched (Background.now host) s).
Proof.
  intros Hlabel Hparams.
  unfold onMessage. rewrite forwarded_object.
  rewrite (action_unknown _ method); [reflexivity| |exact Hlabel].
  rewrite <- forwarded_object, get_forwarded, params_of_envelope, Hparams.
  reflexivity.
Qed.

(** X25. A page request whose method is none of the [case] labels of the
    trusted dispatcher (no method of the provider API is one) and whose
    [params] has no own property [action] is forwarded with the method as
    its [action] and ends in the [default:] branch: the answer is [{
    success: false, error: 'Unknown action' }] and nothing but the
    activity stamp changes. *)
Theorem provider_methods_are_unknown_actions host s id method params pg :
  existsb (String.eqb method) labels = false ->
  last_binding "action" (Js.own_properties params) = None ->
  Inpage.posted (Inpage.request id method params pg).2
  = Inpage.posted pg ++ [envelope id method params]
  /\ onMessage host (Content.forwarded (envelope id method params)) s
     = Some (unknown_action, Background.touched (Background.now host) s).
Proof.
  intros Hlabel Hparams. split; [reflexivity|].
  apply unknown_action_run; assumption.
Qed.

Lemma provider_methods_are_unknown_actions_witness :
  onMessage Sample.host
    (Content.forwarded (envelope "uuid-3" "mina_verifyMessage" Js.Undefined))
    Sample.unlocked_with_site
  = Some (unknown_action,
          Background.touched (Background.now Sample.host)
            Sample.unlocked_with_site).
Proof.
  destruct (provider_methods_are_unknown_actions Sample.host
              Sample.unlocked_with_site "uuid-3" "mina_verifyMessage"
              Js.Undefined Inpage.initial eq_refl eq_refl)
    as (_ & Hanswer).
  exact Hanswer.
Defined.

Section Wrappers.
Variable typeError : string -> string.

(** X26. Each of the eight convenience methods of the provider, through
    the content script, gets the [Unknown action] answer of the trusted
    dispatcher. With it [getAccounts] returns the empty list, [getChainId]
    returns ['unknown'] and the six others throw [Unknown action]; the
    provider itself is left as it was, so [requestAccounts] does not set
    [_isConnected]. *)
Theorem methods_through_relay host s id c pg :
  onMessage host
    (Content.forwarded (envelope id (Provider.method c) (Provider.params c))) s
  = Some (unknown_action, Background.touched (Background.now host) s)
  /\ Provider.settled_with typeError c (Inpage.Resolved unknown_action) pg
     = (match c with
        | Provider.getAccounts => Ok (Js.Array [])
        | Provider.getChainId => Ok (Js.Str "unknown")
        | _ => Throw (Js.Error "Unknown action")
        end, pg).
Proof.
  split.
  - apply unknown_action_run.
    + destruct c; reflexivity.
    + destruct c; try reflexivity; cbn;
        try (destruct (Js.truthy address)); reflexivity.
  - destruct c; reflexivity.
Qed.

End Wrappers.

End WireFacts.

(* ===================================================================== *)
(** * Properties of the WASM loader                                     *)
(* ===================================================================== *)

Module WasmFacts.
Import Wasm.
#[local] Open Scope nat_scope.
#[local] Open Scope list_scope.

Lemma stuck_step s e : stuck s -> step s e = s.
Proof.
  intros (Hw & Hl & p & Hp & _). destruct e as [reached|ok]; cbn.
  - unfold initWasm. rewrite Hw, Hp. reflexivity.
  - unfold finish. rewrite Hl. reflexivity.
Qed.

Lemma stuck_run es : forall s, stuck s -> run s es = s.
Proof.
  induction es as [|e es IH]; intros s Hs; [reflexivity|].
  change (run s (e :: es)) with (run (step s e) es).
  rewrite (stuck_step s e Hs). apply IH, Hs.
Qed.

Lemma coherent_step s e : coherent s -> coherent (step s e).
Proof.
  intros Hc.
  destruct (wasmInitialized s) eqn:Hw.
  - assert (Heq : step s e = s)
      by (destruct e; cbn; unfold initWasm, finish;
          rewrite ?Hw, ?(proj1 Hc Hw); reflexivity).
    rewrite Heq. exact Hc.
  - destruct (proj1 (proj2 Hc) Hw) as [Hip|Hstuck];
      [|rewrite (stuck_step s e Hstuck); exact Hc].
    destruct s as [w ip n f l r]. cbn in Hw, Hip. subst w ip.
    destruct e as [reached|ok]; cbn; unfold initWasm, finish; cbn.
    + destruct l as [p|]; [exact Hc|].
      destruct reached; unfold coherent, stuck; cbn.
      * split; [discriminate|]. split; [left; reflexivity|].
        intros p [= <-]. lia.
      * split; [discriminate|]. split; [|discriminate].
        intros _. right. split; [reflexivity|]. split; [reflexivity|].
        eexists. split; [reflexivity|]. left.
    + destruct l as [p|]; [|exact Hc].
      destruct ok; unfold coherent; cbn.
      * split; [reflexivity|]. split; discriminate.
      * split; [discriminate|]. split; [left; reflexivity|discriminate].
Qed.

Lemma coherent_run es : forall s, coherent s -> coherent (run s es).
Proof.
  induction es as [|e es IH]; intros s Hc; [exact Hc|].
  apply IH, coherent_step, Hc.
Qed.

Lemma coherent_initial : coherent initial.
Proof.
  unfold coherent. cbn. split; [discriminate|].
  split; [left; reflexivity|discriminate].
Qed.

Lemma live_le s : coherent s -> live s <= 1.
Proof.
  intros (Hinit & _). unfold live.
  destruct (wasmInitialized s); [rewrite (Hinit eq_refl); lia|].
  destruct (loading s); lia.
Qed.

Lemma failures_idle s e : loading s = None -> failures s [e] = 0.
Proof. intros Hl. cbn. rewrite Hl. destruct e as [|[|]]; reflexivity. Qed.

Lemma fetches_step s e :
  coherent s ->
  fetches (step s e) + live s
  = fetches s + live (step s e) + failures s [e].
Proof.
  intros Hc. destruct (wasmInitialized s) eqn:Hw.
  - assert (Heq : step s e = s)
      by (destruct e; cbn; unfold initWasm, finish;
          rewrite ?Hw, ?(proj1 Hc Hw); reflexivity).
    rewrite Heq, (failures_idle s e (proj1 Hc Hw)). lia.
  - destruct (proj1 (proj2 Hc) Hw) as [Hip|Hstuck].
    + clear Hc. destruct s as [w ip n f l r]. cbn in Hw, Hip. subst w ip.
      unfold live. destruct e as [reached|ok]; cbn; unfold initWasm, finish; cbn.
      * destruct l; cbn; [lia|]. destruct reached; cbn; lia.
      * destruct l as [p|]; cbn; [|destruct ok; lia]. destruct ok; cbn; lia.
    + rewrite (stuck_step s e Hstuck).
      destruct Hstuck as (_ & Hl & _). rewrite (failures_idle s e Hl). lia.
Qed.

Lemma failures_cons s e es :
  failures s (e :: es) = failures s [e] + failures (step s e) es.
Proof. cbn. lia. Qed.

Lemma fetches_run es : forall s,
  coherent s ->
  fetches (run s es) + live s = fetches s + live (run s es) + failures s es.
Proof.
  induction es as [|e es IH]; intros s Hc.
  - cbn. lia.
  - rewrite failures_cons.
    change (run s (e :: es)) with (run (step s e) es).
    pose proof (IH (step s e) (coherent_step s e Hc)) as Hrest.
    pose proof (fetches_step s e Hc) as Hstep. lia.
Qed.

Lemma initialized_step s e :
  coherent s -> wasmInitialized s = true -> step s e = s.
Proof.
  intros (Hinit & _) Hw. destruct e as [reached|ok]; cbn.
  - unfold initWasm. rewrite Hw. reflexivity.
  - unfold finish. rewrite (Hinit Hw). reflexivity.
Qed.

Lemma initialized_run es : forall s,
  coherent s -> wasmInitialized s = true -> run s es = s.
Proof.
  induction es as [|e es IH]; intros s Hc Hw; [reflexivity|].
  change (run s (e :: es)) with (run (step s e) es).
  rewrite (initialized_step s e Hc Hw). apply IH; assumption.
Qed.

(** X27. [initWasm] fetches the module at most once more than loads have
    failed after their fetch.  Once a load succeeded nothing changes any
    more: no call fetches again.  A call made while a load is in flight
    awaits that load and starts none.  When [initPromise] is empty (at
    the first call, and after a load that failed after its fetch, whose
    [catch] empties it), a call whose body reaches the fetch starts a new
    load.  A call whose body throws before the fetch leaves
    [initPromise] holding its rejected promise, with the module not
    initialised: from then on nothing changes any more, every call awaits
    that rejected promise, none fetches, and the module is never
    initialised. *)
Theorem initWasm_loads_once es :
  let s := run initial es in
  fetches s <= S (failures initial es)
  /\ (wasmInitialized s = true -> forall es', run s es' = s)
  /\ (forall p, loading s = Some p ->
      (forall reached, initWasm reached s = (Load p, s))
      /\ initPromise (finish false s) = None
      /\ wasmInitialized (finish false s) = false
      /\ p ∈ rejected (finish false s))
  /\ (wasmInitialized s = false -> initPromise s = None ->
      (initWasm true s).1 = Load (promises s)
      /\ fetches (step s (InitWasm true)) = S (fetches s)
      /\ loading (step s (InitWasm true)) = Some (promises s))
  /\ (wasmInitialized s = false -> initPromise s = None ->
      let s1 := step s (InitWasm false) in
      (initWasm false s).1 = Load (promises s)
      /\ promises s ∈ rejected s1
      /\ fetches s1 = fetches s
      /\ wasmInitialized s1 = false
      /\ forall es',
           run s1 es' = s1
           /\ forall reached,
                initWasm reached (run s1 es') = (Load (promises s), s1)).
Proof.
  intros s.
  assert (Hc : coherent s) by apply coherent_run, coherent_initial.
  split; [|split; [|split; [|split]]].
  - pose proof (fetches_run es initial coherent_initial) as Hf.
    pose proof (live_le s Hc) as Hl. fold s in Hf. cbn in Hf. lia.
  - intros Hw es'. apply initialized_run; assumption.
  - intros p Hl. destruct Hc as (Hinit & Hprom & _).
    destruct (wasmInitialized s) eqn:Hw;
      [specialize (Hinit eq_refl); congruence|].
    destruct (Hprom eq_refl) as [Hip|(_ & Hnone & _)]; [|congruence].
    split; [|unfold finish; rewrite Hl; cbn; repeat split; [exact Hw | left]].
    intros reached. unfold initWasm. rewrite Hw, Hip, Hl. reflexivity.
  - intros Hw Hip. cbn. unfold initWasm. rewrite Hw, Hip. cbn.
    repeat split.
  - intros Hw Hip s1.
    assert (Hs1 : s1 = mkState false (Some (promises s)) (S (promises s))
                         (fetches s) (loading s) (promises s :: rejected s)).
    { unfold s1. cbn. unfold initWasm. rewrite Hw, Hip. reflexivity. }
    assert (Hl : loading s = None).
    { destruct Hc as (_ & Hprom & _).
      destruct (Hprom Hw) as [Heq|(_ & Hnone & _)]; congruence. }
    assert (Hstuck : stuck s1).
    { rewrite Hs1. unfold stuck. cbn. split; [reflexivity|].
      split; [exact Hl|]. eexists. split; [reflexivity|]. left. }
    split; [unfold initWasm; rewrite Hw, Hip; destruct s; reflexivity|].
    split; [rewrite Hs1; left|].
    split; [rewrite Hs1; reflexivity|].
    split; [rewrite Hs1; reflexivity|].
    intros es'. rewrite (stuck_run es' s1 Hstuck). split; [reflexivity|].
    intros reached. rewrite Hs1. reflexivity.
Qed.

Lemma initWasm_loads_once_witness :
  run (run initial Scenario.loads) [InitWasm true; Finish false; InitWasm true]
  = run initial Scenario.loads
  /\ wasmInitialized (run initial Scenario.thrown) = false
  /\ fetches (run initial Scenario.thrown) = 0
  /\ (initWasm true (run initial Scenario.thrown)).1 = Load 0
  /\ rejected (run initial Scenario.thrown) = [0].
Proof.
  split.
  - destruct (initWasm_loads_once Scenario.loads) as (_ & Hdone & _).
    apply Hdone. reflexivity.
  - destruct (initWasm_loads_once []) as (_ & _ & _ & _ & Hthrown).
    destruct (Hthrown eq_refl eq_refl) as (_ & _ & _ & _ & Hrest).
    destruct (Hrest [InitWasm true; Finish true; InitWasm true])
      as (Hrun & Hcall).
    change (run initial Scenario.thrown)
      with (run (step (run initial []) (InitWasm false))
              [InitWasm true; Finish true; InitWasm true]).
    rewrite (Hcall true), Hrun. repeat split.
Defined.

End WasmFacts.

(* ===================================================================== *)
(** * Properties of the popup                                           *)
(* ===================================================================== *)

Module PopupFacts.
Import Popup.
#[local] Open Scope list_scope.

Lemma visible_showView view p : visible (showView view p) = [view].
Proof. destruct view; reflexivity. Qed.

Lemma hasWallet_run host s :
  Background.onMessage host Action.hasWallet s
  = (Response.hasWallet
       (bool_decide (mina_wallet_encrypted (Background.storage s) <> None)),
     Background.touched (Background.now host) s).
Proof. reflexivity. Qed.

Lemma isLocked_run host s :
  Background.onMessage host Action.isLocked s
  = (Response.isLocked (negb (Background.isUnlocked s)),
     Background.touched (Background.now host) s).
Proof. reflexivity. Qed.

Lemma getActiveAccount_run host s :
  Background.onMessage host Action.getActiveAccount s
  = (Response.account (active_account (Background.storage s)),
     Background.touched (Background.now host) s).
Proof.
  destruct s as [u m [w n c a]]. unfold active_account.
  run_worker. destruct w as [w|]; [|reflexivity].
  destruct (Nat.eqb _ _); reflexivity.
Qed.

Lemma getNetwork_run host s :
  Background.onMessage host Action.getNetwork s
  = (Response.network (active_network (Background.storage s)),
     Background.touched (Background.now host) s).
Proof. reflexivity. Qed.

Lemma unlockWallet_run host password s :
  Background.onMessage host (Action.unlockWallet password) s
  = if bool_decide (mina_wallet_encrypted (Background.storage s) = None)
    then (Response.failure "No wallet found",
          Background.touched (Background.now host) s)
    else (Response.success,
          Background.mkState true (Background._decryptedMnemonic s)
            (Background.storage (Background.touched (Background.now host) s))).
Proof.
  destruct s as [u m [w n c a]]. destruct w; reflexivity.
Qed.

Lemma lockWallet_run host s :
  Background.onMessage host Action.lockWallet s
  = (Response.success,
     Background.mkState false None
       (Background.storage (Background.touched (Background.now host) s))).
Proof. reflexivity. Qed.

Lemma active_account_touched t s :
  active_account (Background.storage (Background.touched t s))
  = active_account (Background.storage s).
Proof.
  destruct s as [u m [[w|] n c a]]; [|reflexivity].
  unfold active_account, Accounts.getActiveAccount, Background.touched.
  unfold_storage. unfold_M. cbn.
  destruct (Nat.eqb _ _); reflexivity.
Qed.

Lemma same_session_touched t s : same_session s (Background.touched t s).
Proof. repeat split. Qed.

Lemma same_session_trans s1 s2 s3 :
  same_session s1 s2 -> same_session s2 s3 -> same_session s1 s3.
Proof.
  intros (A1 & A2 & A3 & A4 & A5) (B1 & B2 & B3 & B4 & B5).
  repeat split; congruence.
Qed.

(** [loadWalletData] against the worker: two reads, and the display of
    what they returned. *)
Lemma loadWalletData_worker hosts n p s :
  loadWalletData _ (worker hosts) n p s
  = (Ok tt,
     updateNetworkDisplay
       (with_currentNetwork
          match active_account (Background.storage s) with
          | Some account =>
              updateAccountDisplay (with_currentAccount p (Some account))
          | None => p
          end
          (Some (active_network (Background.storage s)))),
     Background.touched (Background.now (hosts (S n)))
       (Background.touched (Background.now (hosts n)) s)).
Proof.
  unfold loadWalletData, worker.
  rewrite getActiveAccount_run. cbn [fst snd].
  rewrite getNetwork_run. cbn [fst snd field_account field_network].
  reflexivity.
Qed.

Lemma loaded_display p account network :
  let p' :=
    updateNetworkDisplay
      (with_currentNetwork
         match account with
         | Some a => updateAccountDisplay (with_currentAccount p (Some a))
         | None => p
         end (Some network)) in
  views p' = views p
  /\ passwordInput_value p' = passwordInput_value p
  /\ unlockButton_disabled p' = unlockButton_disabled p
  /\ unlockError_textContent p' = unlockError_textContent p
  /\ unlockError_hidden p' = unlockError_hidden p
  /\ versionText_textContent p' = versionText_textContent p
  /\ currentNetwork p' = Some network
  /\ networkBadge_textContent p' = Network.name network
  /\ networkBadge_className p' = "network-badge " +:+ Network.id network
  /\ match account with
     | Some a =>
         currentAccount p' = Some a
         /\ accountName_textContent p' = Account.name a
         /\ accountAddress_title p' = Account.address a
         /\ accountAddress_textContent p' = shortened (Account.address a)
     | None =>
         currentAccount p' = currentAccount p
         /\ accountName_textContent p' = accountName_textContent p
         /\ accountAddress_title p' = accountAddress_title p
         /\ accountAddress_textContent p' = accountAddress_textContent p
     end.
Proof. destruct account; repeat split. Qed.

Lemma active_account_stamp w n c a a' :
  active_account (mkStore w n c a) = active_account (mkStore w n c a').
Proof.
  destruct w as [w|]; [|reflexivity].
  unfold active_account, Accounts.getActiveAccount.
  unfold_storage. unfold_M. cbn.
  destruct (Nat.eqb _ _); reflexivity.
Qed.

Lemma active_network_stamp w n c a a' :
  active_network (mkStore w n c a) = active_network (mkStore w n c a').
Proof. reflexivity. Qed.

Lemma active_network_touched t s :
  active_network (Background.storage (Background.touched t s))
  = active_network (Background.storage s).
Proof. destruct s as [u m [w n c a]]. reflexivity. Qed.

Lemma initialize_worker hosts version p s :
  initialize _ (worker hosts) version p s
  = let q := with_versionText (showView loading p) ("v" +:+ version) in
    let now n := Background.now (hosts n) in
    if bool_decide (mina_wallet_encrypted (Background.storage s) = None)
    then (showView setup q, Background.touched (now 0%nat) s)
    else if Background.isUnlocked s
    then
      (showView main
         (updateNetworkDisplay
            (with_currentNetwork
               match active_account (Background.storage s) with
               | Some account =>
                   updateAccountDisplay (with_currentAccount q (Some account))
               | None => q
               end
               (Some (active_network (Background.storage s))))),
       Background.touched (now 3%nat)
         (Background.touched (now 2%nat)
            (Background.touched (now 1%nat)
               (Background.touched (now 0%nat) s))))
    else
      (showView locked q,
       Background.touched (now 1%nat) (Background.touched (now 0%nat) s)).
Proof.
  unfold initialize. unfold worker at 1. rewrite hasWallet_run. cbn [fst snd].
  cbn [field_hasWallet]. cbv zeta.
  destruct (mina_wallet_encrypted (Background.storage s)) as [w|] eqn:Hw.
  - rewrite bool_decide_eq_true_2 by discriminate.
    rewrite bool_decide_eq_false_2 by discriminate. cbn [negb].
    unfold worker at 1. rewrite isLocked_run. cbn [fst snd field_isLocked].
    change (Background.isUnlocked
              (Background.touched (Background.now (hosts 0%nat)) s))
      with (Background.isUnlocked s).
    destruct (Background.isUnlocked s); cbn [negb]; [|reflexivity].
    rewrite loadWalletData_worker.
    rewrite !active_account_touched, !active_network_touched. reflexivity.
  - rewrite bool_decide_eq_false_2 by (intros H; apply H; reflexivity).
    rewrite bool_decide_eq_true_2 by reflexivity. reflexivity.
Qed.

Lemma handleUnlock_worker hosts p s :
  handleUnlock _ (worker hosts) p s
  = let now n := Background.now (hosts n) in
    if String.eqb (passwordInput_value p) ""
    then (showError "Please enter your password" p, s)
    else
      let q := with_unlockButton_disabled (clearError p) true in
      if bool_decide (mina_wallet_encrypted (Background.storage s) = None)
      then
        (with_unlockButton_disabled (showError "No wallet found" q) false,
         Background.touched (now 0%nat) s)
      else
        (with_unlockButton_disabled
           (showView main
              (updateNetworkDisplay
                 (with_currentNetwork
                    match active_account (Background.storage s) with
                    | Some account =>
                        updateAccountDisplay
                          (with_currentAccount
                             (with_passwordInput_value q "") (Some account))
                    | None => with_passwordInput_value q ""
                    end
                    (Some (active_network (Background.storage s))))))
           false,
         Background.touched (now 2%nat)
           (Background.touched (now 1%nat)
              (Background.mkState true (Background._decryptedMnemonic s)
                 (Background.storage
                    (Background.touched (now 0%nat) s))))).
Proof.
  unfold handleUnlock. cbv zeta.
  destruct (String.eqb (passwordInput_value p) ""); [reflexivity|].
  unfold worker at 1. rewrite unlockWallet_run.
  case_bool_decide as Hw; cbn [fst snd field_success field_error default];
    [reflexivity|].
  rewrite loadWalletData_worker.
  destruct s as [u m [w n c a]].
  cbn [Background.storage Background.touched Background.isUnlocked
       Background._decryptedMnemonic mina_wallet_encrypted mina_active_network
       mina_connected_sites mina_last_activity].
  rewrite (active_account_stamp w n c _ a), (active_network_stamp w n c _ a).
  reflexivity.
Qed.

Lemma handleLock_worker hosts p s :
  handleLock _ (worker hosts) p s
  = (showView locked p,
     Background.mkState false None
       (Background.storage
          (Background.touched (Background.now (hosts 0%nat)) s))).
Proof. unfold handleLock, worker. rewrite lockWallet_run. reflexivity. Qed.

(** X28. [initialize], with the worker answering, ends with exactly one
    view shown: the setup view when no wallet is stored, the locked view
    when one is stored and the session is locked, the main view when it is
    unlocked. It leaves the session, the wallet, the network and the
    connected sites as they were, writes the version text, and for the
    main view holds and displays the active account, the address
    shortened to its first eight and last six characters.  When the
    stored network id is not a name inherited from [Object.prototype], it
    holds and displays the active network as well; nothing is said of the
    network shown over a store that holds an inherited name. *)
Theorem initialize_shows_session hosts version p s :
  let p' := (initialize _ (worker hosts) version p s).1 in
  let s' := (initialize _ (worker hosts) version p s).2 in
  visible p'
  = [if bool_decide (mina_wallet_encrypted (Background.storage s) = None)
     then setup
     else if Background.isUnlocked s then main else locked]
  /\ same_session s s'
  /\ versionText_textContent p' = "v" +:+ version
  /\ (mina_wallet_encrypted (Background.storage s) <> None ->
      Background.isUnlocked s = true ->
      (Storage.plain_network (Background.storage s) = true ->
       currentNetwork p' = Some (active_network (Background.storage s))
       /\ networkBadge_textContent p'
          = Network.name (active_network (Background.storage s)))
      /\ match active_account (Background.storage s) with
         | Some a =>
             currentAccount p' = Some a
             /\ accountName_textContent p' = Account.name a
             /\ accountAddress_title p' = Account.address a
             /\ accountAddress_textContent p' = shortened (Account.address a)
         | None => currentAccount p' = currentAccount p
         end).
Proof.
  cbv zeta. rewrite initialize_worker. cbv zeta.
  case_bool_decide as Hw.
  - cbn [fst snd]. rewrite visible_showView.
    split; [reflexivity|]. split; [repeat split|]. split; [reflexivity|].
    intros Hsome. contradiction.
  - destruct (Background.isUnlocked s) eqn:Hu; cbn [fst snd];
      rewrite visible_showView.
    + destruct (active_account (Background.storage s)) as [a|];
        (split; [reflexivity|]; split; [repeat split; assumption|];
         split; [reflexivity|]; intros _ _; repeat split).
    + split; [reflexivity|]. split; [repeat split; assumption|].
      split; [reflexivity|]. intros _ Habs. discriminate Habs.
Qed.

Lemma initialize_shows_session_witness :
  currentNetwork
    (initialize _ (worker Scenario.hosts) "0.1.0" Scenario.popup
       Sample.unlocked_with_site).1
  = Some mainnet.
Proof.
  destruct (initialize_shows_session Scenario.hosts "0.1.0" Scenario.popup
              Sample.unlocked_with_site) as (_ & _ & _ & Hmain).
  destruct Hmain as [Hnetwork _]; [discriminate | reflexivity |].
  destruct Hnetwork as [Hnetwork _]; [reflexivity|].
  rewrite Hnetwork. reflexivity.
Defined.

(** X29. [handleUnlock] with an empty password field sends nothing to the
    worker and shows [Please enter your password]. With a password and no
    stored wallet it shows [No wallet found], keeps the view and the
    session, and enables the button again. With a password and a stored
    wallet the session is unlocked, whatever the password, and the
    mnemonic in memory is what it was (none is loaded); the main view is
    shown alone, the error box is cleared and hidden, the password field
    is emptied and the button enabled. *)
Theorem handleUnlock_outcomes hosts p s :
  let p' := (handleUnlock _ (worker hosts) p s).1 in
  let s' := (handleUnlock _ (worker hosts) p s).2 in
  (passwordInput_value p = "" ->
   s' = s /\ p' = showError "Please enter your password" p)
  /\ (passwordInput_value p <> "" ->
      mina_wallet_encrypted (Background.storage s) = None ->
      same_session s s'
      /\ views p' = views p
      /\ unlockError_textContent p' = "No wallet found"
      /\ unlockError_hidden p' = false
      /\ passwordInput_value p' = passwordInput_value p
      /\ unlockButton_disabled p' = false)
  /\ (passwordInput_value p <> "" ->
      mina_wallet_encrypted (Background.storage s) <> None ->
      Background.isUnlocked s' = true
      /\ Background._decryptedMnemonic s' = Background._decryptedMnemonic s
      /\ mina_wallet_encrypted (Background.storage s')
         = mina_wallet_encrypted (Background.storage s)
      /\ visible p' = [main]
      /\ unlockError_textContent p' = ""
      /\ unlockError_hidden p' = true
      /\ passwordInput_value p' = ""
      /\ unlockButton_disabled p' = false).
Proof.
  cbv zeta. rewrite handleUnlock_worker. cbv zeta.
  destruct (String.eqb_spec (passwordInput_value p) "") as [Hempty|Hpw].
  - cbn [fst snd]. split; [auto|]. split; intros Hne; contradiction.
  - split; [intros Habs; contradiction|].
    case_bool_decide as Hw; cbn [fst snd].
    + split; [|intros _ Hsome; contradiction].
      intros _ _. repeat split.
    + split; [intros _ Hnone; contradiction|].
      intros _ _.
      destruct (active_account (Background.storage s)) as [a|];
        repeat split.
Qed.

Lemma handleUnlock_outcomes_witness :
  Background.isUnlocked Sample.locked_with_wallet = false
  /\ Background.isUnlocked
       (handleUnlock _ (worker Scenario.hosts) Scenario.popup
          Sample.locked_with_wallet).2 = true
  /\ visible
       (handleUnlock _ (worker Scenario.hosts) Scenario.popup
          Sample.locked_with_wallet).1 = [main].
Proof.
  destruct (handleUnlock_outcomes Scenario.hosts Scenario.popup
              Sample.locked_with_wallet) as (_ & _ & Hwallet).
  destruct Hwallet as (Hunlocked & _ & _ & Hview & _);
    [discriminate | discriminate |].
  split; [reflexivity|]. split; [exact Hunlocked | exact Hview].
Defined.

(** X30. After [handleLock] the session is locked and holds no mnemonic,
    wallet and connected sites are untouched, and the locked view is shown
    alone; when a wallet is stored, an [initialize] that follows shows the
    locked view again. *)
Theorem handleLock_locks hosts p s :
  let p' := (handleLock _ (worker hosts) p s).1 in
  let s' := (handleLock _ (worker hosts) p s).2 in
  Background.isUnlocked s' = false
  /\ Background._decryptedMnemonic s' = None
  /\ mina_wallet_encrypted (Background.storage s')
     = mina_wallet_encrypted (Background.storage s)
  /\ mina_connected_sites (Background.storage s')
     = mina_connected_sites (Background.storage s)
  /\ p' = showView locked p
  /\ visible p' = [locked]
  /\ (mina_wallet_encrypted (Background.storage s) <> None ->
      forall hosts' version,
        visible (initialize _ (worker hosts') version p' s').1 = [locked]).
Proof.
  cbv zeta. rewrite !handleLock_worker. cbn [fst snd].
  repeat split.
  intros Hw hosts' version. rewrite initialize_worker. cbv zeta.
  cbn [Background.storage Background.touched mina_wallet_encrypted
       Background.isUnlocked].
  rewrite bool_decide_eq_false_2 by exact Hw. cbn [fst].
  apply visible_showView.
Qed.

Lemma handleLock_locks_witness :
  visible
    (initialize _ (worker Scenario.hosts) "0.1.0"
       (handleLock _ (worker Scenario.hosts) Scenario.popup
          Sample.unlocked_with_site).1
       (handleLock _ (worker Scenario.hosts) Scenario.popup
          Sample.unlocked_with_site).2).1
  = [locked].
Proof.
  destruct (handleLock_locks Scenario.hosts Scenario.popup
              Sample.unlocked_with_site) as (_ & _ & _ & _ & _ & _ & Hagain).
  apply Hagain. discriminate.
Defined.

End PopupFacts.
